(** * Zinc: the routing trie, the route table and the middleware chain

    A shallow embedding of the Go package [zinc] (the trie of [node]s, the
    [router] with [parsePattern], [addRoute] and [getRoute], and the
    [Context] with [Next], [Fail] and [router.handle]), followed by the
    properties of the routing and chaining core.  The embedding goes on with
    [travel] and [getRoutes], [Param], the middlewares [Logger] and
    [Recovery], and the [Engine] with its groups and [ServeHTTP]; their
    properties are the last part of the file.

    Conventions of the embedding.
    - A Go [string] is a [string] of bytes; [s[0]] is [byte0], which panics on
      the empty string as the Go runtime does.
    - A Go run-time panic (index out of range, nil function call) is the
      outcome [Panic] of the [res] monad.
    - [*node] pointers into [n.children] are positions in the list; a [nil]
      pointer is [None].
    - Go maps are [gmap]s with [string] keys.
    - A [*RouterGroup] is the position of the group in [engine.groups]. *)

From Stdlib Require Import ZArith Ascii.
From stdpp Require Import base tactics option list strings gmap sorting.
From Equations Require Import Equations.
From Equations.Prop Require Import Logic.

(** ** Run-time panics *)

Inductive res (A : Type) : Type :=
| Ok (a : A)
| Panic.
Arguments Ok {A} a.
Arguments Panic {A}.

#[global] Instance res_ret : MRet res := fun A a => Ok a.
#[global] Instance res_bind : MBind res := fun A B f m =>
  match m with
  | Ok a => f a
  | Panic => Panic
  end.

(** [s[0]]: the first byte, a panic on the empty string. *)
Definition byte0 (s : string) : res ascii :=
  match s with
  | EmptyString => Panic
  | String c _ => Ok c
  end.

(** [l[i]]: a panic when [i] is out of range. *)
Definition at_index {A} (l : list A) (i : nat) : res A :=
  match l !! i with
  | Some x => Ok x
  | None => Panic
  end.

(** [l[i:]]: a panic when [i] exceeds the length. *)
Definition slice_from {A} (l : list A) (i : nat) : res (list A) :=
  if decide (i ≤ length l) then Ok (drop i l) else Panic.

(** ** Package [strings] *)

(** [strings.Split(s, sep)] for a separator of one byte: the substrings
    between the separators, [[""]] for the empty string. *)
Fixpoint Split (s : string) (sep : ascii) : list string :=
  match s with
  | EmptyString => [EmptyString]
  | String c s' =>
      if decide (c = sep) then EmptyString :: Split s' sep
      else match Split s' sep with
           | item :: items => String c item :: items
           | [] => [String c EmptyString]
           end
  end.

(** [strings.Join(elems, sep)]. *)
Fixpoint Join (elems : list string) (sep : string) : string :=
  match elems with
  | [] => EmptyString
  | [x] => x
  | x :: xs => x +:+ sep +:+ Join xs sep
  end.

(** [strings.HasPrefix(s, prefix)]. *)
Fixpoint HasPrefix (s prefix : string) {struct prefix} : bool :=
  match prefix with
  | EmptyString => true
  | String p prefix' =>
      match s with
      | EmptyString => false
      | String c s' => bool_decide (c = p) && HasPrefix s' prefix'
      end
  end.

(** ** The trie: [node] *)

#[warnings="-register-all"]
Inductive node : Type := mkNode {
  pattern : string;       (* the full registered route, or the empty string *)
  part : string;          (* the segment this node stands for *)
  children : list node;
  isWild : bool           (* true for a [:name] or [*name] segment *)
}.

Definition set_pattern (p : string) (n : node) : node :=
  mkNode p (part n) (children n) (isWild n).

Definition set_children (cs : list node) (n : node) : node :=
  mkNode (pattern n) (part n) cs (isWild n).

(** [c == ':' || c == '*']. *)
Definition is_dyn_byte (c : ascii) : bool :=
  bool_decide (c = ":"%char) || bool_decide (c = "*"%char).

(** The loop of [matchChild] over [n.children]: the first child whose part
    is [part0], or that is wild when [part0] starts with [:] or [*]; the
    result is the child together with its position in the list.  [part0[0]]
    is read only when the parts differ, as [||] evaluates in Go. *)
Fixpoint matchChild_range (cs : list node) (part0 : string)
  : res (option (nat * node)) :=
  match cs with
  | [] => Ok None
  | child :: cs' =>
      if decide (part child = part0) then Ok (Some (0, child))
      else
        c0 ← byte0 part0;
        if is_dyn_byte c0 && isWild child then Ok (Some (0, child))
        else
          r ← matchChild_range cs' part0;
          Ok (match r with
              | Some (i, c) => Some (S i, c)
              | None => None
              end)
  end.

Definition matchChild (n : node) (part0 : string) : res (option (nat * node)) :=
  matchChild_range (children n) part0.

(** The loop of [matchChildren]: the children with exactly this part go to
    [nodes], the other wild ones to [wildNodes]. *)
Fixpoint matchChildren_range (cs : list node) (part0 : string)
  : list node * list node :=
  match cs with
  | [] => ([], [])
  | child :: cs' =>
      let '(nodes, wildNodes) := matchChildren_range cs' part0 in
      if decide (part child = part0) then (child :: nodes, wildNodes)
      else if isWild child then (nodes, child :: wildNodes)
      else (nodes, wildNodes)
  end.

Definition matchChildren (n : node) (part0 : string) : list node :=
  let '(nodes, wildNodes) := matchChildren_range (children n) part0 in
  nodes ++ wildNodes.

(** [insert]: the recursion descends one level per call, so it is
    well-founded on [len(parts) - height]. *)
Equations? insert (n : node) (pattern0 : string) (parts : list string)
  (height : nat) : res node by wf (length parts - height) lt :=
insert n pattern0 parts height with decide (length parts = height) := {
  | left _ => Ok (set_pattern pattern0 n)
  | right _ with inspect (parts !! height) := {
    | exist _ None _ => Panic
    | exist _ (Some part0) Hp =>
        m ← matchChild n part0;
        match m with
        | Some (i, child) =>
            child' ← insert child pattern0 parts (S height);
            Ok (set_children (<[i := child']> (children n)) n)
        | None =>
            c0 ← byte0 part0;
            child' ← insert (mkNode "" part0 [] (is_dyn_byte c0))
                       pattern0 parts (S height);
            Ok (set_children (children n ++ [child']) n)
        end } }.
Proof.
  all: apply lookup_lt_Some in Hp; lia.
Qed.

(** The loop of [search] over the candidate children: the first result that
    is not [nil]. *)
Fixpoint search_range (f : node → res (option node)) (cs : list node)
  : res (option node) :=
  match cs with
  | [] => Ok None
  | child :: cs' =>
      result ← f child;
      match result with
      | Some r => Ok (Some r)
      | None => search_range f cs'
      end
  end.

Equations? search (n : node) (parts : list string) (height : nat)
  : res (option node) by wf (length parts - height) lt :=
search n parts height
  with decide (length parts = height ∨ HasPrefix (part n) "*" = true) := {
  | left _ => Ok (if decide (pattern n = "") then None else Some n)
  | right _ with inspect (parts !! height) := {
    | exist _ None _ => Panic
    | exist _ (Some part0) Hp =>
        search_range (fun child => search child parts (S height))
          (matchChildren n part0) } }.
Proof.
  apply lookup_lt_Some in Hp. lia.
Qed.

(** ** The request context and the handlers

    [Context] keeps the fields of the Go struct that the chain reads and
    writes.  [Writer] and the logger are the outside world: every call on
    them is recorded, in order, in the [trace] of the run, together with one
    [Enter i] for every invocation [c.handlers[i](c)] made by [Next].  The
    field [handlers] is the chain passed alongside the state: its type
    mentions [Context] itself, and only [router.handle] assigns it. *)

Record Context : Type := mkContext {
  Method : string;
  Path : string;
  Params : gmap string string;
  StatusCode : Z;
  index : Z
}.

Inductive event : Type :=
| Enter (i : Z)
| Log (msg : string)
| SetHeader (key value : string)
| WriteHeader (code : Z)
| Write (body : string)
| Encode (obj : list (string * string)).

Record State : Type := mkState {
  ctx : Context;
  trace : list event
}.

Definition set_index (i : Z) (s : State) : State :=
  mkState (mkContext (Method (ctx s)) (Path (ctx s)) (Params (ctx s))
             (StatusCode (ctx s)) i) (trace s).

Definition set_StatusCode (code : Z) (s : State) : State :=
  mkState (mkContext (Method (ctx s)) (Path (ctx s)) (Params (ctx s))
             code (index (ctx s))) (trace s).

Definition set_Params (params : gmap string string) (s : State) : State :=
  mkState (mkContext (Method (ctx s)) (Path (ctx s)) params
             (StatusCode (ctx s)) (index (ctx s))) (trace s).

(** [c.index++]. *)
Definition incr_index (s : State) : State :=
  set_index (index (ctx s) + 1) s.

Definition emit (e : event) (s : State) : State :=
  mkState (ctx s) (trace s ++ [e]).

(** The body of a handler: what a [HandlerFunc] does with its [*Context].
    [Update] is the handler's own code on the exported fields ([index] is
    unexported: outside [Next] and [Fail] nothing assigns it, so the run keeps
    it); [Printf] is any action visible outside, such as [log.Printf];
    [Crash] is a run-time panic, which is also what calling a [nil]
    [HandlerFunc] does. *)
Inductive Prog : Type :=
| Return
| Crash
| Printf (msg : string) (k : Prog)
| Update (f : Context → Context) (k : Prog)
| Branch (b : Context → bool) (k1 k2 : Prog)
| CallNext (k : Prog)
| CallFail (code : Z) (err : string) (k : Prog)
| CallString (code : Z) (body : Context → string) (k : Prog)
| CallJSON (code : Z) (obj : list (string * string)) (k : Prog).

(** The Go type [HandlerFunc], a function of a pointer to [Context]. *)
Abbreviation HandlerFunc := Prog.

(** How a call of a handler, or of [Next], ends; [None] around it means that
    the step budget of the model ran out. *)
Inductive outcome : Type :=
| Returned (s : State)
| Panicked (s : State).

Definition final (o : outcome) : State :=
  match o with
  | Returned s => s
  | Panicked s => s
  end.

Definition Status (code : Z) (s : State) : State :=
  emit (WriteHeader code) (set_StatusCode code s).

Definition Context_String (code : Z) (body : string) (s : State) : State :=
  emit (Write body) (Status code (emit (SetHeader "Content-Type" "text/plain") s)).

Definition JSON (code : Z) (obj : list (string * string)) (s : State) : State :=
  emit (Encode obj)
    (Status code (emit (SetHeader "Content-Type" "application/json") s)).

(** [Fail]: the cursor jumps to the length of the chain, then the response is
    written. *)
Definition Fail (handlers0 : list HandlerFunc) (code : Z) (err : string)
  (s : State) : State :=
  JSON code [("message", err)] (set_index (Z.of_nat (length handlers0)) s).

(** Running the body of a handler; [next] is what [c.Next()] does. *)
Fixpoint run (handlers0 : list HandlerFunc) (next : State → option outcome)
  (p : Prog) (s : State) : option outcome :=
  match p with
  | Return => Some (Returned s)
  | Crash => Some (Panicked s)
  | Printf msg k => run handlers0 next k (emit (Log msg) s)
  | Update f k =>
      run handlers0 next k (set_index (index (ctx s)) (mkState (f (ctx s)) (trace s)))
  | Branch b k1 k2 =>
      if b (ctx s) then run handlers0 next k1 s else run handlers0 next k2 s
  | CallNext k =>
      match next s with
      | Some (Returned s') => run handlers0 next k s'
      | r => r
      end
  | CallFail code err k => run handlers0 next k (Fail handlers0 code err s)
  | CallString code body k =>
      run handlers0 next k (Context_String code (body (ctx s)) s)
  | CallJSON code obj k => run handlers0 next k (JSON code obj s)
  end.

(** [c.handlers[c.index]], a panic for an index out of range. *)
Definition handler_at (handlers0 : list HandlerFunc) (i : Z) : option HandlerFunc :=
  if decide (0 ≤ i)%Z then handlers0 !! Z.to_nat i else None.

(** The loop of [Next], from the current [c.index]:
    [for ; c.index < handlersLen; c.index++ { c.handlers[c.index](c) }].
    Every iteration and every nested [Next] takes one unit of [fuel]. *)
Fixpoint Next_for (fuel : nat) (handlers0 : list HandlerFunc) (s : State)
  : option outcome :=
  match fuel with
  | O => None
  | S fuel' =>
      if decide (index (ctx s) < Z.of_nat (length handlers0))%Z then
        match handler_at handlers0 (index (ctx s)) with
        | None => Some (Panicked s)
        | Some h =>
            match run handlers0
                    (fun s1 => Next_for fuel' handlers0 (incr_index s1))
                    h (emit (Enter (index (ctx s))) s) with
            | Some (Returned s') => Next_for fuel' handlers0 (incr_index s')
            | r => r
            end
        end
      else Some (Returned s)
  end.

(** [Next]: [c.index++], then the loop. *)
Definition Next_fuel (fuel : nat) (handlers0 : list HandlerFunc) (s : State)
  : option outcome :=
  Next_for fuel handlers0 (incr_index s).

(** One unit per handler of the chain and one more is enough
    (see [Next_total]). *)
Definition Next (handlers0 : list HandlerFunc) (s : State) : option outcome :=
  Next_fuel (S (length handlers0)) handlers0 s.

(** [newContext]: the cursor starts at -1. *)
Definition newContext (method path : string) : State :=
  mkState (mkContext method path ∅ 0 (-1)) [].

(** ** The route table: [router] *)

Record router : Type := mkRouter {
  roots : gmap string node;
  handlers : gmap string HandlerFunc
}.

Definition newRouter : router := mkRouter ∅ ∅.

(** The loop of [parsePattern] over the items of the split. *)
Fixpoint parsePattern_range (vs : list string) : list string :=
  match vs with
  | [] => []
  | item :: vs' =>
      match item with
      | EmptyString => parsePattern_range vs'
      | String c0 _ =>
          if decide (c0 = "*"%char) then [item]
          else item :: parsePattern_range vs'
      end
  end.

Definition parsePattern (pattern0 : string) : list string :=
  parsePattern_range (Split pattern0 "/"%char).

Definition route_key (method pattern0 : string) : string :=
  method +:+ "-" +:+ pattern0.

Definition addRoute (r : router) (method pattern0 : string)
  (handler : HandlerFunc) : res router :=
  let parts := parsePattern pattern0 in
  let key := route_key method pattern0 in
  let handlers' := <[key := handler]> (handlers r) in
  let root := default (mkNode "" "" [] false) (roots r !! method) in
  root' ← insert root pattern0 parts 0;
  Ok (mkRouter (<[method := root']> (roots r)) handlers').

(** The loop of [getRoute] over the parts of the matched pattern, [index0]
    being the loop index. *)
Fixpoint getRoute_range (parts : list string) (index0 : nat)
  (searchParts : list string) (params : gmap string string)
  : res (gmap string string) :=
  match parts with
  | [] => Ok params
  | part0 :: parts' =>
      match part0 with
      | EmptyString => Panic
      | String c0 name =>
          params1 ← (if decide (c0 = ":"%char)
                     then v ← at_index searchParts index0;
                          Ok (<[name := v]> params)
                     else Ok params);
          if decide (c0 = "*"%char ∧ 1 < String.length part0)
          then rest ← slice_from searchParts index0;
               Ok (<[name := Join rest "/"]> params1)
          else getRoute_range parts' (S index0) searchParts params1
      end
  end.

(** [getRoute]: [None] is the pair of [nil]s. *)
Definition getRoute (r : router) (method path : string)
  : res (option (node * gmap string string)) :=
  let searchParts := parsePattern path in
  match roots r !! method with
  | None => Ok None
  | Some root =>
      n ← search root searchParts 0;
      match n with
      | Some n =>
          params ← getRoute_range (parsePattern (pattern n)) 0 searchParts ∅;
          Ok (Some (n, params))
      | None => Ok None
      end
  end.

Definition LF : string := String (ascii_of_nat 10) EmptyString.

(** The handler appended when no route matches. *)
Definition notFound : HandlerFunc :=
  CallString 404 (fun c => "404 NOT FOUND: " +:+ Path c +:+ LF) Return.

(** [router.handle], [handlers0] being [c.handlers] on entry.  A key that is
    missing from [r.handlers] yields the [nil] function, which panics when it
    is called. *)
Definition handle (r : router) (handlers0 : list HandlerFunc) (s : State)
  : option outcome :=
  match getRoute r (Method (ctx s)) (Path (ctx s)) with
  | Panic => Some (Panicked s)
  | Ok (Some (n, params)) =>
      let key := route_key (Method (ctx s)) (pattern n) in
      Next (handlers0 ++ [default Crash (handlers r !! key)]) (set_Params params s)
  | Ok None => Next (handlers0 ++ [notFound]) s
  end.

(** The router after a list of registrations, oldest first. *)
Fixpoint register (routes : list (string * string * HandlerFunc)) (r : router)
  : res router :=
  match routes with
  | [] => Ok r
  | (method, pattern0, handler) :: routes' =>
      r' ← addRoute r method pattern0 handler;
      register routes' r'
  end.

(** ** Listing the routes, and reading a parameter *)

(** [travel]: the nodes that carry a pattern, a node before its children,
    appended to [list0]. *)
Fixpoint travel (n : node) (list0 : list node) : list node :=
  let list1 := if decide (pattern n = "") then list0 else list0 ++ [n] in
  fold_left (fun l child => travel child l) (children n) list1.

(** [getRoutes]: [None] is the [nil] slice. *)
Definition getRoutes (r : router) (method : string) : option (list node) :=
  match roots r !! method with
  | None => None
  | Some root => Some (travel root [])
  end.

(** [Param]: the zero value, the empty string, for a key that is not bound. *)
Definition Param (c : Context) (key : string) : string :=
  default "" (Params c !! key).

(** ** The middlewares of the package, and chains that hold them

    [Logger] and [Recovery] run code after [c.Next()] has come back: the
    first reads [c.StatusCode] then, the second has a deferred [recover].
    [Handler] adds them to the bodies of [Prog].  The texts that they print
    hold the time spent and the call stack, which are not in the model:
    [line] gives the text of the logger for the context that it reads, and
    [report] is the text of the recovery. *)
Inductive Handler : Type :=
| Plain (p : Prog)
| Logger (line : Context → string)
| Recovery (report : string).

(** What the function does before the code that follows [c.Next()]. *)
Definition body (h : Handler) : HandlerFunc :=
  match h with
  | Plain p => p
  | Logger _ | Recovery _ => CallNext Return
  end.

(** One call [c.handlers[c.index](c)]; [handlers0] is [c.handlers], which
    [Fail] measures. *)
Definition run_handler (handlers0 : list HandlerFunc)
  (next : State → option outcome) (h : Handler) (s : State) : option outcome :=
  match h with
  | Plain p => run handlers0 next p s
  | Logger line =>
      match next s with
      | Some (Returned s') =>
          Some (Returned (emit (Log (line (ctx s'))) s'))
      | r => r
      end
  | Recovery report =>
      match next s with
      | Some (Panicked s') =>
          Some (Returned (Fail handlers0 500 "Internal Server Error"
                            (emit (Log report) s')))
      | r => r
      end
  end.

(** The loop of [Next] over a chain of [Handler]s. *)
Fixpoint Next_forH (fuel : nat) (hs : list Handler) (s : State)
  : option outcome :=
  match fuel with
  | O => None
  | S fuel' =>
      if decide (index (ctx s) < Z.of_nat (length hs))%Z then
        match (if decide (0 ≤ index (ctx s))%Z
               then hs !! Z.to_nat (index (ctx s)) else None) with
        | None => Some (Panicked s)
        | Some h =>
            match run_handler (body <$> hs)
                    (fun s1 => Next_forH fuel' hs (incr_index s1))
                    h (emit (Enter (index (ctx s))) s) with
            | Some (Returned s') => Next_forH fuel' hs (incr_index s')
            | r => r
            end
        end
      else Some (Returned s)
  end.

Definition NextH (hs : list Handler) (s : State) : option outcome :=
  Next_forH (S (length hs)) hs (incr_index s).

(** [router.handle] for a chain of [Handler]s. *)
Definition handleH (r : router) (hs : list Handler) (s : State)
  : option outcome :=
  match getRoute r (Method (ctx s)) (Path (ctx s)) with
  | Panic => Some (Panicked s)
  | Ok (Some (n, params)) =>
      let key := route_key (Method (ctx s)) (pattern n) in
      NextH (hs ++ [Plain (default Crash (handlers r !! key))]) (set_Params params s)
  | Ok None => NextH (hs ++ [Plain notFound]) s
  end.

(** ** The engine and its groups

    A [*RouterGroup] is the position of the group in [engine.groups]; the
    group embedded in the engine is the first one.  The field [printed]
    holds the arguments of the calls of [log.Printf] made while routes are
    added. *)
Record RouterGroup : Type := mkRouterGroup {
  prefix : string;
  middlewares : list Handler
}.

Record Engine : Type := mkEngine {
  engine_router : router;
  groups : list RouterGroup;
  printed : list (string * string)
}.

Definition New : Engine := mkEngine newRouter [mkRouterGroup "" []] [].

Definition Group (e : Engine) (group : nat) (prefix0 : string)
  : res (Engine * nat) :=
  g ← at_index (groups e) group;
  Ok (mkEngine (engine_router e)
        (groups e ++ [mkRouterGroup (prefix g +:+ prefix0) []]) (printed e),
      length (groups e)).

Definition Use (e : Engine) (group : nat) (middlewares0 : list Handler)
  : res Engine :=
  g ← at_index (groups e) group;
  Ok (mkEngine (engine_router e)
        (<[group := mkRouterGroup (prefix g) (middlewares g ++ middlewares0)]>
           (groups e))
        (printed e)).

(** [RouterGroup.addRoute]. *)
Definition group_addRoute (e : Engine) (group : nat) (method comp : string)
  (handler : HandlerFunc) : res Engine :=
  g ← at_index (groups e) group;
  let pattern0 := prefix g +:+ comp in
  r' ← addRoute (engine_router e) method pattern0 handler;
  Ok (mkEngine r' (groups e) (printed e ++ [(method, pattern0)])).

Definition GET (e : Engine) (group : nat) (pattern0 : string)
  (handler : HandlerFunc) : res Engine :=
  group_addRoute e group "GET" pattern0 handler.

Definition POST (e : Engine) (group : nat) (pattern0 : string)
  (handler : HandlerFunc) : res Engine :=
  group_addRoute e group "POST" pattern0 handler.

(** The loop of [ServeHTTP] over the groups. *)
Fixpoint ServeHTTP_range (gs : list RouterGroup) (path : string)
  (middlewares0 : list Handler) : list Handler :=
  match gs with
  | [] => middlewares0
  | group :: gs' =>
      ServeHTTP_range gs' path
        (if HasPrefix path (prefix group)
         then middlewares0 ++ middlewares group else middlewares0)
  end.

Definition ServeHTTP (e : Engine) (method path : string) : option outcome :=
  handleH (engine_router e) (ServeHTTP_range (groups e) path [])
    (newContext method path).

(** [onlyForG2] of the main program: it calls [Fail] at once, and prints a
    line afterwards (with the status code, which [Fail] has set, and the time
    spent). *)
Definition onlyForG2 (line : string) : HandlerFunc :=
  CallFail 500 "Internal Server Error" (Printf line Return).

(** * The vocabulary of the properties *)

(** A segment that starts with [:] or [*]. *)
Definition dyn (seg : string) : bool :=
  match seg with
  | EmptyString => false
  | String c0 _ => is_dyn_byte c0
  end.

(** What makes [matchChild] take a child for a part. *)
Definition takes (part0 : string) (c : node) : Prop :=
  part c = part0 ∨ (dyn part0 = true ∧ isWild c = true).

(** [insert] as a relation.

    [inserted pattern0 parts height n n'] describes the tree [n'] that
    [insert] builds from [n]: the three cases are the end of the parts, the
    descent into the child that [matchChild] returns, and the new child. *)

Inductive inserted (pattern0 : string) (parts : list string)
  : nat → node → node → Prop :=
| ins_end n :
    inserted pattern0 parts (length parts) n (set_pattern pattern0 n)
| ins_into height part0 n i child child' :
    parts !! height = Some part0 →
    children n !! i = Some child →
    takes part0 child →
    (∀ j c', j < i → children n !! j = Some c' → ¬ takes part0 c') →
    inserted pattern0 parts (S height) child child' →
    inserted pattern0 parts height n
      (set_children (<[i := child']> (children n)) n)
| ins_new height part0 n child' :
    parts !! height = Some part0 →
    (∀ c', c' ∈ children n → ¬ takes part0 c') →
    inserted pattern0 parts (S height) (mkNode "" part0 [] (dyn part0)) child' →
    inserted pattern0 parts height n
      (set_children (children n ++ [child']) n).

(** [at_path n labels n']: [n'] is the node reached from [n] through
    children whose parts are [labels], in order. *)
Inductive at_path : node → list string → node → Prop :=
| at_here n : at_path n [] n
| at_child n c labels n' :
    c ∈ children n → at_path c labels n' →
    at_path n (part c :: labels) n'.

(** [leads n segs n']: the request segments [segs] lead [search] from [n] to
    the terminal point [n']: the segments are used up, or [n'] is a [*] node;
    every step goes to a child that [matchChildren] returns. *)
Inductive leads : node → list string → node → Prop :=
| leads_end n : leads n [] n
| leads_star n segs : HasPrefix (part n) "*" = true → leads n segs n
| leads_step n c seg segs n' :
    HasPrefix (part n) "*" = false →
    c ∈ children n → part c = seg ∨ isWild c = true →
    leads c segs n' →
    leads n (seg :: segs) n'.

(** The parts of a pattern against the segments of a request: a literal part
    matches itself, a [:name] part one segment, a [*name] part the segments
    that remain, at least one. *)
Fixpoint pmatch (pparts sparts : list string) : bool :=
  match pparts, sparts with
  | [], [] => true
  | p :: pparts', seg :: sparts' =>
      if HasPrefix p "*" then true
      else (bool_decide (p = seg) || dyn p) && pmatch pparts' sparts'
  | _, _ => false
  end.

(** A part of a pattern and the part of the node that [insert] goes through
    for it: the same, or both dynamic. *)
Definition sim (p label : string) : Prop :=
  p = label ∨ (dyn p = true ∧ dyn label = true).

(** No segment is dynamic. *)
Definition static (parts : list string) : Prop :=
  Forall (λ seg, dyn seg = false) parts.

(** What the invariant says of one node [n] below the labels [pre], for the
    registered patterns [Ps]: the flag [isWild] says whether the part is
    dynamic; a stored pattern is registered and has gone through these
    labels; siblings have different parts; every child was made by a
    registered pattern. *)
Definition local (Ps : list string) (pre : list string) (n : node) : Prop :=
  isWild n = dyn (part n) ∧
  (pattern n ≠ "" →
     pattern n ∈ Ps ∧ Forall2 sim (parsePattern (pattern n)) pre) ∧
  NoDup (part <$> children n) ∧
  (∀ c, c ∈ children n →
     ∃ Q, Q ∈ Ps ∧
          Forall2 sim (take (length pre) (parsePattern Q)) pre ∧
          parsePattern Q !! length pre = Some (part c)).

(** The invariant of the subtree [n] below the labels [pre]. *)
Definition inv (Ps : list string) (pre : list string) (n : node) : Prop :=
  ∀ labels n', at_path n labels n' → local Ps (pre ++ labels) n'.

(** Every registered pattern with at least one part has its node. *)
Definition has_nodes (Ps : list string) (root : node) : Prop :=
  ∀ Q, Q ∈ Ps → parsePattern Q ≠ [] →
    ∃ labels n', Forall2 sim (parsePattern Q) labels ∧
                 at_path root labels n' ∧ pattern n' ≠ "".

(** The patterns registered for a method, oldest first. *)
Fixpoint patterns_of (method : string)
  (routes : list (string * string * HandlerFunc)) : list string :=
  match routes with
  | [] => []
  | (method', pattern0, _) :: routes' =>
      if decide (method' = method) then pattern0 :: patterns_of method routes'
      else patterns_of method routes'
  end.

(** What holds of a router after the registrations [routes]. *)
Definition router_inv (routes : list (string * string * HandlerFunc))
  (r : router) : Prop :=
  (∀ method pattern0 handler, (method, pattern0, handler) ∈ routes →
     is_Some (handlers r !! route_key method pattern0)) ∧
  (∀ method,
     match roots r !! method with
     | Some root =>
         part root = "" ∧
         inv (patterns_of method routes) [] root ∧
         has_nodes (patterns_of method routes) root
     | None => patterns_of method routes = []
     end).

(** The handlers still ahead of the cursor. *)
Definition remaining (handlers0 : list HandlerFunc) (s : State) : nat :=
  Z.to_nat (Z.of_nat (length handlers0) - index (ctx s)).

(** [straight p s = Some s']: from [s] the body [p] returns, in [s'],
    without calling [Next] or [Fail] and without a panic. *)
Fixpoint straight (p : Prog) (s : State) : option State :=
  match p with
  | Return => Some s
  | Crash => None
  | Printf msg k => straight k (emit (Log msg) s)
  | Update f k =>
      straight k (set_index (index (ctx s)) (mkState (f (ctx s)) (trace s)))
  | Branch b k1 k2 => if b (ctx s) then straight k1 s else straight k2 s
  | CallNext _ => None
  | CallFail _ _ _ => None
  | CallString code body k => straight k (Context_String code (body (ctx s)) s)
  | CallJSON code obj k => straight k (JSON code obj s)
  end.

(** No panic is written in the body. *)
Fixpoint no_crash (p : Prog) : bool :=
  match p with
  | Return => true
  | Crash => false
  | Printf _ k | Update _ k | CallNext k | CallFail _ _ k
  | CallString _ _ k | CallJSON _ _ k => no_crash k
  | Branch _ k1 k2 => no_crash k1 && no_crash k2
  end.

Definition is_Enter (e : event) : bool :=
  match e with
  | Enter _ => true
  | _ => false
  end.

(** A middleware that records [a], calls [Next] once, and records [b]. *)
Definition wrap (ab : string * string) : HandlerFunc :=
  Printf ab.1 (CallNext (Printf ab.2 Return)).

(** What the middlewares [ms], at the places [j], [j + 1], ... of the chain,
    record before their calls of [Next], and after them. *)
Fixpoint pre_phases (j : nat) (ms : list (string * string)) : list event :=
  match ms with
  | [] => []
  | ab :: ms' => Enter (Z.of_nat j) :: Log ab.1 :: pre_phases (S j) ms'
  end.

Definition post_phases (ms : list (string * string)) : list event :=
  (λ ab, Log ab.2) <$> reverse ms.

(** A [*] label can only be the last one. *)
Definition star_last (labels : list string) : Prop :=
  ∀ i label, labels !! i = Some label → HasPrefix label "*" = true →
             length labels = S i.

(** What [run] needs of [next]: below the bound [B] it ends, the cursor does
    not go back, and the trace only grows. *)
Definition next_ok (handlers0 : list HandlerFunc) (B : nat)
  (next : State → option outcome) : Prop :=
  ∀ s, remaining handlers0 s ≤ B →
    ∃ o, next s = Some o ∧
         remaining handlers0 (final o) ≤ remaining handlers0 s ∧
         trace s `prefix_of` trace (final o).

(** The cursor is at the end of the chain, or beyond. *)
Definition exhausted (handlers0 : list HandlerFunc) (s : State) : Prop :=
  (Z.of_nat (length handlers0) ≤ index (ctx s))%Z.






(** The byte [c] occurs in [s]. *)
Fixpoint has_byte (c : ascii) (s : string) : bool :=
  match s with
  | EmptyString => false
  | String c' s' => bool_decide (c' = c) || has_byte c s'
  end.

(** The patterns of the routes that [getRoutes] lists for a method, in the
    order of the list; none for a method without a tree. *)
Definition listed (r : router) (method : string) : list string :=
  pattern <$> default [] (getRoutes r method).

(** In the whole tree, a node has at most one wild child. *)
Inductive wild_tree : node → Prop :=
| wild_tree_intro n :
    (∀ i j ci cj, children n !! i = Some ci → children n !! j = Some cj →
                  isWild ci = true → isWild cj = true → i = j) →
    (∀ c, c ∈ children n → wild_tree c) →
    wild_tree n.

(** The handler of the last registration of a method and a pattern. *)
Fixpoint last_handler (method pattern0 : string)
  (routes : list (string * string * HandlerFunc)) : option HandlerFunc :=
  match routes with
  | [] => None
  | (method', pattern', handler) :: routes' =>
      match last_handler method pattern0 routes' with
      | Some h => Some h
      | None =>
          if decide (method' = method ∧ pattern' = pattern0)
          then Some handler else None
      end
  end.

(** The positions of the handlers that a trace enters, in order. *)
Definition enters (evs : list event) : list Z :=
  omap (λ e, match e with Enter i => Some i | _ => None end) evs.

(** The cursor, or the length of the chain when it is beyond. *)
Definition cap (handlers0 : list HandlerFunc) (s : State) : Z :=
  Z.min (index (ctx s)) (Z.of_nat (length handlers0)).

(** [ordered handlers0 strict s o]: from [s] to the outcome [o] the trace has
    grown, the cursor has not gone back, and the handlers entered meanwhile
    are entered in the order of the chain, each one once, from the cursor of
    [s] on (beyond it when [strict]). *)
Definition ordered (handlers0 : list HandlerFunc) (strict : bool)
  (s : State) (o : outcome) : Prop :=
  ∃ evs,
    trace (final o) = trace s ++ evs ∧
    (cap handlers0 s ≤ cap handlers0 (final o))%Z ∧
    StronglySorted Z.lt (enters evs) ∧
    Forall (λ i, ((if strict then cap handlers0 s < i else cap handlers0 s ≤ i) ∧
                  0 ≤ i ∧ i ≤ cap handlers0 (final o) ∧
                  i < Z.of_nat (length handlers0))%Z) (enters evs).

(** Neither a panic nor a call of [Fail] is written in the body. *)
Fixpoint calm (p : Prog) : bool :=
  match p with
  | Return => true
  | Crash => false
  | CallFail _ _ _ => false
  | Printf _ k | Update _ k | CallNext k
  | CallString _ _ k | CallJSON _ _ k => calm k
  | Branch _ k1 k2 => calm k1 && calm k2
  end.

(** A call of the set-up of a server, on the group at a position. *)
Inductive call : Type :=
| CallGroup (group : nat) (prefix0 : string)
| CallUse (group : nat) (middlewares0 : list Handler)
| CallGET (group : nat) (pattern0 : string) (handler : HandlerFunc)
| CallPOST (group : nat) (pattern0 : string) (handler : HandlerFunc).

(** The engine after a list of calls, oldest first. *)
Fixpoint setup (calls : list call) (e : Engine) : res Engine :=
  match calls with
  | [] => Ok e
  | c :: calls' =>
      e' ← match c with
           | CallGroup group prefix0 =>
               eg ← Group e group prefix0; Ok eg.1
           | CallUse group middlewares0 => Use e group middlewares0
           | CallGET group pattern0 handler => GET e group pattern0 handler
           | CallPOST group pattern0 handler => POST e group pattern0 handler
           end;
      setup calls' e'
  end.

(** What [run] needs of [next] for [ordered]: below the bound [B] it ends,
    in order. *)
Definition next_ordered (handlers0 : list HandlerFunc) (B : nat)
  (next : State → option outcome) : Prop :=
  ∀ s, remaining handlers0 s ≤ B →
    ∃ o, next s = Some o ∧ ordered handlers0 true s o.


(** What [run] needs of [next] when nothing stops the chain: below the
    bound [B] it returns, with the cursor at the end of the chain or beyond,
    after having entered all the handlers that were ahead. *)
Definition next_full (handlers0 : list HandlerFunc) (B : nat)
  (next : State → option outcome) : Prop :=
  ∀ s, (-1 ≤ index (ctx s))%Z → remaining handlers0 s ≤ B →
    ∃ s' evs,
      next s = Some (Returned s') ∧ trace s' = trace s ++ evs ∧
      (Z.of_nat (length handlers0) ≤ index (ctx s'))%Z ∧
      enters evs = seqZ (index (ctx s) + 1)
                     (Z.of_nat (length handlers0) - index (ctx s) - 1).

(** No panic is written in the handler. *)
Definition no_crashH (h : Handler) : bool :=
  match h with
  | Plain p => no_crash p
  | Logger _ | Recovery _ => true
  end.

(** No panic is written in the handlers that the call passes. *)
Definition call_calm (c : call) : bool :=
  match c with
  | CallGroup _ _ => true
  | CallUse _ middlewares0 => forallb no_crashH middlewares0
  | CallGET _ _ handler | CallPOST _ _ handler => no_crash handler
  end.

(** What the set-up keeps of an engine: the router is one that registrations
    build, and the first group has the empty prefix. *)
Definition engine_inv (e : Engine) : Prop :=
  (∃ routes, router_inv routes (engine_router e)) ∧
  (∃ g0, groups e !! 0 = Some g0 ∧ prefix g0 = "").

(** No panic is written in the handlers of the engine. *)
Definition engine_calm (e : Engine) : Prop :=
  (∀ key h, handlers (engine_router e) !! key = Some h → no_crash h = true) ∧
  Forall (λ g, Forall (λ h, no_crashH h = true) (middlewares g)) (groups e).

(** The groups of [e] are groups of [e'], at the same positions and with the
    same prefixes; their middlewares are still there, first. *)
Definition extends (e e' : Engine) : Prop :=
  ∀ i g, groups e !! i = Some g →
    ∃ g', groups e' !! i = Some g' ∧ prefix g' = prefix g ∧
          middlewares g `prefix_of` middlewares g'.

(** The log of the set-up and the table of handlers list the same routes,
    all of them under [GET] or [POST]. *)
Definition printed_inv (e : Engine) : Prop :=
  (∀ method pattern0, (method, pattern0) ∈ printed e →
     method = "GET" ∨ method = "POST") ∧
  (∀ key, is_Some (handlers (engine_router e) !! key) ↔
     ∃ method pattern0,
       (method, pattern0) ∈ printed e ∧ key = route_key method pattern0).

(** [silent_events lem evs0]: by the lemma [lem], the events [evs0], which
    enter no handler, come before the run that a hypothesis is about. *)
Ltac silent_events lem evs0 :=
  eapply (lem _ _ _ _ _ evs0); cycle 3;
    [eassumption
    |simpl; by rewrite <- ?app_assoc, ?app_nil_r
    |done
    |unfold cap; simpl; lia].

(** From [s] to the outcome [o] the trace has grown, and no handler behind
    the position [i] has been entered. *)
Definition entered_upto (i : Z) (s : State) (o : outcome) : Prop :=
  ∃ evs, trace (final o) = trace s ++ evs ∧
         Forall (λ e, (e ≤ i)%Z) (enters evs).

(* end of the vocabulary *)

(** * Properties *)

(** ** Segments *)

Lemma HasPrefix_star seg :
  HasPrefix seg "*" = true ↔ ∃ name, seg = String "*"%char name.
Proof.
  destruct seg as [|c0 name]; simpl.
  - split; [discriminate | intros [? ?]; discriminate].
  - rewrite andb_true_r, bool_decide_eq_true. split.
    + intros ->. eauto.
    + by intros [? [= -> _]].
Qed.

Lemma HasPrefix_star_dyn seg : HasPrefix seg "*" = true → dyn seg = true.
Proof. intros [name ->]%HasPrefix_star. reflexivity. Qed.

Lemma byte0_Ok seg : seg ≠ "" → ∃ c0, byte0 seg = Ok c0 ∧ dyn seg = is_dyn_byte c0.
Proof. destruct seg as [|c0 name]; [done|]. eauto. Qed.

Lemma parsePattern_range_nonempty vs :
  Forall (λ seg, seg ≠ "") (parsePattern_range vs).
Proof.
  induction vs as [|[|c0 name] vs IH]; simpl; [constructor | exact IH |].
  destruct (decide _); repeat constructor; done.
Qed.

Lemma parsePattern_nonempty pattern0 :
  Forall (λ seg, seg ≠ "") (parsePattern pattern0).
Proof. apply parsePattern_range_nonempty. Qed.

(** A [*] segment ends the list of parts. *)
Lemma parsePattern_range_star vs i seg :
  parsePattern_range vs !! i = Some seg →
  HasPrefix seg "*" = true →
  length (parsePattern_range vs) = S i.
Proof.
  revert i. induction vs as [|[|c0 name] vs IH]; intros i; simpl; [done | apply IH |].
  destruct (decide (c0 = "*"%char)) as [->|Hne].
  - destruct i as [|i]; [done|]. by destruct i.
  - destruct i as [|i]; simpl.
    + intros [= <-] Hs. apply andb_true_iff in Hs as [Hs _].
      by apply bool_decide_eq_true in Hs.
    + intros Hi Hs. f_equal. by apply IH.
Qed.

Lemma parsePattern_star pattern0 i seg :
  parsePattern pattern0 !! i = Some seg →
  HasPrefix seg "*" = true →
  length (parsePattern pattern0) = S i.
Proof. apply parsePattern_range_star. Qed.

Lemma parsePattern_empty : parsePattern "" = [].
Proof. reflexivity. Qed.

(** ** The recursive calls of [insert] and [search], unfolded *)

Lemma insert_eq n pattern0 parts height :
  insert n pattern0 parts height =
  if decide (length parts = height) then Ok (set_pattern pattern0 n)
  else match parts !! height with
       | None => Panic
       | Some part0 =>
           m ← matchChild n part0;
           match m with
           | Some (i, child) =>
               child' ← insert child pattern0 parts (S height);
               Ok (set_children (<[i := child']> (children n)) n)
           | None =>
               c0 ← byte0 part0;
               child' ← insert (mkNode "" part0 [] (is_dyn_byte c0))
                          pattern0 parts (S height);
               Ok (set_children (children n ++ [child']) n)
           end
       end.
Proof.
  rewrite insert_equation_1.
  destruct (decide _) as [H|H]; simpl; [reflexivity|].
  unfold inspect. destruct (parts !! height); reflexivity.
Qed.

Lemma search_eq n parts height :
  search n parts height =
  if decide (length parts = height ∨ HasPrefix (part n) "*" = true)
  then Ok (if decide (pattern n = "") then None else Some n)
  else match parts !! height with
       | None => Panic
       | Some part0 =>
           search_range (fun child => search child parts (S height))
             (matchChildren n part0)
       end.
Proof.
  rewrite search_equation_1.
  destruct (decide _) as [H|H]; simpl; [reflexivity|].
  unfold inspect. destruct (parts !! height); reflexivity.
Qed.

(** Induction on the levels that remain below [height]. *)
Lemma height_ind (len : nat) (Q : nat → Prop) :
  (∀ h, h ≤ len → (∀ h', h < h' → h' ≤ len → Q h') → Q h) →
  ∀ h, h ≤ len → Q h.
Proof.
  intros Hstep h Hh.
  remember (len - h) as k eqn:Hk.
  revert h Hh Hk. induction (lt_wf k) as [k _ IH]. intros h Hh ->.
  apply Hstep; [done|]. intros h' Hlt Hle.
  apply (IH (len - h')); [lia | done | done].
Qed.

(** ** [matchChild] and [matchChildren] *)

Lemma matchChild_range_spec cs part0 :
  part0 ≠ "" →
  ∃ m, matchChild_range cs part0 = Ok m ∧
    match m with
    | Some (i, c) =>
        cs !! i = Some c ∧ takes part0 c ∧
        ∀ j c', j < i → cs !! j = Some c' → ¬ takes part0 c'
    | None => ∀ c', c' ∈ cs → ¬ takes part0 c'
    end.
Proof.
  intros Hne. destruct (byte0_Ok part0 Hne) as (c0 & Hc0 & Hdyn).
  induction cs as [|child cs IH]; simpl.
  - eexists; split; [reflexivity|]. intros c' Hc'. by apply elem_of_nil in Hc'.
  - destruct (decide (part child = part0)) as [Heq|Hneq].
    { eexists; split; [reflexivity|]. split; [done|]. split; [by left|]. lia. }
    rewrite Hc0; simpl.
    destruct (is_dyn_byte c0 && isWild child) eqn:Hw.
    { apply andb_true_iff in Hw as [Hw1 Hw2].
      eexists; split; [reflexivity|]. split; [done|].
      split; [right; by rewrite Hdyn|]. lia. }
    assert (¬ takes part0 child) as Hno.
    { intros [?|[H1 H2]]; [done|]. rewrite Hdyn in H1. by rewrite H1, H2 in Hw. }
    destruct IH as (m & -> & Hm); simpl.
    destruct m as [[i c]|].
    + eexists; split; [reflexivity|]. destruct Hm as (Hi & Ht & Hfirst).
      split; [done|]. split; [done|].
      intros [|j] c' Hj; simpl; [by intros [= <-]|].
      intros Hc'. apply (Hfirst j); [lia | done].
    + eexists; split; [reflexivity|].
      intros c' [->|Hc']%elem_of_cons; [done | by apply Hm].
Qed.

Lemma matchChildren_range_filter cs part0 :
  matchChildren_range cs part0 =
  (filter (λ c, part c = part0) cs,
   filter (λ c, part c ≠ part0 ∧ isWild c = true) cs).
Proof.
  induction cs as [|child cs IH]; simpl; [done|].
  rewrite IH, !filter_cons.
  destruct (decide (part child = part0)) as [Heq|Hneq].
  - rewrite decide_False by tauto. done.
  - destruct (isWild child) eqn:Hw.
    + rewrite decide_True by done. done.
    + rewrite decide_False by (intros [_ ?]; done). done.
Qed.

Lemma matchChildren_filter n part0 :
  matchChildren n part0 =
  filter (λ c, part c = part0) (children n) ++
  filter (λ c, part c ≠ part0 ∧ isWild c = true) (children n).
Proof. unfold matchChildren. by rewrite matchChildren_range_filter. Qed.

Lemma elem_of_matchChildren n part0 c :
  c ∈ matchChildren n part0 ↔
  c ∈ children n ∧ (part c = part0 ∨ isWild c = true).
Proof.
  rewrite matchChildren_filter, elem_of_app, !list_elem_of_filter.
  destruct (decide (part c = part0)); tauto.
Qed.

(** ** The loop of [search] *)

Lemma search_range_Some f cs r :
  search_range f cs = Ok (Some r) → ∃ c, c ∈ cs ∧ f c = Ok (Some r).
Proof.
  induction cs as [|child cs IH]; simpl; [done|].
  destruct (f child) as [[r'|]|] eqn:Hf; simpl; [| |done].
  - intros [= <-]. exists child. split; [left | done].
  - intros (c & Hc & Hfc)%IH. exists c. split; [by right | done].
Qed.

Lemma search_range_None f cs :
  search_range f cs = Ok None ↔ ∀ c, c ∈ cs → f c = Ok None.
Proof.
  induction cs as [|child cs IH]; simpl.
  - split; [|done]. intros _ c Hc. by apply elem_of_nil in Hc.
  - destruct (f child) as [[r'|]|] eqn:Hf; simpl.
    + split; [done|]. intros H. specialize (H child (list_elem_of_here _ _)). congruence.
    + rewrite IH. split.
      * intros H c [->|Hc]%elem_of_cons; [done | by apply H].
      * intros H c Hc. apply H. by right.
    + split; [done|]. intros H. specialize (H child (list_elem_of_here _ _)). congruence.
Qed.

Lemma search_range_total f cs :
  (∀ c, c ∈ cs → ∃ o, f c = Ok o) → ∃ o, search_range f cs = Ok o.
Proof.
  induction cs as [|child cs IH]; simpl; intros Hf; [eauto|].
  destruct (Hf child (list_elem_of_here _ _)) as [[r|] ->]; simpl; [eauto|].
  apply IH. intros c Hc. apply Hf. by right.
Qed.

(** [search] indexes [parts] within bounds. *)
Lemma search_total parts : ∀ height, height ≤ length parts →
  ∀ n, ∃ o, search n parts height = Ok o.
Proof.
  apply (height_ind (length parts) (λ h, ∀ n, ∃ o, search n parts h = Ok o)).
  intros h Hh IH n. rewrite search_eq.
  destruct (decide _) as [_|Hnot]; [eauto|].
  destruct (parts !! h) as [part0|] eqn:Hp.
  - apply search_range_total. intros c _.
    apply lookup_lt_Some in Hp. apply IH; lia.
  - apply lookup_ge_None in Hp. exfalso. apply Hnot. left. lia.
Qed.

Lemma lookup_nonempty (parts : list string) i seg :
  Forall (λ seg, seg ≠ "") parts → parts !! i = Some seg → seg ≠ "".
Proof. intros H Hi. by eapply (proj1 (Forall_lookup _ _) H). Qed.

(** [insert] never panics on parts without an empty segment, and builds the
    tree that [inserted] describes. *)
Lemma insert_inserted pattern0 parts :
  Forall (λ seg, seg ≠ "") parts →
  ∀ height, height ≤ length parts →
  ∀ n, ∃ n', insert n pattern0 parts height = Ok n' ∧
             inserted pattern0 parts height n n'.
Proof.
  intros Hparts.
  apply (height_ind (length parts)
           (λ h, ∀ n, ∃ n', insert n pattern0 parts h = Ok n' ∧
                            inserted pattern0 parts h n n')).
  intros h Hh IH n. rewrite insert_eq.
  destruct (decide (length parts = h)) as [<-|Hne].
  { eexists; split; [reflexivity | constructor]. }
  destruct (parts !! h) as [part0|] eqn:Hp;
    [|apply lookup_ge_None in Hp; lia].
  assert (part0 ≠ "") as Hpart0 by (by eapply lookup_nonempty).
  destruct (matchChild_range_spec (children n) part0 Hpart0) as (m & Hm & Hspec).
  unfold matchChild. rewrite Hm; simpl.
  destruct m as [[i child]|].
  - destruct Hspec as (Hi & Ht & Hfirst).
    destruct (IH (S h) ltac:(lia) ltac:(lia) child) as (child' & -> & Hins); simpl.
    eexists; split; [reflexivity|]. by eapply ins_into.
  - destruct (byte0_Ok part0 Hpart0) as (c0 & -> & Hdyn); simpl.
    rewrite <- Hdyn.
    destruct (IH (S h) ltac:(lia) ltac:(lia) (mkNode "" part0 [] (dyn part0)))
      as (child' & -> & Hins); simpl.
    eexists; split; [reflexivity|]. by eapply ins_new.
Qed.

Lemma inserted_part pattern0 parts height n n' :
  inserted pattern0 parts height n n' →
  part n' = part n ∧ isWild n' = isWild n.
Proof. by destruct 1. Qed.

Lemma takes_inserted pattern0 parts height part0 c c' :
  inserted pattern0 parts height c c' → takes part0 c' ↔ takes part0 c.
Proof.
  intros [Hp Hw]%inserted_part. unfold takes. by rewrite Hp, Hw.
Qed.

(** The child that [matchChild] returns is the first one that [takes] the
    part. *)
Lemma matchChild_range_first cs part0 i c :
  part0 ≠ "" →
  cs !! i = Some c → takes part0 c →
  (∀ j c', j < i → cs !! j = Some c' → ¬ takes part0 c') →
  matchChild_range cs part0 = Ok (Some (i, c)).
Proof.
  intros Hne Hi Ht Hfirst.
  destruct (matchChild_range_spec cs part0 Hne) as (m & -> & Hspec).
  destruct m as [[i' c']|].
  - destruct Hspec as (Hi' & Ht' & Hfirst').
    destruct (lt_eq_lt_dec i i') as [[Hlt | ->] | Hgt].
    + by destruct (Hfirst' i c Hlt Hi).
    + congruence.
    + by destruct (Hfirst i' c' Hgt Hi').
  - destruct (Hspec c); [|done]. by eapply list_elem_of_lookup_2.
Qed.

(** Inserting the same pattern again changes nothing. *)
Lemma inserted_again pattern0 parts height n n' :
  Forall (λ seg, seg ≠ "") parts →
  inserted pattern0 parts height n n' →
  insert n' pattern0 parts height = Ok n'.
Proof.
  intros Hparts. induction 1 as
    [n|h part0 n i child child' Hp Hi Ht Hfirst Hins IH
      |h part0 n child' Hp Hnone Hins IH]; rewrite insert_eq.
  - by rewrite decide_True by done.
  - assert (part0 ≠ "") as Hpart0 by (by eapply lookup_nonempty).
    pose proof (lookup_lt_Some _ _ _ Hp) as Hlt.
    pose proof (lookup_lt_Some _ _ _ Hi) as Hlti.
    rewrite decide_False by lia. rewrite Hp.
    unfold matchChild; simpl.
    rewrite (matchChild_range_first _ part0 i child'); simpl.
    + rewrite IH; simpl. unfold set_children; simpl.
      by rewrite list_insert_insert_eq.
    + done.
    + by rewrite list_lookup_insert_eq.
    + by eapply takes_inserted.
    + intros j c' Hj. rewrite list_lookup_insert_ne by lia. by apply Hfirst.
  - assert (part0 ≠ "") as Hpart0 by (by eapply lookup_nonempty).
    pose proof (lookup_lt_Some _ _ _ Hp) as Hlt.
    rewrite decide_False by lia. rewrite Hp.
    unfold matchChild; simpl.
    rewrite (matchChild_range_first _ part0 (length (children n)) child'); simpl.
    + rewrite IH; simpl. unfold set_children; simpl.
      rewrite insert_app_r_alt by lia. by rewrite Nat.sub_diag.
    + done.
    + rewrite lookup_app_r by lia. by rewrite Nat.sub_diag.
    + eapply takes_inserted; [done|]. by left.
    + intros j c' Hj. rewrite lookup_app_l by lia.
      intros Hc'. apply Hnone. by eapply list_elem_of_lookup_2.
Qed.

(** ** [search] and the nodes the segments lead to *)

Lemma search_leads parts : ∀ height, height ≤ length parts →
  ∀ n n', search n parts height = Ok (Some n') →
          leads n (drop height parts) n' ∧ pattern n' ≠ "".
Proof.
  apply (height_ind (length parts)
           (λ h, ∀ n n', search n parts h = Ok (Some n') →
                         leads n (drop h parts) n' ∧ pattern n' ≠ "")).
  intros h Hh IH n n'. rewrite search_eq.
  destruct (decide _) as [Hterm|Hnot].
  - destruct (decide (pattern n = "")) as [|Hpat]; [done|].
    intros [= <-]. split; [|done].
    destruct Hterm as [<-|Hstar]; [|by apply leads_star].
    rewrite drop_all. apply leads_end.
  - destruct (parts !! h) as [part0|] eqn:Hp; [|done].
    intros (c & [Hc Hm]%elem_of_matchChildren & Hs)%search_range_Some.
    pose proof (lookup_lt_Some _ _ _ Hp) as Hlt.
    apply IH in Hs as [Hl Hpat]; [|lia..].
    split; [|done]. rewrite (drop_S _ _ _ Hp).
    eapply leads_step; [|done..].
    destruct (HasPrefix (part n) "*") eqn:E; [|done]. destruct Hnot. by right.
Qed.

Lemma leads_search parts : ∀ height, height ≤ length parts →
  ∀ n n', leads n (drop height parts) n' → pattern n' ≠ "" →
          ∃ n'', search n parts height = Ok (Some n'').
Proof.
  apply (height_ind (length parts)
           (λ h, ∀ n n', leads n (drop h parts) n' → pattern n' ≠ "" →
                         ∃ n'', search n parts h = Ok (Some n''))).
  intros h Hh IH n n' Hl Hpat. rewrite search_eq.
  destruct (decide _) as [Hterm|Hnot].
  - assert (n' = n) as ->.
    { destruct Hterm as [<-|Hstar].
      - rewrite drop_all in Hl. inversion Hl; by subst.
      - inversion Hl; subst; [done..|congruence]. }
    rewrite decide_False by done. eauto.
  - destruct (parts !! h) as [part0|] eqn:Hp;
      [|apply lookup_ge_None in Hp; destruct Hnot; left; lia].
    pose proof (lookup_lt_Some _ _ _ Hp) as Hlt.
    rewrite (drop_S _ _ _ Hp) in Hl.
    inversion Hl as [|? ? Hstar|? c ? ? ? _ Hc Hm Hl']; subst.
    { destruct Hnot. by right. }
    destruct (IH (S h) ltac:(lia) ltac:(lia) c n' Hl' Hpat) as [n'' Hn''].
    destruct (search_range_total (λ child, search child parts (S h))
                (matchChildren n part0)) as [[r|] Hr].
    + intros c' _. apply search_total. lia.
    + eauto.
    + rewrite search_range_None in Hr.
      rewrite Hr in Hn''; [done|]. by apply elem_of_matchChildren.
Qed.

(** [search] finds nothing exactly when every terminal point the segments lead
    to holds the empty pattern. *)
Lemma search_None_iff parts height n :
  height ≤ length parts →
  search n parts height = Ok None ↔
  ∀ n', leads n (drop height parts) n' → pattern n' = "".
Proof.
  intros Hh. split.
  - intros Hs n' Hl. destruct (decide (pattern n' = "")) as [|Hpat]; [done|].
    destruct (leads_search parts height Hh n n' Hl Hpat) as [n'' Hn''].
    congruence.
  - intros Hall. destruct (search_total parts height Hh n) as [[n'|] Hs]; [|done].
    apply search_leads in Hs as [Hl Hpat]; [|done]. by destruct (Hpat (Hall _ Hl)).
Qed.

(** ** Paths of the trie *)

Lemma at_path_inv n labels n' :
  at_path n labels n' →
  (labels = [] ∧ n' = n) ∨
  ∃ c labels', labels = part c :: labels' ∧ c ∈ children n ∧
               at_path c labels' n'.
Proof. destruct 1; [by left | right; eauto]. Qed.

Lemma at_path_length_leads n segs n' :
  leads n segs n' → ∃ labels, at_path n labels n' ∧ length labels ≤ length segs.
Proof.
  induction 1 as [n|n segs _|n c seg segs n' _ Hc _ _ (labels & IH & Hlen)].
  - exists []. split; [constructor | done].
  - exists []. split; [constructor | simpl; lia].
  - exists (part c :: labels). split; [by constructor | simpl; lia].
Qed.

Lemma elem_of_list_insert_inv {A} (l : list A) i x y :
  y ∈ <[i := x]> l → y = x ∨ y ∈ l.
Proof.
  intros [j Hj]%list_elem_of_lookup.
  destruct (decide (i = j)) as [->|Hne].
  - destruct (decide (j < length l)).
    + rewrite list_lookup_insert_eq in Hj by done. left. congruence.
    + rewrite list_insert_ge in Hj by lia. right. by eapply list_elem_of_lookup_2.
  - rewrite list_lookup_insert_ne in Hj by done.
    right. by eapply list_elem_of_lookup_2.
Qed.

Lemma elem_of_list_insert_new {A} (l : list A) i x y :
  l !! i = Some y → x ∈ <[i := x]> l.
Proof.
  intros Hi%lookup_lt_Some. eapply list_elem_of_lookup_2.
  by apply list_lookup_insert_eq.
Qed.

Lemma elem_of_list_insert_old {A} (l : list A) i j x y :
  l !! j = Some y → i ≠ j → y ∈ <[i := x]> l.
Proof.
  intros Hj Hne. eapply list_elem_of_lookup_2.
  by rewrite list_lookup_insert_ne.
Qed.

(** ** What [insert] keeps *)

(** The nodes of the tree stay where they are; the only pattern that changes
    is the one at the end of the inserted parts. *)
Lemma inserted_at_path pattern0 parts height n n2 :
  inserted pattern0 parts height n n2 →
  ∀ labels n', at_path n labels n' →
    ∃ n2', at_path n2 labels n2' ∧
           (pattern n2' = pattern n' ∨
            (pattern n2' = pattern0 ∧ height + length labels = length parts)).
Proof.
  induction 1 as
    [n|h part0 n i child child' Hp Hi Ht Hfirst Hins IH
      |h part0 n child' Hp Hnone Hins IH]; intros labels n' Hat.
  - destruct (at_path_inv _ _ _ Hat) as [[-> ->]|(c & labels' & -> & Hc & Hat')].
    + eexists. split; [constructor|]. right. simpl. split; [done | lia].
    + exists n'. split; [|by left]. by apply at_child.
  - destruct (at_path_inv _ _ _ Hat) as [[-> ->]|(c & labels' & -> & Hc & Hat')].
    + eexists. split; [constructor|]. by left.
    + apply list_elem_of_lookup in Hc as [j Hj].
      destruct (decide (i = j)) as [<-|Hne].
      * assert (c = child) as -> by congruence.
        destruct (IH _ _ Hat') as (n2' & Hat2 & Hpat).
        exists n2'. split.
        -- rewrite <- (proj1 (inserted_part _ _ _ _ _ Hins)).
           apply at_child; [|done]. simpl. by eapply elem_of_list_insert_new.
        -- destruct Hpat as [?|[? ?]]; [by left|]. right. split; [done|].
           simpl. lia.
      * exists n'. split; [|by left]. apply at_child; [|done].
        simpl. by eapply elem_of_list_insert_old.
  - destruct (at_path_inv _ _ _ Hat) as [[-> ->]|(c & labels' & -> & Hc & Hat')].
    + eexists. split; [constructor|]. by left.
    + exists n'. split; [|by left]. apply at_child; [|done].
      simpl. apply elem_of_app. by left.
Qed.

(** ** The invariant of the trie *)

Lemma local_intro Ps pre n :
  isWild n = dyn (part n) →
  (pattern n ≠ "" →
     pattern n ∈ Ps ∧ Forall2 sim (parsePattern (pattern n)) pre) →
  NoDup (part <$> children n) →
  (∀ c, c ∈ children n →
     ∃ Q, Q ∈ Ps ∧
          Forall2 sim (take (length pre) (parsePattern Q)) pre ∧
          parsePattern Q !! length pre = Some (part c)) →
  local Ps pre n.
Proof. intros H1 H2 H3 H4. exact (conj H1 (conj H2 (conj H3 H4))). Qed.

Lemma local_weaken Ps Ps' pre n :
  (∀ Q, Q ∈ Ps → Q ∈ Ps') → local Ps pre n → local Ps' pre n.
Proof.
  intros Hsub (Hflag & Hpat & Hnd & Hmade). apply local_intro; [done| |done|].
  - intros Hne. split; [apply Hsub|]; by apply Hpat.
  - intros c Hc. destruct (Hmade c Hc) as (Q & HQ & Hsim & HQc). eauto.
Qed.

Lemma inv_child Ps pre n c :
  inv Ps pre n → c ∈ children n → inv Ps (pre ++ [part c]) c.
Proof.
  intros Hinv Hc labels n' Hat. rewrite <- app_assoc. simpl.
  apply Hinv. by apply at_child.
Qed.

Lemma inv_local Ps pre n : inv Ps pre n → local Ps pre n.
Proof. intros Hinv. rewrite <- (app_nil_r pre). apply Hinv. constructor. Qed.

Lemma inv_fresh Ps pre part0 : inv Ps pre (mkNode "" part0 [] (dyn part0)).
Proof.
  intros labels n' Hat.
  destruct (at_path_inv _ _ _ Hat) as [[-> ->]|(c & ? & _ & Hc & _)].
  - split; [done|]. split; [intros H; by destruct H|].
    split; [constructor|]. intros c Hc. by apply elem_of_nil in Hc.
  - by apply elem_of_nil in Hc.
Qed.

(** The child that takes a part has a part that is [sim] to it. *)
Lemma takes_sim Ps pre part0 c :
  local Ps pre c → takes part0 c → sim part0 (part c).
Proof.
  intros (Hflag & _) [<-|[Hd Hw]]; [by left|].
  right. split; [done|]. by rewrite <- Hflag.
Qed.

Lemma Forall2_sim_snoc parts height part0 pre label :
  length pre = height →
  parts !! height = Some part0 →
  Forall2 sim (take height parts) pre → sim part0 label →
  Forall2 sim (take (S height) parts) (pre ++ [label]).
Proof.
  intros Hlen Hp Hpre Hs. rewrite (take_S_r _ _ _ Hp).
  apply Forall2_app; [done|]. constructor; [done | constructor].
Qed.

(** [insert] keeps the invariant. *)
Lemma inserted_inv Ps pattern0 height n n2 :
  inserted pattern0 (parsePattern pattern0) height n n2 →
  ∀ pre, length pre = height →
    Forall2 sim (take height (parsePattern pattern0)) pre →
    inv Ps pre n → inv (Ps ++ [pattern0]) pre n2.
Proof.
  assert (∀ Q, Q ∈ Ps → Q ∈ Ps ++ [pattern0]) as Hsub.
  { intros Q HQ. apply elem_of_app. by left. }
  induction 1 as
    [n|h part0 n i child child' Hp Hi Ht Hfirst Hins IH
      |h part0 n child' Hp Hnone Hins IH];
    intros pre Hlen Hpre Hinv labels n' Hat.
  - rewrite firstn_all in Hpre.
    destruct (at_path_inv _ _ _ Hat) as [[-> ->]|(c & labels' & -> & Hc & Hat')].
    + destruct (inv_local _ _ _ Hinv) as (Hflag & _ & Hnd & Hmade).
      rewrite app_nil_r. apply local_intro; simpl; [done| |done|].
      * intros _. split; [|done].
        apply elem_of_app. right. by apply list_elem_of_singleton.
      * intros c Hc. destruct (Hmade c Hc) as (Q & HQ & ?). eauto.
    + eapply local_weaken; [done|]. apply Hinv. by apply at_child.
  - pose proof (inv_local _ _ _ Hinv) as Hloc.
    destruct (inserted_part _ _ _ _ _ Hins) as [Hpart Hwild].
    assert (child ∈ children n) as Hchild by (by eapply list_elem_of_lookup_2).
    assert (part <$> <[i:=child']> (children n) = part <$> children n) as Hlabels.
    { rewrite list_fmap_insert, Hpart. apply list_insert_id.
      by rewrite list_lookup_fmap, Hi. }
    destruct (at_path_inv _ _ _ Hat) as [[-> ->]|(c & labels' & -> & Hc & Hat')].
    + destruct Hloc as (Hflag & Hpat & Hnd & Hmade).
      rewrite app_nil_r. apply local_intro; simpl; [done| | |].
      * intros Hne. split; [apply Hsub|]; by apply Hpat.
      * by rewrite Hlabels.
      * intros c Hc.
        assert (part c ∈ part <$> children n) as Hin.
        { rewrite <- Hlabels. by apply list_elem_of_fmap_2. }
        apply list_elem_of_fmap in Hin as (c0 & -> & Hc0).
        destruct (Hmade c0 Hc0) as (Q & HQ & ?). eauto.
    + simpl in Hc. apply elem_of_list_insert_inv in Hc as [->|Hc].
      * replace (pre ++ part child' :: labels')
          with ((pre ++ [part child]) ++ labels')
          by (by rewrite <- app_assoc, Hpart).
        apply IH; [by rewrite length_app; simpl; lia | | by eapply inv_child | done].
        eapply Forall2_sim_snoc; [done..|].
        eapply takes_sim; [|done]. eapply inv_local. by eapply inv_child.
      * eapply local_weaken; [done|]. apply Hinv. by apply at_child.
  - pose proof (inv_local _ _ _ Hinv) as Hloc.
    destruct (inserted_part _ _ _ _ _ Hins) as [Hpart Hwild]. simpl in Hpart.
    destruct (at_path_inv _ _ _ Hat) as [[-> ->]|(c & labels' & -> & Hc & Hat')].
    + destruct Hloc as (Hflag & Hpat & Hnd & Hmade).
      rewrite app_nil_r. apply local_intro; simpl; [done| | |].
      * intros Hne. split; [apply Hsub|]; by apply Hpat.
      * rewrite fmap_app. simpl. apply NoDup_app. split; [done|]. split.
        -- intros label (c & -> & Hc)%list_elem_of_fmap Hin.
           apply list_elem_of_singleton in Hin.
           apply (Hnone c Hc). left. congruence.
        -- apply NoDup_singleton.
      * intros c [Hc|Hc]%elem_of_app.
        -- destruct (Hmade c Hc) as (Q & HQ & ?). eauto.
        -- apply list_elem_of_singleton in Hc as ->.
           exists pattern0. split; [|by rewrite Hpart, Hlen].
           apply elem_of_app. right. by apply list_elem_of_singleton.
    + simpl in Hc. apply elem_of_app in Hc as [Hc|Hc].
      * eapply local_weaken; [done|]. apply Hinv. by apply at_child.
      * apply list_elem_of_singleton in Hc as ->.
        replace (pre ++ part child' :: labels')
          with ((pre ++ [part0]) ++ labels')
          by (by rewrite <- app_assoc, Hpart).
        apply IH; [by rewrite length_app; simpl; lia | | apply inv_fresh | done].
        eapply Forall2_sim_snoc; [done..|]. by left.
Qed.

(** The node where the inserted pattern ends. *)
Lemma inserted_end Ps pattern0 parts height n n2 :
  inserted pattern0 parts height n n2 →
  ∀ pre, inv Ps pre n →
    ∃ labels n2', Forall2 sim (drop height parts) labels ∧
                  at_path n2 labels n2' ∧ pattern n2' = pattern0.
Proof.
  induction 1 as
    [n|h part0 n i child child' Hp Hi Ht Hfirst Hins IH
      |h part0 n child' Hp Hnone Hins IH]; intros pre Hinv.
  - exists [], (set_pattern pattern0 n). rewrite drop_all.
    split; [constructor|]. split; [constructor | done].
  - assert (child ∈ children n) as Hchild by (by eapply list_elem_of_lookup_2).
    destruct (IH _ (inv_child _ _ _ _ Hinv Hchild)) as (labels & n2' & Hsim & Hat & Hpat).
    destruct (inserted_part _ _ _ _ _ Hins) as [Hpart Hwild].
    exists (part child' :: labels), n2'. rewrite (drop_S _ _ _ Hp).
    split; [|split; [|done]].
    + constructor; [|done]. rewrite Hpart.
      eapply takes_sim; [|done]. eapply inv_local. by eapply inv_child.
    + apply at_child; [|done]. simpl. by eapply elem_of_list_insert_new.
  - destruct (IH (pre ++ [part0]) (inv_fresh _ _ _)) as (labels & n2' & Hsim & Hat & Hpat).
    destruct (inserted_part _ _ _ _ _ Hins) as [Hpart Hwild]. simpl in Hpart.
    exists (part child' :: labels), n2'. rewrite (drop_S _ _ _ Hp).
    split; [|split; [|done]].
    + constructor; [|done]. rewrite Hpart. by left.
    + apply at_child; [|done]. simpl. apply elem_of_app. right.
      by apply list_elem_of_singleton.
Qed.

(** [insert] keeps the nodes of the registered patterns. *)
Lemma inserted_has_nodes Ps pattern0 n n2 :
  inserted pattern0 (parsePattern pattern0) 0 n n2 →
  inv Ps [] n → has_nodes Ps n →
  has_nodes (Ps ++ [pattern0]) n2.
Proof.
  intros Hins Hinv Hhas Q [HQ|HQ]%elem_of_app HQparts.
  - destruct (Hhas Q HQ HQparts) as (labels & n' & Hsim & Hat & Hpat).
    destruct (inserted_at_path _ _ _ _ _ Hins _ _ Hat) as (n2' & Hat2 & Hcase).
    exists labels, n2'. split; [done|]. split; [done|].
    destruct Hcase as [->|[-> Hlen]]; [done|].
    intros ->. simpl in Hlen.
    apply Forall2_length in Hsim. rewrite Hlen in Hsim.
    by destruct (parsePattern Q).
  - apply list_elem_of_singleton in HQ as ->.
    destruct (inserted_end _ _ _ _ _ _ Hins _ Hinv) as (labels & n2' & Hsim & Hat & Hpat).
    exists labels, n2'. rewrite drop_0 in Hsim. split; [done|]. split; [done|].
    rewrite Hpat. intros ->. by rewrite parsePattern_empty in HQparts.
Qed.

(** ** The invariant of the router *)

Lemma patterns_of_app method routes1 routes2 :
  patterns_of method (routes1 ++ routes2) =
  patterns_of method routes1 ++ patterns_of method routes2.
Proof.
  induction routes1 as [|[[method' pattern0] handler] routes1 IH]; simpl; [done|].
  destruct (decide _); by rewrite IH.
Qed.

Lemma elem_of_patterns_of method pattern0 routes :
  pattern0 ∈ patterns_of method routes ↔
  ∃ handler, (method, pattern0, handler) ∈ routes.
Proof.
  induction routes as [|[[method' pattern'] handler'] routes IH]; simpl.
  - split; [by intros ?%elem_of_nil | by intros [? ?%elem_of_nil]].
  - destruct (decide (method' = method)) as [->|Hne].
    + rewrite elem_of_cons, IH. split.
      * intros [->|[handler Hin]]; [exists handler'; left | exists handler; by right].
      * intros [handler [[= -> ->]|Hin]%elem_of_cons]; [by left | right; eauto].
    + rewrite IH. split.
      * intros [handler Hin]. exists handler. by right.
      * intros [handler [[= ? ?]|Hin]%elem_of_cons]; [done | eauto].
Qed.

Lemma router_inv_new : router_inv [] newRouter.
Proof.
  split.
  - by intros ? ? ? ?%elem_of_nil.
  - intros method. simpl. by rewrite lookup_empty.
Qed.

Lemma inv_root Ps : inv Ps [] (mkNode "" "" [] false).
Proof. apply (inv_fresh Ps [] ""). Qed.

(** [addRoute] never panics and keeps the invariant. *)
Lemma addRoute_inv routes r method pattern0 handler :
  router_inv routes r →
  ∃ r', addRoute r method pattern0 handler = Ok r' ∧
        router_inv (routes ++ [(method, pattern0, handler)]) r' ∧
        handlers r' = <[route_key method pattern0 := handler]> (handlers r) ∧
        ∃ root', roots r' = <[method := root']> (roots r) ∧
          inserted pattern0 (parsePattern pattern0) 0
            (default (mkNode "" "" [] false) (roots r !! method)) root'.
Proof.
  intros [Hhandlers Hroots]. unfold addRoute.
  destruct (insert_inserted pattern0 (parsePattern pattern0)
              (parsePattern_nonempty _) 0 ltac:(lia)
              (default (mkNode "" "" [] false) (roots r !! method)))
    as (root' & -> & Hins); simpl.
  eexists. split; [reflexivity|]. split; [|split; [done|by eauto]].
  split; simpl.
  - intros method1 pattern1 handler1 [Hin|Hin]%elem_of_app.
    + destruct (decide (route_key method pattern0 = route_key method1 pattern1))
        as [->|Hne].
      * rewrite lookup_insert_eq. eauto.
      * rewrite lookup_insert_ne by done. by eapply Hhandlers.
    + apply list_elem_of_singleton in Hin as [= -> -> ->].
      rewrite lookup_insert_eq. eauto.
  - intros method1. rewrite patterns_of_app. simpl.
    destruct (decide (method = method1)) as [<-|Hne].
    + rewrite lookup_insert_eq. specialize (Hroots method).
      destruct (inserted_part _ _ _ _ _ Hins) as [Hpart _].
      destruct (roots r !! method) as [root|] eqn:Hroot; simpl in *.
      * destruct Hroots as (Hp & Hinv & Hhas). split; [congruence|]. split.
        -- by eapply inserted_inv.
        -- by eapply inserted_has_nodes.
      * rewrite Hroots. split; [done|]. split.
        -- eapply (inserted_inv []); [done..|]. apply inv_root.
        -- eapply (inserted_has_nodes []); [done | apply inv_root |].
           by intros ? ?%elem_of_nil.
    + rewrite lookup_insert_ne by done. rewrite app_nil_r. apply Hroots.
Qed.

Lemma register_inv_from done routes : ∀ r,
  router_inv done r →
  ∃ r', register routes r = Ok r' ∧ router_inv (done ++ routes) r'.
Proof.
  revert done. induction routes as [|[[method pattern0] handler] routes IH];
    intros done r Hinv; simpl.
  - exists r. by rewrite app_nil_r.
  - destruct (addRoute_inv _ _ method pattern0 handler Hinv)
      as (r1 & -> & Hinv1 & _); simpl.
    destruct (IH _ _ Hinv1) as (r' & Hr' & Hinv').
    exists r'. split; [done|]. by rewrite <- app_assoc in Hinv'.
Qed.

(** Registration never panics, and the router it builds has the invariant. *)
Lemma register_inv routes :
  ∃ r, register routes newRouter = Ok r ∧ router_inv routes r.
Proof. apply (register_inv_from [] routes), router_inv_new. Qed.

(** ** The parameters of a matched route *)

Lemma is_dyn_byte_false c0 :
  is_dyn_byte c0 = false ↔ c0 ≠ ":"%char ∧ c0 ≠ "*"%char.
Proof.
  unfold is_dyn_byte. rewrite orb_false_iff, !bool_decide_eq_false. done.
Qed.

(** The loop reads [searchParts] within bounds when the pattern has no more
    parts than the request has segments. *)
Lemma getRoute_range_total parts : ∀ index0 searchParts params,
  Forall (λ seg, seg ≠ "") parts →
  index0 + length parts ≤ length searchParts →
  ∃ params', getRoute_range parts index0 searchParts params = Ok params'.
Proof.
  induction parts as [|part0 parts IH]; intros index0 searchParts params Hne Hlen;
    simpl in *; [eauto|].
  apply Forall_cons in Hne as [Hpart0 Hne].
  destruct part0 as [|c0 name]; [done|].
  destruct (lookup_lt_is_Some_2 searchParts index0 ltac:(lia)) as [v Hv].
  unfold at_index, slice_from. rewrite Hv.
  destruct (decide (c0 = ":"%char)); simpl;
    (destruct (decide (c0 = "*"%char ∧ _)); simpl;
     [rewrite decide_True by lia; simpl; eauto | apply IH; [done | lia]]).
Qed.

Lemma getRoute_range_static parts : ∀ index0 searchParts params,
  Forall (λ seg, seg ≠ "") parts → static parts →
  getRoute_range parts index0 searchParts params = Ok params.
Proof.
  induction parts as [|part0 parts IH]; intros index0 searchParts params Hne Hst;
    simpl; [done|].
  apply Forall_cons in Hne as [Hpart0 Hne].
  apply Forall_cons in Hst as [Hdyn Hst].
  destruct part0 as [|c0 name]; [done|]. simpl in Hdyn.
  apply is_dyn_byte_false in Hdyn as [Hc Hs].
  rewrite decide_False by done. simpl.
  rewrite decide_False by (by intros [? _]). by apply IH.
Qed.



(** ** [getRoute] on a router with the invariant *)

Lemma leads_depth Ps root segs n :
  inv Ps [] root → leads root segs n → pattern n ≠ "" →
  pattern n ∈ Ps ∧ length (parsePattern (pattern n)) ≤ length segs.
Proof.
  intros Hinv (labels & Hat & Hlen)%at_path_length_leads Hpat.
  destruct (Hinv _ _ Hat) as (_ & Hp & _). destruct (Hp Hpat) as [Hin Hsim].
  split; [done|]. apply Forall2_length in Hsim. simpl in Hsim. lia.
Qed.

Lemma getRoute_found routes r method path root n :
  router_inv routes r →
  roots r !! method = Some root →
  search root (parsePattern path) 0 = Ok (Some n) →
  ∃ params,
    getRoute r method path = Ok (Some (n, params)) ∧
    getRoute_range (parsePattern (pattern n)) 0 (parsePattern path) ∅ = Ok params ∧
    pattern n ∈ patterns_of method routes.
Proof.
  intros [_ Hroots] Hroot Hs. specialize (Hroots method). rewrite Hroot in Hroots.
  destruct Hroots as (_ & Hinv & _).
  pose proof Hs as [Hl Hpat]%search_leads; [|lia]. rewrite drop_0 in Hl.
  destruct (leads_depth _ _ _ _ Hinv Hl Hpat) as [Hin Hlen].
  destruct (getRoute_range_total (parsePattern (pattern n)) 0 (parsePattern path) ∅
              (parsePattern_nonempty _) ltac:(simpl; lia)) as [params Hparams].
  exists params. unfold getRoute. rewrite Hroot, Hs. simpl. by rewrite Hparams.
Qed.

(** [getRoute] never panics. *)
Lemma getRoute_total routes r method path :
  router_inv routes r → ∃ o, getRoute r method path = Ok o.
Proof.
  intros Hinv. destruct (roots r !! method) as [root|] eqn:Hroot.
  - destruct (search_total (parsePattern path) 0 ltac:(lia) root) as [[n|] Hs].
    + destruct (getRoute_found _ _ _ _ _ _ Hinv Hroot Hs) as (params & -> & _). eauto.
    + unfold getRoute. rewrite Hroot, Hs. eauto.
  - unfold getRoute. rewrite Hroot. eauto.
Qed.

(** ** Static segments *)

Lemma static_not_star seg : dyn seg = false → HasPrefix seg "*" = false.
Proof.
  intros Hd. destruct (HasPrefix seg "*") eqn:E; [|done].
  apply HasPrefix_star_dyn in E. congruence.
Qed.

(** Against static labels, [sim] is equality. *)
Lemma sim_static_r parts labels :
  static labels → Forall2 sim parts labels → parts = labels.
Proof.
  intros Hst Hsim. induction Hsim as [|p l parts labels Hs _ IH]; [done|].
  apply Forall_cons in Hst as [Hd Hst]. f_equal; [|by apply IH].
  destruct Hs as [?|[_ ?]]; [done | congruence].
Qed.

Lemma sim_static_l parts labels :
  static parts → Forall2 sim parts labels → labels = parts.
Proof.
  intros Hst Hsim. induction Hsim as [|p l parts labels Hs _ IH]; [done|].
  apply Forall_cons in Hst as [Hd Hst]. f_equal; [|by apply IH].
  destruct Hs as [?|[? _]]; [done | congruence].
Qed.

Lemma filter_none {A} (P : A → Prop) `{∀ x, Decision (P x)} (l : list A) :
  (∀ x, x ∈ l → ¬ P x) → filter P l = [].
Proof.
  induction l as [|x l IH]; intros Hno; [done|].
  rewrite filter_cons, decide_False by (apply Hno; left).
  apply IH. intros y Hy. apply Hno. by right.
Qed.

Lemma filter_part_NoDup (cs : list node) c :
  NoDup (part <$> cs) → c ∈ cs →
  filter (λ c', part c' = part c) cs = [c].
Proof.
  induction cs as [|c0 cs IH]; simpl; intros Hnd Hc; [by apply elem_of_nil in Hc|].
  apply NoDup_cons in Hnd as [Hnotin Hnd]. rewrite filter_cons.
  apply elem_of_cons in Hc as [->|Hc].
  - rewrite decide_True by done. f_equal.
    apply filter_none. intros c' Hc' Heq.
    apply Hnotin. rewrite <- Heq. by apply list_elem_of_fmap_2.
  - rewrite decide_False; [by apply IH|].
    intros Heq. apply Hnotin. rewrite Heq. by apply list_elem_of_fmap_2.
Qed.

(** Along static segments [search] goes to the child with that part first,
    and finds the node at the end of them when it holds a pattern. *)
Lemma static_search Ps parts : ∀ height, height ≤ length parts →
  ∀ pre n n', static (drop height parts) → inv Ps pre n →
    HasPrefix (part n) "*" = false →
    at_path n (drop height parts) n' → pattern n' ≠ "" →
    search n parts height = Ok (Some n').
Proof.
  apply (height_ind (length parts)
    (λ h, ∀ pre n n', static (drop h parts) → inv Ps pre n →
       HasPrefix (part n) "*" = false →
       at_path n (drop h parts) n' → pattern n' ≠ "" →
       search n parts h = Ok (Some n'))).
  intros h Hh IH pre n n' Hst Hinv Hstar Hat Hpat. rewrite search_eq.
  destruct (decide _) as [[<-|?]|Hnot]; [|congruence|].
  - rewrite drop_all in Hat.
    destruct (at_path_inv _ _ _ Hat) as [[_ ->]|(? & ? & ? & _)]; [|done].
    by rewrite decide_False.
  - destruct (parts !! h) as [seg|] eqn:Hp;
      [|apply lookup_ge_None in Hp; destruct Hnot; left; lia].
    pose proof (lookup_lt_Some _ _ _ Hp) as Hlt.
    rewrite (drop_S _ _ _ Hp) in Hat, Hst.
    apply Forall_cons in Hst as [Hd Hst].
    destruct (at_path_inv _ _ _ Hat) as [[? _]|(c & labels & [= Hseg <-] & Hc & Hat')];
      [done|].
    rewrite Hseg in Hd |- *.
    destruct (inv_local _ _ _ Hinv) as (_ & _ & Hnd & _).
    rewrite matchChildren_filter, (filter_part_NoDup _ c Hnd Hc). simpl.
    rewrite (IH (S h) ltac:(lia) ltac:(lia) (pre ++ [part c]) c n'); simpl;
      [done | done | by eapply inv_child | by apply static_not_star | done..].
Qed.


(** ** What [search] returns after an insertion *)













(** * The claims *)

(** ** Routing *)

(** C8. Registering the same method and pattern twice, with handlers [h1] then
    [h2], never fails; the second registration leaves every trie exactly as
    the first one built it (the same nodes, none added), the handler stored
    for the key is [h2], and the router is the one that the single
    registration of [h2] builds. *)
Theorem addRoute_twice r method pattern0 h1 h2 :
  ∃ r1 r2,
    addRoute r method pattern0 h1 = Ok r1 ∧
    addRoute r1 method pattern0 h2 = Ok r2 ∧
    roots r2 = roots r1 ∧
    handlers r2 !! route_key method pattern0 = Some h2 ∧
    addRoute r method pattern0 h2 = Ok r2.
Proof.
  destruct (insert_inserted pattern0 (parsePattern pattern0)
              (parsePattern_nonempty _) 0 ltac:(lia)
              (default (mkNode "" "" [] false) (roots r !! method)))
    as (root' & Hroot & Hins).
  pose proof (inserted_again _ _ _ _ _ (parsePattern_nonempty _) Hins) as Hagain.
  exists (mkRouter (<[method := root']> (roots r))
            (<[route_key method pattern0 := h1]> (handlers r))),
         (mkRouter (<[method := root']> (roots r))
            (<[route_key method pattern0 := h2]> (handlers r))).
  split; [by unfold addRoute; rewrite Hroot|].
  split.
  { unfold addRoute. simpl. rewrite lookup_insert_eq. simpl. rewrite Hagain. simpl.
    by rewrite !insert_insert_eq. }
  split; [done|]. split; [by simpl; rewrite lookup_insert_eq|].
  by unfold addRoute; rewrite Hroot.
Qed.

(** C10. [parsePattern] returns only non-empty segments, for every string;
    hence no registration panics, and on the router that any list of
    registrations builds no lookup panics: every [part[0]] of [insert],
    [matchChild] and [getRoute] and every [searchParts[index]] is in bounds
    ([Panic] is the outcome of an access out of bounds). *)
Theorem routing_never_panics :
  (∀ pattern0, Forall (λ seg, seg ≠ "") (parsePattern pattern0)) ∧
  ∀ routes, ∃ r,
    register routes newRouter = Ok r ∧
    ∀ method path, ∃ o, getRoute r method path = Ok o.
Proof.
  split; [apply parsePattern_nonempty|].
  intros routes. destruct (register_inv routes) as (r & Hr & Hinv).
  exists r. split; [done|]. intros method path. by eapply getRoute_total.
Qed.

Lemma getRoute_Some_inv r method path n params :
  getRoute r method path = Ok (Some (n, params)) →
  ∃ root, roots r !! method = Some root ∧
          search root (parsePattern path) 0 = Ok (Some n).
Proof.
  unfold getRoute. destruct (roots r !! method) as [root|]; [|done].
  destruct (search root (parsePattern path) 0) as [[n'|]|] eqn:Hs; simpl; [|done..].
  destruct (getRoute_range _ _ _ _); simpl; [|done].
  intros [= -> _]. eauto.
Qed.

Lemma register_router_inv routes r :
  register routes newRouter = Ok r → router_inv routes r.
Proof.
  intros Hr. destruct (register_inv routes) as (r' & Hr' & Hinv). congruence.
Qed.



(** C2. On the router built by any registrations that include a static
    pattern with at least one part, a request with the parts of that pattern
    resolves to the node at the end of the static children, whatever dynamic
    patterns are registered beside it: the pattern of the node is registered,
    has the same static parts, and is the pattern itself when no other
    registered pattern has these parts; no parameter is bound. *)
Theorem static_before_dynamic routes r method pattern0 handler path :
  register routes newRouter = Ok r →
  (method, pattern0, handler) ∈ routes →
  static (parsePattern pattern0) → parsePattern pattern0 ≠ [] →
  parsePattern path = parsePattern pattern0 →
  ∃ n,
    getRoute r method path = Ok (Some (n, ∅)) ∧
    pattern n ∈ patterns_of method routes ∧
    parsePattern (pattern n) = parsePattern pattern0 ∧
    ((∀ Q, Q ∈ patterns_of method routes →
           parsePattern Q = parsePattern pattern0 → Q = pattern0) →
     pattern n = pattern0).
Proof.
  intros Hr Hin Hst Hne Hpath.
  apply register_router_inv in Hr. pose proof Hr as [_ Hroots].
  specialize (Hroots method).
  assert (pattern0 ∈ patterns_of method routes) as HinP.
  { apply elem_of_patterns_of. eauto. }
  destruct (roots r !! method) as [root|] eqn:Hroot;
    [|rewrite Hroots in HinP; by apply elem_of_nil in HinP].
  destruct Hroots as (Hpart & Hinv & Hhas).
  destruct (Hhas _ HinP Hne) as (labels & n & Hsim & Hat & Hpat).
  apply sim_static_l in Hsim as ->; [|done].
  assert (search root (parsePattern path) 0 = Ok (Some n)) as Hs.
  { rewrite Hpath.
    eapply (static_search _ _ 0 ltac:(lia) []); rewrite ?drop_0; try done.
    by rewrite Hpart. }
  destruct (getRoute_found _ _ _ _ _ _ Hr Hroot Hs) as (params & Hget & Hparams & HinQ).
  destruct (Hinv _ _ Hat) as (_ & Hp & _). destruct (Hp Hpat) as [_ Hsim].
  simpl in Hsim. apply sim_static_r in Hsim; [|done].
  rewrite Hsim in Hparams.
  rewrite getRoute_range_static in Hparams;
    [|rewrite <- Hsim; apply parsePattern_nonempty | done].
  injection Hparams as <-.
  exists n. split; [done|]. split; [done|]. split; [done|].
  intros Huniq. by apply Huniq.
Qed.

Lemma static_before_dynamic_witness :
  ∃ r n,
    register [("GET", "/users/:id", Printf "show" Return);
              ("GET", "/users/new", Printf "new" Return)] newRouter = Ok r ∧
    getRoute r "GET" "/users/new" = Ok (Some (n, ∅)) ∧
    pattern n = "/users/new".
Proof.
  destruct (static_before_dynamic
              [("GET", "/users/:id", Printf "show" Return);
               ("GET", "/users/new", Printf "new" Return)]
              (match register [("GET", "/users/:id", Printf "show" Return);
                               ("GET", "/users/new", Printf "new" Return)]
                       newRouter with Ok r => r | Panic => newRouter end)
              "GET" "/users/new" (Printf "new" Return) "/users/new")
    as (n & Hget & _ & _ & Hsame).
  - vm_compute; reflexivity.
  - right. left.
  - repeat constructor.
  - discriminate.
  - reflexivity.
  - eexists _, n. split; [vm_compute; reflexivity|]. split; [exact Hget|].
    apply Hsame. intros Q HQ HQparts. simpl in HQ.
    apply elem_of_cons in HQ as [->|HQ]; [discriminate|].
    apply elem_of_cons in HQ as [->|HQ]; [done|]. by apply elem_of_nil in HQ.
Defined.

(** C9, as amended.  When every terminal point that the segments of the
    request lead [search] to, along every branch of children that
    [matchChildren] returns, holds the empty pattern, [search] returns no
    match and [getRoute] returns the two [nil]s.  (The call of [search] on one
    such node returns [nil]; [search] then goes on with the next candidate
    child, so one such node alone does not decide the result.) *)
Theorem unregistered_prefix_no_match r method path root :
  roots r !! method = Some root →
  (∀ n', leads root (parsePattern path) n' → pattern n' = "") →
  search root (parsePattern path) 0 = Ok None ∧
  getRoute r method path = Ok None.
Proof.
  intros Hroot Hall.
  assert (search root (parsePattern path) 0 = Ok None) as Hs.
  { apply search_None_iff; [lia|]. by rewrite drop_0. }
  split; [done|]. unfold getRoute. by rewrite Hroot, Hs.
Qed.

Lemma unregistered_prefix_no_match_witness :
  ∃ r root,
    register [("GET", "/a/b/c", Return)] newRouter = Ok r ∧
    roots r !! "GET" = Some root ∧
    search root (parsePattern "/a/b") 0 = Ok None ∧
    getRoute r "GET" "/a/b" = Ok None.
Proof.
  eexists _, _. split; [vm_compute; reflexivity|].
  split; [vm_compute; reflexivity|].
  eapply unregistered_prefix_no_match; [vm_compute; reflexivity|].
  intros n' Hl. eapply search_None_iff; [| |rewrite drop_0; exact Hl].
  - simpl. lia.
  - vm_compute. reflexivity.
Defined.

(** C9 as stated fails: the segments of [/a/b] lead [search] to the node
    [b], a terminal point with the empty pattern, and the call on that node
    returns [nil]; [search] backtracks to the wild sibling [:x] and
    [getRoute] returns its node. *)
Lemma backtracking_past_empty_node :
  ∃ r root nb,
    register [("GET", "/a/b/c", Return); ("GET", "/a/:x", Return)] newRouter
    = Ok r ∧
    roots r !! "GET" = Some root ∧
    leads root (parsePattern "/a/b") nb ∧ pattern nb = "" ∧
    search nb (parsePattern "/a/b") 2 = Ok None ∧
    ∃ n params, getRoute r "GET" "/a/b" = Ok (Some (n, params)) ∧
                pattern n = "/a/:x".
Proof.
  eexists _, _, _. split; [vm_compute; reflexivity|].
  split; [vm_compute; reflexivity|].
  split.
  { eapply leads_step; [reflexivity | apply list_elem_of_here | by left |].
    eapply leads_step; [reflexivity | apply list_elem_of_here | by left |].
    apply leads_end. }
  split; [reflexivity|]. split; [vm_compute; reflexivity|].
  eexists _, _. split; [vm_compute; reflexivity|]. reflexivity.
Qed.

(** ** Patterns, labels and segments *)



Lemma pmatch_cons p pparts seg sparts :
  pmatch (p :: pparts) (seg :: sparts) =
  if HasPrefix p "*" then true
  else (bool_decide (p = seg) || dyn p) && pmatch pparts sparts.
Proof. reflexivity. Qed.

(** The labels on the way to a node that the segments lead to match the
    segments, and only the last of them can be a [*] label. *)
Lemma leads_labels Ps n segs n' :
  leads n segs n' → ∀ pre, inv Ps pre n →
  HasPrefix (part n) "*" = false →
  ∃ labels, at_path n labels n' ∧ pmatch labels segs = true ∧
            star_last labels.
Proof.
  induction 1 as [n|n segs Hstar|n c seg segs n' _ Hc Hm Hl IH];
    intros pre Hinv Hnostar.
  - exists []. split; [constructor|]. split; [done|]. by intros [|?] ?.
  - congruence.
  - destruct (inv_local _ _ _ (inv_child _ _ _ _ Hinv Hc)) as (Hflag & _).
    destruct (HasPrefix (part c) "*") eqn:Hstar.
    + assert (n' = c) as ->.
      { inversion Hl; subst; [done..|congruence]. }
      exists [part c]. split; [apply at_child; [done | constructor]|].
      split; [by rewrite pmatch_cons, Hstar|].
      intros [|i] label Hi; [done | by destruct i].
    + destruct (IH _ (inv_child _ _ _ _ Hinv Hc) eq_refl)
        as (labels & Hat & Hpm & Hlast).
      exists (part c :: labels). split; [by apply at_child|]. split.
      * rewrite pmatch_cons, Hstar, Hpm, andb_true_r.
        destruct Hm as [->|Hw]; [by rewrite bool_decide_eq_true_2|].
        rewrite <- Hflag, Hw. apply orb_true_r.
      * intros [|i] label Hi Hs; simpl in *.
        -- injection Hi as <-. congruence.
        -- f_equal. by eapply Hlast.
Qed.


Lemma parsePattern_star_last pattern0 : star_last (parsePattern pattern0).
Proof. intros i label. apply parsePattern_star. Qed.













(** ** The chain of handlers *)

Lemma remaining_incr handlers0 s :
  remaining handlers0 (incr_index s) = remaining handlers0 s - 1.
Proof. unfold remaining, incr_index. simpl. lia. Qed.

Lemma remaining_emit handlers0 e s :
  remaining handlers0 (emit e s) = remaining handlers0 s.
Proof. reflexivity. Qed.

Lemma remaining_Fail handlers0 code err s :
  remaining handlers0 (Fail handlers0 code err s) = 0.
Proof. unfold remaining, Fail. simpl. lia. Qed.

Lemma run_ok handlers0 B next p :
  next_ok handlers0 B next →
  ∀ s, remaining handlers0 s ≤ B →
    ∃ o, run handlers0 next p s = Some o ∧
         remaining handlers0 (final o) ≤ remaining handlers0 s ∧
         trace s `prefix_of` trace (final o).
Proof.
  intros Hnext.
  induction p as [| |msg k IH|f k IH|b k1 IH1 k2 IH2|k IH|code err k IH
                  |code body k IH|code obj k IH]; intros s Hs; simpl.
  - eauto.
  - eauto.
  - destruct (IH (emit (Log msg) s) Hs) as (o & -> & Hrem & Htr).
    exists o. split; [done|]. split; [done|].
    etrans; [|exact Htr]. by apply prefix_app_r.
  - apply (IH (set_index (index (ctx s)) (mkState (f (ctx s)) (trace s)))).
    done.
  - destruct (b (ctx s)); [by apply IH1 | by apply IH2].
  - destruct (Hnext s Hs) as (o & -> & Hrem & Htr).
    destruct o as [s'|s']; [|eauto]. simpl in *.
    destruct (IH s' ltac:(lia)) as (o & -> & Hrem' & Htr').
    exists o. split; [done|]. split; [lia|]. by etrans.
  - destruct (IH (Fail handlers0 code err s)) as (o & -> & Hrem & Htr).
    { rewrite remaining_Fail. lia. }
    exists o. split; [done|]. rewrite remaining_Fail in Hrem. split; [lia|].
    etrans; [|exact Htr]. unfold Fail, JSON, Status, emit. simpl.
    rewrite <- !app_assoc. by apply prefix_app_r.
  - destruct (IH (Context_String code (body (ctx s)) s) Hs) as (o & -> & Hrem & Htr).
    exists o. split; [done|]. split; [done|].
    etrans; [|exact Htr]. unfold Context_String, Status, emit. simpl.
    rewrite <- !app_assoc. by apply prefix_app_r.
  - destruct (IH (JSON code obj s) Hs) as (o & -> & Hrem & Htr).
    exists o. split; [done|]. split; [done|].
    etrans; [|exact Htr]. unfold JSON, Status, emit. simpl.
    rewrite <- !app_assoc. by apply prefix_app_r.
Qed.

(** The loop of [Next] ends when it has one unit of fuel more than there are
    handlers ahead. *)
Lemma Next_for_ok handlers0 : ∀ fuel s,
  remaining handlers0 s < fuel →
  ∃ o, Next_for fuel handlers0 s = Some o ∧
       remaining handlers0 (final o) ≤ remaining handlers0 s ∧
       trace s `prefix_of` trace (final o).
Proof.
  induction fuel as [|fuel IH]; intros s Hs; [lia|]. simpl.
  destruct (decide _) as [Hlt|Hge]; [|eauto].
  destruct (handler_at handlers0 (index (ctx s))) as [h|]; [|eauto].
  assert (1 ≤ remaining handlers0 s) as Hpos by (unfold remaining; lia).
  assert (next_ok handlers0 (remaining handlers0 s)
            (λ s1, Next_for fuel handlers0 (incr_index s1))) as Hnext.
  { intros s1 Hs1.
    destruct (IH (incr_index s1)) as (o & Ho & Hrem & Htr).
    { rewrite remaining_incr. lia. }
    exists o. split; [done|]. rewrite remaining_incr in Hrem. split; [lia|done]. }
  destruct (run_ok _ _ _ h Hnext (emit (Enter (index (ctx s))) s))
    as (o & -> & Hrem & Htr); [by rewrite remaining_emit|].
  rewrite remaining_emit in Hrem.
  assert (trace s `prefix_of` trace (final o)) as Htr'.
  { etrans; [|exact Htr]. by apply prefix_app_r. }
  destruct o as [s'|s']; [|eauto]. simpl in *.
  destruct (IH (incr_index s')) as (o & Ho & Hrem' & Htr'').
  { rewrite remaining_incr. lia. }
  exists o. split; [done|]. rewrite remaining_incr in Hrem'. split; [lia|].
  by etrans.
Qed.

(** [Next] always ends: the fuel it is given is enough. *)
Lemma Next_total handlers0 s : ∃ o, Next handlers0 s = Some o.
Proof.
  unfold Next, Next_fuel.
  destruct (decide (index (ctx s) + 1 < 0)%Z) as [Hneg|Hpos].
  - simpl. rewrite decide_True by (simpl; lia).
    unfold handler_at. rewrite decide_False by (simpl; lia). eauto.
  - destruct (Next_for_ok handlers0 (S (length handlers0)) (incr_index s))
      as (o & Ho & _); [|eauto].
    rewrite remaining_incr. unfold remaining. lia.
Qed.

(** A body that returns without [Next] or [Fail] does not look at [next]. *)
Lemma straight_run handlers0 next p : ∀ s s',
  straight p s = Some s' →
  run handlers0 next p s = Some (Returned s') ∧
  index (ctx s') = index (ctx s) ∧
  trace s `prefix_of` trace s'.
Proof.
  induction p as [| |msg k IH|f k IH|b k1 IH1 k2 IH2|k IH|code err k IH
                  |code body k IH|code obj k IH]; intros s s' Hst; simpl in *;
    try done.
  - by injection Hst as <-.
  - destruct (IH _ _ Hst) as (-> & Hidx & Htr). split; [done|]. split; [done|].
    etrans; [|exact Htr]. by apply prefix_app_r.
  - destruct (IH _ _ Hst) as (-> & Hidx & Htr). done.
  - destruct (b (ctx s)); [by apply IH1 | by apply IH2].
  - destruct (IH _ _ Hst) as (-> & Hidx & Htr). split; [done|]. split; [done|].
    etrans; [|exact Htr]. unfold Context_String, Status, emit. simpl.
    rewrite <- !app_assoc. by apply prefix_app_r.
  - destruct (IH _ _ Hst) as (-> & Hidx & Htr). split; [done|]. split; [done|].
    etrans; [|exact Htr]. unfold JSON, Status, emit. simpl.
    rewrite <- !app_assoc. by apply prefix_app_r.
Qed.

Lemma handler_at_nat handlers0 (i : nat) :
  handler_at handlers0 (Z.of_nat i) = handlers0 !! i.
Proof.
  unfold handler_at. rewrite decide_True by lia. by rewrite Nat2Z.id.
Qed.
Lemma Next_for_next_ok handlers0 fuel :
  1 ≤ fuel →
  next_ok handlers0 fuel (λ s1, Next_for fuel handlers0 (incr_index s1)).
Proof.
  intros Hfuel s1 Hs1.
  destruct (Next_for_ok handlers0 fuel (incr_index s1)) as (o & Ho & Hrem & Htr).
  { rewrite remaining_incr. lia. }
  exists o. split; [done|]. rewrite remaining_incr in Hrem. split; [lia|done].
Qed.

(** At a cursor inside the chain, the loop first invokes the handler under
    the cursor. *)
Lemma Next_for_enters (handlers0 : list HandlerFunc) fuel s (j : nat)
    (h : HandlerFunc) :
  index (ctx s) = Z.of_nat j → handlers0 !! j = Some h →
  remaining handlers0 s < fuel →
  ∃ o rest, Next_for fuel handlers0 s = Some o ∧
            trace (final o) = trace s ++ Enter (Z.of_nat j) :: rest.
Proof.
  intros Hidx Hh Hfuel. pose proof (lookup_lt_Some _ _ _ Hh) as Hlt.
  destruct fuel as [|fuel]; [lia|]. simpl.
  rewrite decide_True by lia. rewrite Hidx, handler_at_nat, Hh.
  assert (1 ≤ remaining handlers0 s) as Hpos by (unfold remaining; lia).
  assert (1 ≤ fuel) as Hf by lia.
  destruct (run_ok handlers0 fuel _ h (Next_for_next_ok handlers0 fuel Hf)
              (emit (Enter (Z.of_nat j)) s))
    as (o & -> & Hrem & [k Htr]); [rewrite remaining_emit; lia|].
  rewrite remaining_emit in Hrem. simpl in Htr.
  destruct o as [s'|s'].
  - destruct (Next_for_ok handlers0 fuel (incr_index s'))
      as (o & -> & _ & [k' Htr']).
    { rewrite remaining_incr. simpl in Hrem. lia. }
    exists o, (k ++ k'). split; [done|].
    rewrite Htr'. simpl in *. rewrite Htr. by rewrite <- !app_assoc.
  - exists (Panicked s'), k. split; [done|]. simpl in *.
    rewrite Htr. by rewrite <- app_assoc.
Qed.

(** C1, as amended.  Let the loop of [Next] stand at the handler [p], which
    has a successor [q] in the chain.  If [p] returns without calling [Next]
    or [Fail] (and without a panic), the chain does not stop: the loop ends,
    and the first thing that happens after [p] has returned is the invocation
    of [q].  ([trace s'] is the trace when [p] returns.) *)
Theorem handler_without_Next_is_followed (handlers0 : list HandlerFunc) s
    (i : nat) (p q : HandlerFunc) s' fuel :
  index (ctx s) = Z.of_nat i →
  handlers0 !! i = Some p → handlers0 !! S i = Some q →
  straight p (emit (Enter (Z.of_nat i)) s) = Some s' →
  remaining handlers0 s < fuel →
  ∃ o rest, Next_for fuel handlers0 s = Some o ∧
            trace (final o) = trace s' ++ Enter (Z.of_nat (S i)) :: rest.
Proof.
  intros Hidx Hp Hq Hst Hfuel. pose proof (lookup_lt_Some _ _ _ Hq) as Hlt.
  destruct fuel as [|fuel]; [lia|]. simpl.
  rewrite decide_True by lia. rewrite Hidx, handler_at_nat, Hp.
  destruct (straight_run handlers0
              (λ s1, Next_for fuel handlers0 (incr_index s1)) p _ _ Hst)
    as (-> & Hidx' & _).
  simpl in Hidx'.
  apply (Next_for_enters handlers0 fuel (incr_index s') (S i) q); [|done|].
  - unfold incr_index. simpl. lia.
  - rewrite remaining_incr. unfold remaining in *. lia.
Qed.

Lemma handler_without_Next_is_followed_witness :
  ∃ o rest,
    Next_for 3 [Printf "rejected" Return; Printf "admin page" Return]
      (incr_index (newContext "GET" "/admin")) = Some o ∧
    trace (final o) = [Enter 0; Log "rejected"] ++ Enter 1 :: rest.
Proof.
  apply (handler_without_Next_is_followed
           [Printf "rejected" Return; Printf "admin page" Return]
           (incr_index (newContext "GET" "/admin")) 0
           (Printf "rejected" Return) (Printf "admin page" Return)
           (emit (Log "rejected") (emit (Enter 0) (incr_index (newContext "GET" "/admin"))))
           3).
  - reflexivity.
  - reflexivity.
  - reflexivity.
  - reflexivity.
  - vm_compute. lia.
Defined.

(** C1 as stated fails: the middleware returns without calling [Next], and
    the handler of the route, which comes after it in the chain, still
    executes. *)
Lemma rejecting_middleware_does_not_stop :
  ∃ r s,
    register [("GET", "/admin", Printf "admin page" Return)] newRouter = Ok r ∧
    handle r [Printf "rejected" Return] (newContext "GET" "/admin")
    = Some (Returned s) ∧
    trace s = [Enter 0; Log "rejected"; Enter 1; Log "admin page"].
Proof.
  eexists _, _. split; [vm_compute; reflexivity|].
  split; [vm_compute; reflexivity|]. reflexivity.
Qed.

(** C5. A request whose route is found, with the middlewares [M1] and [M2]
    in [c.handlers], each recording something, calling [Next] once and
    recording something again, and a terminal handler [H] that records [h]:
    [handle] runs [M1] before [Next], [M2] before [Next], [H], [M2] after
    [Next], [M1] after [Next], in this order, and returns. *)
Theorem chain_order r s n params a1 b1 a2 b2 h :
  getRoute r (Method (ctx s)) (Path (ctx s)) = Ok (Some (n, params)) →
  handlers r !! route_key (Method (ctx s)) (pattern n) = Some (Printf h Return) →
  index (ctx s) = (-1)%Z →
  ∃ s',
    handle r [wrap (a1, b1); wrap (a2, b2)] s = Some (Returned s') ∧
    trace s' = trace s ++ [Enter 0; Log a1; Enter 1; Log a2; Enter 2; Log h;
                           Log b2; Log b1].
Proof.
  intros Hget Hh Hidx. unfold handle. rewrite Hget, Hh.
  destruct s as [[method path ps code idx] tr]. simpl in *. subst idx.
  eexists. split; [reflexivity|]. simpl. by rewrite <- !app_assoc.
Qed.

Lemma Next_for_exhausted handlers0 fuel s :
  exhausted handlers0 s → Next_for (S fuel) handlers0 s = Some (Returned s).
Proof. intros Hs. simpl. by rewrite decide_False by (unfold exhausted in Hs; lia). Qed.

(** Once the cursor is at the end, a body without a panic returns, and
    invokes no handler, whatever it calls. *)
Lemma run_exhausted handlers0 fuel p :
  no_crash p = true →
  ∀ s, exhausted handlers0 s →
    ∃ s' evs,
      run handlers0 (λ s1, Next_for (S fuel) handlers0 (incr_index s1)) p s
      = Some (Returned s') ∧
      exhausted handlers0 s' ∧
      trace s' = trace s ++ evs ∧
      Forall (λ e, is_Enter e = false) evs.
Proof.
  induction p as [| |msg k IH|f k IH|b k1 IH1 k2 IH2|k IH|code err k IH
                  |code body k IH|code obj k IH]; intros Hp s Hs; simpl in *.
  - exists s, []. by rewrite app_nil_r.
  - done.
  - destruct (IH Hp (emit (Log msg) s) Hs) as (s' & evs & -> & Hex & Htr & Hno).
    exists s', (Log msg :: evs). split; [done|]. split; [done|].
    split; [by rewrite Htr; simpl; rewrite <- app_assoc | by constructor].
  - apply (IH Hp (set_index (index (ctx s)) (mkState (f (ctx s)) (trace s)))).
    done.
  - apply andb_true_iff in Hp as [Hp1 Hp2].
    destruct (b (ctx s)); [by apply IH1 | by apply IH2].
  - rewrite decide_False by (unfold exhausted in Hs; simpl; lia).
    destruct (IH Hp (incr_index s)) as (s' & evs & -> & Hex & Htr & Hno).
    { unfold exhausted in *. simpl. lia. }
    by exists s', evs.
  - destruct (IH Hp (Fail handlers0 code err s))
      as (s' & evs & -> & Hex & Htr & Hno).
    { unfold exhausted. simpl. lia. }
    exists s', ([SetHeader "Content-Type" "application/json"; WriteHeader code;
                 Encode [("message", err)]] ++ evs).
    split; [done|]. split; [done|]. split.
    + rewrite Htr. simpl. by rewrite <- !app_assoc.
    + by repeat constructor.
  - destruct (IH Hp (Context_String code (body (ctx s)) s) Hs)
      as (s' & evs & -> & Hex & Htr & Hno).
    exists s', ([SetHeader "Content-Type" "text/plain"; WriteHeader code;
                 Write (body (ctx s))] ++ evs).
    split; [done|]. split; [done|]. split.
    + rewrite Htr. simpl. by rewrite <- !app_assoc.
    + by repeat constructor.
  - destruct (IH Hp (JSON code obj s) Hs) as (s' & evs & -> & Hex & Htr & Hno).
    exists s', ([SetHeader "Content-Type" "application/json"; WriteHeader code;
                 Encode obj] ++ evs).
    split; [done|]. split; [done|]. split.
    + rewrite Htr. simpl. by rewrite <- !app_assoc.
    + by repeat constructor.
Qed.

Lemma Next_for_S fuel handlers0 s :
  Next_for (S fuel) handlers0 s =
  if decide (index (ctx s) < Z.of_nat (length handlers0))%Z then
    match handler_at handlers0 (index (ctx s)) with
    | None => Some (Panicked s)
    | Some h =>
        match run handlers0
                (fun s1 => Next_for fuel handlers0 (incr_index s1))
                h (emit (Enter (index (ctx s))) s) with
        | Some (Returned s') => Next_for fuel handlers0 (incr_index s')
        | r => r
        end
    end
  else Some (Returned s).
Proof. reflexivity. Qed.

Lemma post_phases_cons ab ms :
  post_phases (ab :: ms) = post_phases ms ++ [Log ab.2].
Proof. unfold post_phases. by rewrite reverse_cons, fmap_app. Qed.

(** The chain from a cursor at the first of the middlewares [ms], which are
    followed by a handler that calls [Fail]. *)
Lemma short_circuit_from a code err k (rest : list HandlerFunc) :
  no_crash k = true →
  ∀ ms (pfx : list HandlerFunc) s fuel,
    index (ctx s) = Z.of_nat (length pfx) →
    length ms + 1 < fuel →
    ∃ s' evs,
      Next_for fuel
        (pfx ++ (wrap <$> ms) ++ Printf a (CallFail code err k) :: rest) s
      = Some (Returned s') ∧
      exhausted (pfx ++ (wrap <$> ms) ++ Printf a (CallFail code err k) :: rest) s' ∧
      trace s' = trace s ++ pre_phases (length pfx) ms ++
                 [Enter (Z.of_nat (length pfx + length ms)); Log a] ++
                 evs ++ post_phases ms ∧
      Forall (λ e, is_Enter e = false) evs.
Proof.
  intros Hk. induction ms as [|ab ms IH]; intros pfx s fuel Hidx Hfuel.
  - destruct fuel as [|[|fuel]]; [simpl in Hfuel; lia..|].
    set (hs := pfx ++ (wrap <$> []) ++ Printf a (CallFail code err k) :: rest).
    assert (hs !! length pfx = Some (Printf a (CallFail code err k))) as Hh.
    { unfold hs. rewrite lookup_app_r by lia. by rewrite Nat.sub_diag. }
    pose proof (lookup_lt_Some _ _ _ Hh) as Hlt.
    rewrite Next_for_S, decide_True by lia.
    rewrite Hidx, handler_at_nat, Hh. cbn [run].
    destruct (run_exhausted hs fuel k Hk
                (Fail hs code err (emit (Log a) (emit (Enter (Z.of_nat (length pfx))) s))))
      as (s' & evs & -> & Hex & Htr & Hno).
    { unfold exhausted. simpl. lia. }
    rewrite Next_for_exhausted by (unfold exhausted in *; simpl; lia).
    eexists _, ([SetHeader "Content-Type" "application/json"; WriteHeader code;
                 Encode [("message", err)]] ++ evs).
    split; [reflexivity|]. split; [unfold exhausted in *; simpl; lia|]. split.
    + simpl. rewrite Htr. simpl. rewrite Nat.add_0_r, app_nil_r.
      by rewrite <- !app_assoc.
    + by repeat constructor.
  - destruct fuel as [|fuel]; [lia|].
    set (hs := pfx ++ (wrap <$> ab :: ms) ++ Printf a (CallFail code err k) :: rest).
    assert (hs !! length pfx = Some (wrap ab)) as Hh.
    { unfold hs. rewrite lookup_app_r by lia. by rewrite Nat.sub_diag. }
    pose proof (lookup_lt_Some _ _ _ Hh) as Hlt.
    rewrite Next_for_S, decide_True by lia.
    rewrite Hidx, handler_at_nat, Hh. unfold wrap at 1. cbn [run].
    assert (hs = (pfx ++ [wrap ab]) ++ (wrap <$> ms) ++
                 Printf a (CallFail code err k) :: rest) as Hhs.
    { unfold hs. by rewrite fmap_cons, <- app_assoc. }
    destruct (IH (pfx ++ [wrap ab])
                (incr_index (emit (Log ab.1) (emit (Enter (Z.of_nat (length pfx))) s)))
                fuel) as (s' & evs & Hrun & Hex & Htr & Hno).
    { rewrite length_app. simpl. lia. }
    { simpl in Hfuel. lia. }
    rewrite <- Hhs in Hrun, Hex. rewrite Hrun.
    destruct fuel as [|fuel]; [simpl in Hfuel; lia|].
    rewrite Next_for_exhausted by (unfold exhausted in *; simpl; lia).
    eexists _, evs. split; [reflexivity|].
    split; [unfold exhausted in *; simpl; lia|]. split; [|done].
    simpl. rewrite Htr. simpl. rewrite post_phases_cons, length_app. simpl.
    rewrite <- !app_assoc. simpl.
    replace (length pfx + 1 + length ms) with (length pfx + S (length ms)) by lia.
    replace (length pfx + 1) with (S (length pfx)) by lia.
    by rewrite <- !app_assoc.
Qed.

Lemma chain_order_witness :
  ∃ r s',
    register [("GET", "/hello/:name", Printf "H" Return)] newRouter = Ok r ∧
    handle r [wrap ("M1-pre", "M1-post"); wrap ("M2-pre", "M2-post")]
      (newContext "GET" "/hello/zinc") = Some (Returned s') ∧
    trace s' = [Enter 0; Log "M1-pre"; Enter 1; Log "M2-pre"; Enter 2; Log "H";
                Log "M2-post"; Log "M1-post"].
Proof.
  eexists _.
  destruct (chain_order
              (match register [("GET", "/hello/:name", Printf "H" Return)]
                       newRouter with Ok r => r | Panic => newRouter end)
              (newContext "GET" "/hello/zinc")
              (mkNode "/hello/:name" ":name" [] true) {["name" := "zinc"]}
              "M1-pre" "M1-post" "M2-pre" "M2-post" "H") as (s' & Hrun & Htr).
  - vm_compute; reflexivity.
  - vm_compute; reflexivity.
  - reflexivity.
  - exists s'. split; [vm_compute; reflexivity|]. split; [exact Hrun | exact Htr].
Defined.

(** C6. A request with the middlewares [ms] in [c.handlers], each calling
    [Next] once between what it records, followed by a handler that calls
    [Fail] before any call of [Next], followed by any other middlewares
    [mws]; [handle] appends the terminal handler (the one of the route, or the
    one for no route).  Whatever the handler does after [Fail], short of a
    panic, [handle] returns and the trace is: the phases of [ms] before
    [Next], the handler with [Fail], events [evs] none of which is the
    invocation of a handler, then the phases of [ms] after [Next], last
    middleware first.  So no handler of [mws] and not the terminal handler is
    ever invoked, and every middleware that ran its first phase runs its
    second. *)
Theorem Fail_short_circuits r ms a code err k (mws : list HandlerFunc) s o :
  getRoute r (Method (ctx s)) (Path (ctx s)) = Ok o →
  index (ctx s) = (-1)%Z →
  no_crash k = true →
  ∃ s' evs,
    handle r ((wrap <$> ms) ++ Printf a (CallFail code err k) :: mws) s
    = Some (Returned s') ∧
    trace s' = trace s ++ pre_phases 0 ms ++
               [Enter (Z.of_nat (length ms)); Log a] ++ evs ++ post_phases ms ∧
    Forall (λ e, is_Enter e = false) evs.
Proof.
  intros Hget Hidx Hk. unfold handle. rewrite Hget.
  assert (∀ (t : HandlerFunc) s0,
            index (ctx s0) = (-1)%Z →
            ∃ s' evs,
              Next (((wrap <$> ms) ++ Printf a (CallFail code err k) :: mws) ++ [t]) s0
              = Some (Returned s') ∧
              trace s' = trace s0 ++ pre_phases 0 ms ++
                [Enter (Z.of_nat (length ms)); Log a] ++ evs ++ post_phases ms ∧
              Forall (λ e, is_Enter e = false) evs) as Hchain.
  { intros t s0 Hs0. unfold Next, Next_fuel.
    rewrite <- app_assoc, <- app_comm_cons.
    destruct (short_circuit_from a code err k (mws ++ [t]) Hk ms [] (incr_index s0)
                (S (length ((wrap <$> ms) ++
                            Printf a (CallFail code err k) :: mws ++ [t]))))
      as (s' & evs & Hrun & _ & Htr & Hno).
    - unfold incr_index. simpl. lia.
    - rewrite length_app, length_fmap. simpl. lia.
    - exists s', evs. simpl in Hrun, Htr. done. }
  destruct o as [[n params]|].
  - destruct (Hchain (default Crash
                        (handlers r !! route_key (Method (ctx s)) (pattern n)))
                (set_Params params s) Hidx) as (s' & evs & Hrun & Htr & Hno).
    by exists s', evs.
  - destruct (Hchain notFound s Hidx) as (s' & evs & Hrun & Htr & Hno).
    by exists s', evs.
Qed.

Lemma Fail_short_circuits_witness :
  ∃ r s' evs,
    register [("GET", "/g2/hello/:name", Printf "hello" Return)] newRouter = Ok r ∧
    handle r ((wrap <$> [("log-pre", "log-post")]) ++
              Printf "g2" (CallFail 500 "Internal Server Error"
                             (Printf "g2-done" Return)) :: [Printf "later" Return])
      (newContext "GET" "/g2/hello/zinc") = Some (Returned s') ∧
    trace s' = [] ++ pre_phases 0 [("log-pre", "log-post")] ++
               [Enter 1; Log "g2"] ++ evs ++ post_phases [("log-pre", "log-post")] ∧
    Forall (λ e, is_Enter e = false) evs.
Proof.
  eexists _.
  destruct (Fail_short_circuits
              (match register [("GET", "/g2/hello/:name", Printf "hello" Return)]
                       newRouter with Ok r => r | Panic => newRouter end)
              [("log-pre", "log-post")] "g2" 500 "Internal Server Error"
              (Printf "g2-done" Return) [Printf "later" Return]
              (newContext "GET" "/g2/hello/zinc")
              (Some (mkNode "/g2/hello/:name" ":name" [] true, {["name" := "zinc"]})))
    as (s' & evs & Hrun & Htr & Hno).
  - vm_compute; reflexivity.
  - reflexivity.
  - reflexivity.
  - exists s', evs. split; [vm_compute; reflexivity|].
    split; [exact Hrun|]. split; [exact Htr | exact Hno].
Defined.

(** * More of the package: listing, parameters, chains, the engine *)

(** ** Splitting and joining *)

Lemma Split_no_sep s sep :
  Forall (λ item, has_byte sep item = false) (Split s sep).
Proof.
  induction s as [|c s IH]; simpl.
  - by repeat constructor.
  - destruct (decide (c = sep)) as [->|Hne].
    + by constructor.
    + destruct (Split s sep) as [|item items]; simpl.
      * repeat constructor. simpl. by rewrite bool_decide_eq_false_2.
      * inversion IH; subst. constructor; [|done]. simpl.
        by rewrite bool_decide_eq_false_2.
Qed.

Lemma Split_single s sep : has_byte sep s = false → Split s sep = [s].
Proof.
  induction s as [|c s IH]; simpl; [done|].
  intros [Hc Hs]%orb_false_iff. apply bool_decide_eq_false in Hc.
  rewrite decide_False by done. by rewrite IH.
Qed.

Lemma Split_app x s sep :
  has_byte sep x = false →
  Split (x +:+ String sep s) sep = x :: Split s sep.
Proof.
  induction x as [|c x IH]; simpl.
  - intros _. by rewrite decide_True.
  - intros [Hc Hx]%orb_false_iff. apply bool_decide_eq_false in Hc.
    rewrite decide_False by done. by rewrite IH.
Qed.

Lemma Split_Join parts :
  parts ≠ [] → Forall (λ seg, has_byte "/"%char seg = false) parts →
  Split (Join parts "/") "/"%char = parts.
Proof.
  induction parts as [|x [|y parts] IH]; [done|..]; intros _ Hall.
  - simpl. apply Split_single. by inversion Hall.
  - inversion Hall as [|? ? Hx Hrest]; subst.
    change (Join (x :: y :: parts) "/") with (x +:+ String "/"%char (Join (y :: parts) "/")).
    rewrite Split_app by done. f_equal. by apply IH.
Qed.

Lemma parsePattern_range_id parts :
  Forall (λ seg, seg ≠ "") parts → star_last parts →
  parsePattern_range parts = parts.
Proof.
  induction parts as [|[|c0 seg] parts IH]; intros Hne Hstar; [done|..].
  - inversion Hne; by subst.
  - simpl. destruct (decide (c0 = "*"%char)) as [->|Hc].
    + specialize (Hstar 0 _ eq_refl eq_refl). simpl in Hstar.
      by destruct parts.
    + f_equal. apply IH; [by inversion Hne|].
      intros i label Hi Hl. specialize (Hstar (S i) _ Hi Hl). simpl in *. lia.
Qed.

(** ** The segments of a pattern *)

Lemma parsePattern_range_sub vs seg :
  seg ∈ parsePattern_range vs → seg ∈ vs.
Proof.
  induction vs as [|[|c0 item] vs IH]; simpl; [done|..].
  - intros ?. right. by apply IH.
  - destruct (decide _).
    + intros ->%list_elem_of_singleton. by left.
    + intros [->|?]%elem_of_cons; [by left | right; by apply IH].
Qed.

(** X1. Every segment that [parsePattern] returns is non-empty and holds no
    slash, and a segment that starts with [*] is the last one: what follows
    it in the pattern is dropped. *)
Theorem parsePattern_segments pattern0 i seg :
  parsePattern pattern0 !! i = Some seg →
  seg ≠ "" ∧ has_byte "/"%char seg = false ∧
  (HasPrefix seg "*" = true → length (parsePattern pattern0) = S i).
Proof.
  intros Hi. split; [|split].
  - eapply lookup_nonempty; [apply parsePattern_nonempty | done].
  - apply list_elem_of_lookup_2, parsePattern_range_sub in Hi.
    by apply (proj1 (Forall_forall _ _) (Split_no_sep pattern0 "/"%char)).
  - intros Hs. by eapply parsePattern_star.
Qed.

Lemma parsePattern_segments_witness :
  parsePattern "/static//*filepath/more" !! 1 = Some "*filepath" ∧
  "*filepath" ≠ "" ∧ has_byte "/"%char "*filepath" = false ∧
  (HasPrefix "*filepath" "*" = true →
   length (parsePattern "/static//*filepath/more") = 2).
Proof.
  split; [reflexivity|].
  apply (parsePattern_segments "/static//*filepath/more" 1 "*filepath").
  reflexivity.
Defined.

(** X2. Joining segments with slashes and parsing the result gives the
    segments back, with or without a leading slash, when the segments are
    non-empty, hold no slash, and only the last one may start with [*]. *)
Theorem parsePattern_Join parts :
  Forall (λ seg, seg ≠ "" ∧ has_byte "/"%char seg = false) parts →
  star_last parts →
  parsePattern (Join parts "/") = parts ∧
  parsePattern ("/" +:+ Join parts "/") = parts.
Proof.
  intros Hall Hstar.
  assert (Forall (λ seg, seg ≠ "") parts) as Hne
    by (eapply Forall_impl; [exact Hall | by intros ? [? ?]]).
  assert (Forall (λ seg, has_byte "/"%char seg = false) parts) as Hsl
    by (eapply Forall_impl; [exact Hall | by intros ? [? ?]]).
  assert (parsePattern (Join parts "/") = parts) as Hj.
  { destruct (decide (parts = [])) as [->|Hparts]; [done|].
    unfold parsePattern. rewrite Split_Join by done.
    by apply parsePattern_range_id. }
  split; [done|].
  unfold parsePattern in *.
  change ("/" +:+ Join parts "/") with ("" +:+ String "/"%char (Join parts "/")).
  by rewrite Split_app.
Qed.

Lemma parsePattern_Join_witness :
  parsePattern (Join ["p"; ":lang"; "*rest"] "/") = ["p"; ":lang"; "*rest"] ∧
  parsePattern ("/" +:+ Join ["p"; ":lang"; "*rest"] "/") = ["p"; ":lang"; "*rest"].
Proof.
  apply parsePattern_Join.
  - repeat constructor; done.
  - intros [|[|[|i]]] label Hl Hs; simpl in Hl; try discriminate Hl;
      injection Hl as <-; first [done | by vm_compute in Hs].
Defined.

(** ** [travel] and [getRoutes] *)

Lemma node_children_ind (Φ : node → Prop) :
  (∀ n, Forall Φ (children n) → Φ n) → ∀ n, Φ n.
Proof.
  intros H. fix IH 1. intros [p pt cs w]. apply H. simpl.
  induction cs as [|c cs IHcs]; constructor; [apply IH | apply IHcs].
Qed.

Lemma travel_eq n list0 :
  travel n list0 =
  fold_left (λ l child, travel child l) (children n)
    (if decide (pattern n = "") then list0 else list0 ++ [n]).
Proof. by destruct n. Qed.

Lemma travel_range cs :
  Forall (λ c, ∀ l, travel c l = l ++ travel c []) cs →
  ∀ l, fold_left (λ l child, travel child l) cs l
       = l ++ (cs ≫= λ c, travel c []).
Proof.
  induction 1 as [|c cs Hc _ IH]; intros l; simpl.
  - by rewrite app_nil_r.
  - by rewrite IH, Hc, <- app_assoc.
Qed.

Lemma travel_app n : ∀ l, travel n l = l ++ travel n [].
Proof.
  induction n as [n IH] using node_children_ind. intros l.
  rewrite !travel_eq, !(travel_range _ IH).
  destruct (decide _); simpl; by rewrite <- ?app_assoc.
Qed.

(** The list of a node: the node itself when it has a pattern, then the
    lists of its children. *)
Lemma travel_nil n :
  travel n [] =
  (if decide (pattern n = "") then [] else [n]) ++
  (children n ≫= λ c, travel c []).
Proof.
  rewrite travel_eq, travel_range; [done|].
  apply Forall_forall. intros c _. apply travel_app.
Qed.

Lemma elem_of_travel n : ∀ n',
  n' ∈ travel n [] ↔ ∃ labels, at_path n labels n' ∧ pattern n' ≠ "".
Proof.
  induction n as [n IH] using node_children_ind. intros n'.
  rewrite travel_nil, elem_of_app, list_elem_of_bind. split.
  - intros [Hown|(c & Hin & Hc)].
    + destruct (decide _); [by apply elem_of_nil in Hown|].
      apply list_elem_of_singleton in Hown as ->. exists []. split; [constructor | done].
    + apply (proj1 (Forall_forall _ _) IH c Hc) in Hin as (labels & Hat & Hne).
      exists (part c :: labels). split; [by apply at_child | done].
  - intros (labels & Hat & Hne).
    destruct (at_path_inv _ _ _ Hat) as [[-> ->]|(c & labels' & -> & Hc & Hat')].
    + left. rewrite decide_False by done. by apply list_elem_of_singleton.
    + right. exists c. split; [|done].
      apply (proj1 (Forall_forall _ _) IH c Hc). eauto.
Qed.

(** X3. On a router built by registrations, every node that [getRoutes]
    lists for a method has a non-empty pattern, which is one that was
    registered for this method, and has a handler in the table. *)
Theorem getRoutes_registered routes r method nodes n :
  register routes newRouter = Ok r →
  getRoutes r method = Some nodes → n ∈ nodes →
  pattern n ≠ "" ∧
  (∃ handler, (method, pattern n, handler) ∈ routes) ∧
  is_Some (handlers r !! route_key method (pattern n)).
Proof.
  intros Hreg Hget Hn. apply register_router_inv in Hreg as [Hh Hroots].
  unfold getRoutes in Hget. specialize (Hroots method).
  destruct (roots r !! method) as [root|]; [|done].
  injection Hget as <-. destruct Hroots as (_ & Hinv & _).
  apply elem_of_travel in Hn as (labels & Hat & Hne).
  destruct (Hinv _ _ Hat) as (_ & Hpat & _).
  destruct (Hpat Hne) as [Hin _].
  apply elem_of_patterns_of in Hin as [handler Hin]. eauto.
Qed.

Lemma getRoutes_registered_witness :
  ∃ r nodes n,
    register [("GET", "/a/:x", Return); ("POST", "/b", Return);
              ("GET", "/a", Return)] newRouter = Ok r ∧
    getRoutes r "GET" = Some nodes ∧ nodes !! 0 = Some n ∧
    pattern n ≠ "" ∧
    (∃ handler, ("GET", pattern n, handler) ∈
       [("GET", "/a/:x", Return); ("POST", "/b", Return); ("GET", "/a", Return)]) ∧
    is_Some (handlers r !! route_key "GET" (pattern n)).
Proof.
  eexists _, _, _. split; [vm_compute; reflexivity|].
  split; [vm_compute; reflexivity|]. split; [reflexivity|].
  eapply getRoutes_registered;
    [vm_compute; reflexivity | vm_compute; reflexivity | by left].
Defined.

(** X4. The node that [getRoute] returns for a method is among the nodes
    that [getRoutes] lists for this method; this holds on every router. *)
Theorem getRoute_listed r method path n params :
  getRoute r method path = Ok (Some (n, params)) →
  ∃ nodes, getRoutes r method = Some nodes ∧ n ∈ nodes.
Proof.
  intros (root & Hroot & Hs)%getRoute_Some_inv.
  unfold getRoutes. rewrite Hroot. eexists. split; [done|].
  apply search_leads in Hs as [Hl Hne]; [|lia]. rewrite drop_0 in Hl.
  apply at_path_length_leads in Hl as (labels & Hat & _).
  apply elem_of_travel. eauto.
Qed.

Lemma getRoute_listed_witness :
  ∃ r n params,
    register [("GET", "/a/:x", Return); ("GET", "/a", Return)] newRouter = Ok r ∧
    getRoute r "GET" "/a/7" = Ok (Some (n, params)) ∧
    ∃ nodes, getRoutes r "GET" = Some nodes ∧ n ∈ nodes.
Proof.
  eexists _, _, _. split; [vm_compute; reflexivity|].
  split; [vm_compute; reflexivity|].
  eapply (getRoute_listed _ _ "/a/7"). vm_compute; reflexivity.
Defined.

(** ** What a registration does to the list of routes *)

Lemma addRoute_inserted r method pattern0 handler r' :
  addRoute r method pattern0 handler = Ok r' →
  ∃ root',
    roots r' = <[method := root']> (roots r) ∧
    handlers r' = <[route_key method pattern0 := handler]> (handlers r) ∧
    inserted pattern0 (parsePattern pattern0) 0
      (default (mkNode "" "" [] false) (roots r !! method)) root'.
Proof.
  unfold addRoute.
  destruct (insert_inserted pattern0 (parsePattern pattern0)
              (parsePattern_nonempty _) 0 ltac:(lia)
              (default (mkNode "" "" [] false) (roots r !! method)))
    as (root' & -> & Hins); simpl.
  intros [= <-]. by exists root'.
Qed.

Lemma inserted_travel pattern0 parts height n n2 :
  inserted pattern0 parts height n n2 →
  ∃ before old after,
    pattern <$> travel n [] = before ++ old ++ after ∧
    pattern <$> travel n2 [] =
      before ++ (if decide (pattern0 = "") then [] else [pattern0]) ++ after ∧
    length old ≤ 1.
Proof.
  induction 1 as
    [n|h part0 n i child child' Hp Hi Ht Hfirst Hins IH
      |h part0 n child' Hp Hnone Hins IH].
  - exists [], (pattern <$> (if decide (pattern n = "") then [] else [n])),
      (pattern <$> (children n ≫= λ c, travel c [])).
    rewrite !travel_nil, !fmap_app. simpl. split; [done|]. split.
    + by destruct (decide (pattern0 = "")).
    + destruct (decide (pattern n = "")); simpl; lia.
  - destruct IH as (before & old & after & Hold & Hnew & Hlen).
    exists ((pattern <$> (if decide (pattern n = "") then [] else [n])) ++
            (pattern <$> (take i (children n) ≫= λ c, travel c [])) ++ before),
      old,
      (after ++ (pattern <$> (drop (S i) (children n) ≫= λ c, travel c []))).
    split; [|split; [|done]].
    + rewrite travel_nil, <- (take_drop_middle _ _ _ Hi) at 1.
      rewrite bind_app. simpl. rewrite !fmap_app, Hold.
      by rewrite <- !app_assoc.
    + rewrite travel_nil. simpl.
      rewrite insert_take_drop by (by eapply lookup_lt_Some).
      rewrite bind_app. simpl. rewrite !fmap_app, Hnew.
      destruct (decide (pattern n = "")); simpl; by rewrite <- !app_assoc.
  - destruct IH as (before & old & after & Hold & Hnew & Hlen).
    rewrite travel_nil in Hold. simpl in Hold.
    symmetry in Hold. apply app_eq_nil in Hold as [-> [-> ->]%app_eq_nil].
    exists (pattern <$> travel n []), [], [].
    split; [by rewrite app_nil_r|]. split; [|simpl; lia].
    rewrite (travel_nil (set_children _ _)).
    change (children (set_children ?cs _)) with cs.
    change (pattern (set_children _ ?m)) with (pattern m).
    rewrite (travel_nil n), bind_app, !fmap_app. simpl.
    rewrite app_nil_r, Hnew. simpl. rewrite app_nil_r.
    destruct (decide (pattern n = "")); simpl; by rewrite <- ?app_assoc.
Qed.

(** X5. [addRoute] changes the list of [getRoutes] for its method in one
    place: at most one listed pattern, that of the node where the new
    pattern ends, gives way to the new pattern; the other entries stay, in
    the same order.  An empty pattern is not listed. *)
Theorem addRoute_listed r method pattern0 handler r' :
  addRoute r method pattern0 handler = Ok r' →
  ∃ before old after,
    listed r method = before ++ old ++ after ∧
    listed r' method =
      before ++ (if decide (pattern0 = "") then [] else [pattern0]) ++ after ∧
    length old ≤ 1.
Proof.
  intros (root' & Hroots & _ & Hins)%addRoute_inserted.
  apply inserted_travel in Hins as (before & old & after & Hold & Hnew & Hlen).
  exists before, old, after. split; [|split; [|done]].
  - rewrite <- Hold. unfold listed, getRoutes.
    by destruct (roots r !! method).
  - rewrite <- Hnew. unfold listed, getRoutes.
    by rewrite Hroots, lookup_insert_eq.
Qed.

Lemma addRoute_listed_witness :
  ∃ r r',
    register [("GET", "/a/:x", Return); ("GET", "/a/:x/b", Return)] newRouter
    = Ok r ∧
    addRoute r "GET" "/a/:y" (Printf "y" Return) = Ok r' ∧
    ∃ before old after,
      listed r "GET" = before ++ old ++ after ∧
      listed r' "GET" =
        before ++ (if decide ("/a/:y" = "") then [] else ["/a/:y"]) ++ after ∧
      length old ≤ 1.
Proof.
  eexists _, _. split; [vm_compute; reflexivity|].
  split; [vm_compute; reflexivity|].
  eapply (addRoute_listed _ "GET" "/a/:y" (Printf "y" Return)).
  vm_compute; reflexivity.
Defined.

(** ** One wild child *)

(** What holds of the empty root and is kept by [insert] holds of every
    root of a router that registrations have built. *)
Lemma register_roots (Φ : node → Prop) :
  Φ (mkNode "" "" [] false) →
  (∀ pattern0 n n',
     inserted pattern0 (parsePattern pattern0) 0 n n' → Φ n → Φ n') →
  ∀ routes r r',
    (∀ method root, roots r !! method = Some root → Φ root) →
    register routes r = Ok r' →
    ∀ method root, roots r' !! method = Some root → Φ root.
Proof.
  intros Hroot Hstep routes.
  induction routes as [|[[method0 pattern0] handler] routes IH];
    intros r r' Hr; simpl.
  - intros [= <-]. done.
  - destruct (addRoute r method0 pattern0 handler) as [r1|] eqn:Hadd; [|done].
    simpl. apply IH.
    apply addRoute_inserted in Hadd as (root' & Hroots & _ & Hins).
    intros method root. rewrite Hroots.
    destruct (decide (method0 = method)) as [->|Hne].
    + rewrite lookup_insert_eq. intros [= <-].
      eapply Hstep; [done|].
      destruct (roots r !! method) as [root0|] eqn:Hroot0; simpl; eauto.
    + rewrite lookup_insert_ne by done. apply Hr.
Qed.

Lemma inserted_wild_tree pattern0 parts height n n2 :
  inserted pattern0 parts height n n2 → wild_tree n → wild_tree n2.
Proof.
  induction 1 as
    [n|h part0 n i child child' Hp Hi Ht Hfirst Hins IH
      |h part0 n child' Hp Hnone Hins IH]; intros Hn;
    inversion Hn as [? Hone Hsub]; subst.
  - by constructor.
  - destruct (inserted_part _ _ _ _ _ Hins) as [_ Hwild].
    assert (∀ j c, <[i:=child']> (children n) !! j = Some c →
                   ∃ c0, children n !! j = Some c0 ∧ isWild c0 = isWild c)
      as Hsame.
    { intros j c Hj. destruct (decide (i = j)) as [<-|Hne].
      - rewrite list_lookup_insert_eq in Hj by (by eapply lookup_lt_Some).
        injection Hj as <-. eauto.
      - rewrite list_lookup_insert_ne in Hj by done. eauto. }
    constructor; simpl.
    + intros j1 j2 c1 c2 (d1 & Hd1 & <-)%Hsame (d2 & Hd2 & <-)%Hsame. eauto.
    + intros c [->|Hc]%elem_of_list_insert_inv; [|by apply Hsub].
      apply IH, Hsub. by eapply list_elem_of_lookup_2.
  - destruct (inserted_part _ _ _ _ _ Hins) as [_ Hwild]. simpl in Hwild.
    assert (wild_tree child') as Hchild'.
    { apply IH. constructor; simpl; [by intros ? ? ? ? ?|by intros ? ?%elem_of_nil]. }
    assert (∀ j c, (children n ++ [child']) !! j = Some c → isWild c = true →
                   (children n !! j = Some c ∧ dyn part0 = false) ∨
                   (j = length (children n) ∧ dyn part0 = true ∧
                    ∀ c0, c0 ∈ children n → isWild c0 = false)) as Hcase.
    { intros j c Hj Hw. apply lookup_app_Some in Hj as [Hj|[Hge Hj]].
      - left. split; [done|]. destruct (dyn part0) eqn:Hd; [|done].
        destruct (Hnone c); [by eapply list_elem_of_lookup_2 | by right].
      - apply list_lookup_singleton_Some in Hj as [Hj ->]. right.
        split; [lia|]. rewrite Hwild in Hw. split; [done|].
        intros c0 Hc0. destruct (isWild c0) eqn:Hw0; [|done].
        destruct (Hnone c0 Hc0). by right. }
    constructor; simpl.
    + intros j1 j2 c1 c2 Hj1 Hj2 Hw1 Hw2.
      destruct (Hcase _ _ Hj1 Hw1) as [[Hc1 Hd1]|(-> & Hd1 & Hall1)],
               (Hcase _ _ Hj2 Hw2) as [[Hc2 Hd2]|(-> & Hd2 & Hall2)];
        try congruence; eauto.
    + intros c [Hc| ->%list_elem_of_singleton]%elem_of_app; [by apply Hsub | done].
Qed.

Lemma wild_tree_at_path n labels n' :
  at_path n labels n' → wild_tree n → wild_tree n'.
Proof.
  induction 1 as [|n c labels n' Hc _ IH]; [done|].
  intros Hn. inversion Hn; subst. eauto.
Qed.

Lemma filter_at_most_one {A} (P : A → Prop) `{∀ x, Decision (P x)} (l : list A) :
  (∀ i j x y, l !! i = Some x → l !! j = Some y → P x → P y → i = j) →
  length (filter P l) ≤ 1.
Proof.
  induction l as [|x l IH]; intros Hone; [simpl; lia|].
  rewrite filter_cons. destruct (decide (P x)) as [Hx|Hx].
  - rewrite filter_none; [simpl; lia|].
    intros y [j Hj]%list_elem_of_lookup Hy.
    by specialize (Hone 0 (S j) x y eq_refl Hj Hx Hy).
  - apply IH. intros i j y z Hi Hj Hy Hz.
    by specialize (Hone (S i) (S j) y z Hi Hj Hy Hz) as [= ->].
Qed.

(** X6. On a router built by registrations no node has two wild children:
    the second dynamic segment registered at a place goes into the child of
    the first one. *)
Theorem one_wild_child routes r method root labels n :
  register routes newRouter = Ok r →
  roots r !! method = Some root →
  at_path root labels n →
  length (filter (λ c, isWild c = true) (children n)) ≤ 1.
Proof.
  intros Hreg Hroot Hat.
  assert (wild_tree (mkNode "" "" [] false)) as Hbase.
  { constructor; simpl; [by intros ? ? ? ? ?|by intros ? ?%elem_of_nil]. }
  assert (wild_tree root) as Htree.
  { apply (register_roots wild_tree Hbase
             (λ P n1 n2 Hins, inserted_wild_tree _ _ _ _ _ Hins)
             routes newRouter r) with method; [|done..].
    intros ? ? Hl. simpl in Hl. by apply lookup_empty_Some in Hl. }
  apply (wild_tree_at_path _ _ _ Hat) in Htree.
  inversion Htree as [? Hone _]; subst.
  apply filter_at_most_one. eauto.
Qed.

Lemma one_wild_child_witness :
  ∃ r root n,
    register [("GET", "/a/:x/b", Return); ("GET", "/a/*y", Return);
              ("GET", "/a/c", Return)] newRouter = Ok r ∧
    roots r !! "GET" = Some root ∧ children root !! 0 = Some n ∧
    length (children n) = 2 ∧
    length (filter (λ c, isWild c = true) (children n)) ≤ 1.
Proof.
  set (routes := [("GET", "/a/:x/b", Return); ("GET", "/a/*y", Return);
                  ("GET", "/a/c", Return)]).
  set (r := match register routes newRouter with Ok r => r | Panic => newRouter end).
  exists r. eexists _, _. split; [vm_compute; reflexivity|].
  split; [vm_compute; reflexivity|]. split; [reflexivity|].
  split; [reflexivity|].
  eapply (one_wild_child routes r "GET" _ [_]).
  - vm_compute; reflexivity.
  - vm_compute; reflexivity.
  - apply at_child; [apply list_elem_of_here | apply at_here].
Defined.

(** ** What a match says of the request *)

Lemma pmatch_lookup pparts : ∀ sparts i p,
  star_last pparts → pmatch pparts sparts = true →
  pparts !! i = Some p → dyn p = false → sparts !! i = Some p.
Proof.
  induction pparts as [|p0 pparts IH]; intros [|seg sparts] i p Hstar Hm Hi Hp;
    try done.
  rewrite pmatch_cons in Hm. destruct (HasPrefix p0 "*") eqn:Hs.
  - specialize (Hstar 0 p0 eq_refl Hs). destruct pparts; [|done].
    destruct i; [|done]. injection Hi as ->.
    apply HasPrefix_star_dyn in Hs. congruence.
  - apply andb_true_iff in Hm as [Hhead Hm]. destruct i as [|i].
    + injection Hi as ->. rewrite Hp, orb_false_r in Hhead.
      by apply bool_decide_eq_true in Hhead as ->.
    + simpl in *. eapply IH; [|done..].
      intros j l Hj Hl. specialize (Hstar (S j) l Hj Hl). simpl in Hstar. lia.
Qed.

(** X7. On a router built by registrations, the pattern of the node that
    [getRoute] returns was registered for the method and has a handler in
    the table; it has no more parts than the request has segments; and each
    of its static parts is the segment of the request at the same place. *)
Theorem getRoute_result routes r method path n params :
  register routes newRouter = Ok r →
  getRoute r method path = Ok (Some (n, params)) →
  (∃ handler, (method, pattern n, handler) ∈ routes) ∧
  is_Some (handlers r !! route_key method (pattern n)) ∧
  length (parsePattern (pattern n)) ≤ length (parsePattern path) ∧
  ∀ i p, parsePattern (pattern n) !! i = Some p → dyn p = false →
         parsePattern path !! i = Some p.
Proof.
  intros [Hh Hroots]%register_router_inv (root & Hroot & Hs)%getRoute_Some_inv.
  specialize (Hroots method). rewrite Hroot in Hroots.
  destruct Hroots as (Hpart & Hinv & _).
  apply search_leads in Hs as [Hl Hne]; [|lia]. rewrite drop_0 in Hl.
  destruct (leads_depth _ _ _ _ Hinv Hl Hne) as [Hin Hlen].
  pose proof Hin as [handler Hreg]%elem_of_patterns_of.
  split; [by eauto|]. split; [by eauto|]. split; [done|].
  destruct (leads_labels _ _ _ _ Hl [] Hinv) as (labels & Hat & Hm & Hstar).
  { by rewrite Hpart. }
  destruct (Hinv _ _ Hat) as (_ & Hpat & _).
  destruct (Hpat Hne) as [_ Hsim]. simpl in Hsim.
  intros i p Hi Hp.
  destruct (Forall2_lookup_l _ _ _ _ _ Hsim Hi) as (l & Hli & [->|[Hd _]]);
    [|congruence].
  by eapply pmatch_lookup.
Qed.

Lemma getRoute_result_witness :
  ∃ r n params,
    register [("GET", "/a/*x", Return); ("GET", "/a/:y/b", Printf "b" Return)]
      newRouter = Ok r ∧
    getRoute r "GET" "/a/k/z" = Ok (Some (n, params)) ∧
    (∃ handler, ("GET", pattern n, handler) ∈
       [("GET", "/a/*x", Return); ("GET", "/a/:y/b", Printf "b" Return)]) ∧
    is_Some (handlers r !! route_key "GET" (pattern n)) ∧
    length (parsePattern (pattern n)) ≤ length (parsePattern "/a/k/z") ∧
    ∀ i p, parsePattern (pattern n) !! i = Some p → dyn p = false →
           parsePattern "/a/k/z" !! i = Some p.
Proof.
  set (routes := [("GET", "/a/*x", Return); ("GET", "/a/:y/b", Printf "b" Return)]).
  set (r := match register routes newRouter with Ok r => r | Panic => newRouter end).
  exists r. eexists _, _. split; [vm_compute; reflexivity|].
  split; [vm_compute; reflexivity|].
  eapply (getRoute_result routes r "GET" "/a/k/z"); vm_compute; reflexivity.
Defined.

(** ** The parameters of any matched route *)

Lemma getRoute_range_frame parts : ∀ index0 searchParts params params' key,
  getRoute_range parts index0 searchParts params = Ok params' →
  (∀ b, is_dyn_byte b = true → String b key ∉ parts) →
  params' !! key = params !! key.
Proof.
  induction parts as [|[|c0 name] parts IH];
    intros index0 searchParts params params' key Hget Hkey; simpl in Hget.
  - by injection Hget as <-.
  - done.
  - assert (is_dyn_byte c0 = true → name ≠ key) as Hname.
    { intros Hc ->. apply (Hkey c0 Hc). by left. }
    assert (∀ b, is_dyn_byte b = true → String b key ∉ parts) as Hrest.
    { intros b Hb Hin. apply (Hkey b Hb). by right. }
    destruct (decide (c0 = ":"%char)) as [->|Hcolon].
    + destruct (at_index searchParts index0) as [v|]; [|done]. simpl in Hget.
      rewrite (IH _ _ _ _ _ Hget Hrest).
      by rewrite lookup_insert_ne by (by apply Hname).
    + simpl in Hget. destruct (decide _) as [[-> _]|_].
      * destruct (slice_from searchParts index0) as [rest|]; [|done].
        injection Hget as <-. by rewrite lookup_insert_ne by (by apply Hname).
      * by rewrite (IH _ _ _ _ _ Hget Hrest).
Qed.

Lemma getRoute_range_bound parts : ∀ index0 searchParts params params' i name,
  star_last parts →
  getRoute_range parts index0 searchParts params = Ok params' →
  (parts !! i = Some (String ":"%char name) →
   (∀ j b, i < j → is_dyn_byte b = true → parts !! j ≠ Some (String b name)) →
   ∃ seg, searchParts !! (index0 + i) = Some seg ∧ params' !! name = Some seg) ∧
  (parts !! i = Some (String "*"%char name) → name ≠ "" →
   params' !! name = Some (Join (drop (index0 + i) searchParts) "/")).
Proof.
  induction parts as [|[|c0 name0] parts IH];
    intros index0 searchParts params params' i name Hstar Hget; [done..|].
  simpl in Hget.
  assert (star_last parts) as Hstar'.
  { intros j l Hj Hl. specialize (Hstar (S j) l Hj Hl). simpl in Hstar. lia. }
  destruct i as [|i]; simpl.
  - split.
    + intros [= -> ->] Hlater. rewrite decide_True in Hget by done.
      unfold at_index in Hget.
      destruct (searchParts !! index0) as [v|] eqn:Hv; [|done]. simpl in Hget.
      exists v. rewrite Nat.add_0_r. split; [done|].
      rewrite (getRoute_range_frame _ _ _ _ _ name Hget), lookup_insert_eq; [done|].
      intros b Hb [j Hj]%list_elem_of_lookup.
      by apply (Hlater (S j) b ltac:(lia) Hb).
    + intros [= -> ->] Hname. rewrite decide_False in Hget by done.
      simpl in Hget. rewrite decide_True in Hget; last first.
      { split; [done|]. destruct name; [done | simpl; lia]. }
      unfold slice_from in Hget. destruct (decide _); [|done].
      injection Hget as <-. by rewrite Nat.add_0_r, lookup_insert_eq.
  - assert (parts ≠ [] → c0 ≠ "*"%char) as Hc0.
    { intros Hparts ->. specialize (Hstar 0 _ eq_refl eq_refl).
      by destruct parts. }
    replace (index0 + S i) with (S index0 + i) by lia.
    assert (∀ params1,
      (if decide (c0 = "*"%char ∧ 1 < String.length (String c0 name0))
       then rest ← slice_from searchParts index0;
            Ok (<[name0 := Join rest "/"]> params1)
       else getRoute_range parts (S index0) searchParts params1) = Ok params' →
      parts ≠ [] →
      getRoute_range parts (S index0) searchParts params1 = Ok params') as Hgo.
    { intros params1 H Hparts. rewrite decide_False in H; [done|].
      intros [? _]. by apply Hc0. }
    split.
    + intros Hi Hlater.
      assert (parts ≠ []) as Hparts by (by intros ->).
      destruct (decide (c0 = ":"%char)).
      * destruct (at_index searchParts index0) as [v|]; [|done]. simpl in Hget.
        apply Hgo in Hget; [|done].
        apply (IH _ _ _ _ i name Hstar' Hget); [done|].
        intros j b Hj Hb. apply (Hlater (S j) b); [lia | done].
      * simpl in Hget. apply Hgo in Hget; [|done].
        apply (IH _ _ _ _ i name Hstar' Hget); [done|].
        intros j b Hj Hb. apply (Hlater (S j) b); [lia | done].
    + intros Hi Hname.
      assert (parts ≠ []) as Hparts by (by intros ->).
      destruct (decide (c0 = ":"%char)).
      * destruct (at_index searchParts index0) as [v|]; [|done]. simpl in Hget.
        apply Hgo in Hget; [|done].
        by apply (IH _ _ _ _ i name Hstar' Hget).
      * simpl in Hget. apply Hgo in Hget; [|done].
        by apply (IH _ _ _ _ i name Hstar' Hget).
Qed.

(** X8. After [getRoute] has matched a request, [Param] returns, for a part
    [:name] of the matched pattern whose name no later part binds again, the
    segment of the request at the place of the part, and for a part [*name]
    with a name, the segments from its place on, joined with slashes. *)
Theorem Param_bound r method path n params c :
  getRoute r method path = Ok (Some (n, params)) →
  Params c = params →
  ∀ i name,
    (parsePattern (pattern n) !! i = Some (String ":"%char name) →
     (∀ j b, i < j → is_dyn_byte b = true →
             parsePattern (pattern n) !! j ≠ Some (String b name)) →
     ∃ seg, parsePattern path !! i = Some seg ∧ Param c name = seg) ∧
    (parsePattern (pattern n) !! i = Some (String "*"%char name) →
     name ≠ "" →
     Param c name = Join (drop i (parsePattern path)) "/").
Proof.
  intros Hget Hc i name.
  pose proof Hget as (root & Hroot & Hs)%getRoute_Some_inv.
  unfold getRoute in Hget. rewrite Hroot, Hs in Hget. simpl in Hget.
  destruct (getRoute_range _ _ _ _) as [params0|] eqn:Hrange; [|done].
  injection Hget as ->.
  destruct (getRoute_range_bound _ _ _ _ _ i name
              (parsePattern_star_last _) Hrange) as [Hcolon Hstar].
  unfold Param. rewrite Hc. split.
  - intros Hi Hlater. destruct (Hcolon Hi Hlater) as (seg & Hseg & ->). eauto.
  - intros Hi Hname. by rewrite (Hstar Hi Hname).
Qed.

Lemma Param_bound_witness :
  ∃ r n params,
    register [("GET", "/p/:lang/:page/*rest", Return)] newRouter = Ok r ∧
    getRoute r "GET" "/p/go/doc/a/b" = Ok (Some (n, params)) ∧
    (∃ seg, parsePattern "/p/go/doc/a/b" !! 1 = Some seg ∧
            Param (mkContext "GET" "/p/go/doc/a/b" params 0 0) "lang" = seg) ∧
    Param (mkContext "GET" "/p/go/doc/a/b" params 0 0) "rest" = "a/b".
Proof.
  set (r := match register [("GET", "/p/:lang/:page/*rest", Return)] newRouter
            with Ok r => r | Panic => newRouter end).
  exists r. eexists _, _. split; [vm_compute; reflexivity|].
  split; [vm_compute; reflexivity|].
  split.
  - eapply (Param_bound r "GET" "/p/go/doc/a/b" _ _
              (mkContext "GET" "/p/go/doc/a/b" _ 0 0)
              ltac:(vm_compute; reflexivity) eq_refl 1 "lang").
    + vm_compute; reflexivity.
    + intros [|[|[|[|j]]]] b Hj Hb; try lia; vm_compute; congruence.
  - eapply (Param_bound r "GET" "/p/go/doc/a/b" _ _
              (mkContext "GET" "/p/go/doc/a/b" _ 0 0)
              ltac:(vm_compute; reflexivity) eq_refl 3 "rest");
      [vm_compute; reflexivity | done].
Defined.

(** X9. After [getRoute] has matched a request, a key that no [:] or [*]
    part of the matched pattern names is not bound, and [Param] returns the
    empty string for it. *)
Theorem Param_unnamed r method path n params c key :
  getRoute r method path = Ok (Some (n, params)) →
  Params c = params →
  (∀ b, is_dyn_byte b = true → String b key ∉ parsePattern (pattern n)) →
  Params c !! key = None ∧ Param c key = "".
Proof.
  intros Hget Hc Hkey.
  pose proof Hget as (root & Hroot & Hs)%getRoute_Some_inv.
  unfold getRoute in Hget. rewrite Hroot, Hs in Hget. simpl in Hget.
  destruct (getRoute_range _ _ _ _) as [params0|] eqn:Hrange; [|done].
  injection Hget as ->.
  unfold Param. rewrite Hc, (getRoute_range_frame _ _ _ _ _ key Hrange Hkey).
  by rewrite lookup_empty.
Qed.

Lemma Param_unnamed_witness :
  ∃ r n params,
    register [("GET", "/hello/:name", Return)] newRouter = Ok r ∧
    getRoute r "GET" "/hello/zinc" = Ok (Some (n, params)) ∧
    Params (mkContext "GET" "/hello/zinc" params 0 0) !! "id" = None ∧
    Param (mkContext "GET" "/hello/zinc" params 0 0) "id" = "".
Proof.
  set (r := match register [("GET", "/hello/:name", Return)] newRouter
            with Ok r => r | Panic => newRouter end).
  exists r. eexists _, _. split; [vm_compute; reflexivity|].
  split; [vm_compute; reflexivity|].
  eapply (Param_unnamed r "GET" "/hello/zinc" _ _
            (mkContext "GET" "/hello/zinc" _ 0 0) "id"
            ltac:(vm_compute; reflexivity) eq_refl).
  intros b Hb Hin. vm_compute in Hin.
  repeat (apply elem_of_cons in Hin as [Hin|Hin]; [discriminate Hin|]).
  by apply elem_of_nil in Hin.
Defined.

(** ** Methods are apart *)

(** X10. Registering a route for one method changes neither what [getRoute]
    returns nor what [getRoutes] lists for another method. *)
Theorem addRoute_other_method r method pattern0 handler r' method' :
  addRoute r method pattern0 handler = Ok r' →
  method' ≠ method →
  (∀ path, getRoute r' method' path = getRoute r method' path) ∧
  getRoutes r' method' = getRoutes r method'.
Proof.
  intros (root' & Hroots & _)%addRoute_inserted Hne.
  unfold getRoute, getRoutes. rewrite Hroots.
  by rewrite lookup_insert_ne by done.
Qed.

Lemma addRoute_other_method_witness :
  ∃ r r',
    register [("GET", "/a", Return)] newRouter = Ok r ∧
    addRoute r "POST" "/a/:x" Return = Ok r' ∧
    (∀ path, getRoute r' "GET" path = getRoute r "GET" path) ∧
    getRoutes r' "GET" = getRoutes r "GET".
Proof.
  eexists _, _. split; [vm_compute; reflexivity|].
  split; [vm_compute; reflexivity|].
  eapply (addRoute_other_method _ "POST" "/a/:x" Return);
    [vm_compute; reflexivity | done].
Defined.

(** ** A method with one pattern *)

(** What holds of the empty root for no pattern, and is kept by [insert]
    with the inserted pattern put last, holds of the root of a method for
    the patterns registered for it. *)
Lemma register_patterns (Φ : list string → node → Prop) method :
  Φ [] (mkNode "" "" [] false) →
  (∀ Ps pattern0 n n',
     inserted pattern0 (parsePattern pattern0) 0 n n' →
     Φ Ps n → Φ (Ps ++ [pattern0]) n') →
  ∀ routes r root,
    register routes newRouter = Ok r →
    roots r !! method = Some root →
    Φ (patterns_of method routes) root.
Proof.
  intros Hbase Hstep.
  assert (∀ routes done r0 r,
    Φ (patterns_of method done)
      (default (mkNode "" "" [] false) (roots r0 !! method)) →
    register routes r0 = Ok r →
    Φ (patterns_of method (done ++ routes))
      (default (mkNode "" "" [] false) (roots r !! method))) as Hall.
  { induction routes as [|[[method0 pattern0] handler] routes IH];
      intros done r0 r Hdone; simpl.
    - intros [= <-]. by rewrite app_nil_r.
    - destruct (addRoute r0 method0 pattern0 handler) as [r1|] eqn:Hadd; [|done].
      simpl. intros Hreg.
      replace (done ++ (method0, pattern0, handler) :: routes)
        with ((done ++ [(method0, pattern0, handler)]) ++ routes)
        by (by rewrite <- app_assoc).
      apply (IH _ r1); [|done].
      apply addRoute_inserted in Hadd as (root' & Hroots & _ & Hins).
      rewrite patterns_of_app, Hroots. simpl.
      destruct (decide (method0 = method)) as [->|Hne].
      + rewrite lookup_insert_eq. simpl. by eapply Hstep.
      + rewrite lookup_insert_ne by done. by rewrite app_nil_r. }
  intros routes r root Hreg Hroot.
  specialize (Hall routes [] newRouter r Hbase Hreg).
  by rewrite Hroot in Hall.
Qed.

Lemma matchChild_range_none cs part0 :
  part0 ≠ "" → (∀ c', c' ∈ cs → ¬ takes part0 c') →
  matchChild_range cs part0 = Ok None.
Proof.
  intros Hne Hnone.
  destruct (matchChild_range_spec cs part0 Hne) as ([[i c]|] & -> & Hm); [|done].
  destruct Hm as (Hi & Ht & _).
  destruct (Hnone c); [by eapply list_elem_of_lookup_2 | done].
Qed.

(** [insert] builds the tree that [inserted] describes, and no other. *)
Lemma inserted_insert pattern0 parts height n n' :
  Forall (λ seg, seg ≠ "") parts →
  inserted pattern0 parts height n n' →
  insert n pattern0 parts height = Ok n'.
Proof.
  intros Hparts. induction 1 as
    [n|h part0 n i child child' Hp Hi Ht Hfirst Hins IH
      |h part0 n child' Hp Hnone Hins IH]; rewrite insert_eq.
  - by rewrite decide_True by done.
  - assert (part0 ≠ "") as Hpart0 by (by eapply lookup_nonempty).
    pose proof (lookup_lt_Some _ _ _ Hp) as Hlt.
    rewrite decide_False by lia. rewrite Hp. unfold matchChild.
    rewrite (matchChild_range_first _ part0 i child) by done. simpl.
    by rewrite IH.
  - assert (part0 ≠ "") as Hpart0 by (by eapply lookup_nonempty).
    pose proof (lookup_lt_Some _ _ _ Hp) as Hlt.
    rewrite decide_False by lia. rewrite Hp. unfold matchChild.
    rewrite matchChild_range_none by done. simpl.
    destruct (byte0_Ok part0 Hpart0) as (c0 & -> & Hd). simpl.
    by rewrite <- Hd, IH.
Qed.

Lemma inserted_at_end pattern0 parts n n' :
  inserted pattern0 parts (length parts) n n' → n' = set_pattern pattern0 n.
Proof.
  inversion 1 as [|? ? ? ? ? ? Hp|? ? ? ? Hp]; subst; [done|..];
    apply lookup_lt_Some in Hp; lia.
Qed.

(** The tree that [insert] builds below a new node is one branch, and
    [search] goes down it as [pmatch] goes through the parts. *)
Lemma inserted_fresh_search pattern0 parts height n n2 :
  pattern0 ≠ "" → star_last parts →
  inserted pattern0 parts height n n2 →
  pattern n = "" → children n = [] → isWild n = dyn (part n) →
  HasPrefix (part n) "*" = false →
  ∀ segs, height ≤ length segs →
    match search n2 segs height with
    | Ok (Some n') =>
        pattern n' = pattern0 ∧
        pmatch (drop height parts) (drop height segs) = true
    | Ok None => pmatch (drop height parts) (drop height segs) = false
    | Panic => False
    end.
Proof.
  intros HP Hstar. induction 1 as
    [n|h part0 n i child child' Hp Hi Ht Hfirst Hins IH
      |h part0 n child' Hp Hnone Hins IH];
    intros Hpat Hcs Hflag Hns segs Hh; rewrite search_eq.
  - rewrite drop_all. unfold set_pattern. cbn [part pattern children isWild].
    destruct (decide (length segs = length parts ∨ _)) as [[Hlen|Hs]|Hnot].
    + rewrite decide_False by done. by rewrite <- Hlen, drop_all.
    + congruence.
    + destruct (segs !! length parts) as [seg|] eqn:Hseg.
      * unfold matchChildren. cbn [part pattern children isWild].
        rewrite Hcs. simpl. by rewrite (drop_S _ _ _ Hseg).
      * apply lookup_ge_None in Hseg. destruct Hnot. left. lia.
  - rewrite Hcs in Hi. done.
  - destruct (inserted_part _ _ _ _ _ Hins) as [Hpart Hwild].
    simpl in Hpart, Hwild. unfold set_children.
    cbn [part pattern children isWild]. rewrite (drop_S _ _ _ Hp).
    destruct (decide (length segs = h ∨ _)) as [[Hlen|Hs]|Hnot].
    + rewrite decide_True by done. by rewrite <- Hlen, drop_all.
    + congruence.
    + destruct (segs !! h) as [seg|] eqn:Hseg; last first.
      { apply lookup_ge_None in Hseg. destruct Hnot. left. lia. }
      rewrite (drop_S _ _ _ Hseg), pmatch_cons.
      rewrite matchChildren_filter. cbn [part pattern children isWild].
      rewrite Hcs. cbn [app].
      rewrite !filter_cons, !filter_nil, Hpart, Hwild.
      apply lookup_lt_Some in Hseg.
      destruct (HasPrefix part0 "*") eqn:Hs0.
      * pose proof (Hstar h part0 Hp Hs0) as Hlast.
        rewrite <- Hlast in Hins. apply inserted_at_end in Hins as ->.
        pose proof (HasPrefix_star_dyn _ Hs0) as Hd0.
        assert (search (set_pattern pattern0
                  (mkNode "" part0 [] (dyn part0))) segs (S h)
                = Ok (Some (set_pattern pattern0
                              (mkNode "" part0 [] (dyn part0))))) as Hchild.
        { rewrite search_eq. simpl. rewrite decide_True by (by right).
          by rewrite decide_False. }
        destruct (decide (part0 = seg)); simpl.
        -- by rewrite Hchild.
        -- rewrite decide_True by done. simpl. by rewrite Hchild.
      * specialize (IH eq_refl eq_refl eq_refl Hs0 segs ltac:(lia)).
        destruct (decide (part0 = seg)) as [->|Hne]; simpl.
        -- rewrite bool_decide_eq_true_2 by done.
           rewrite (decide_False (P := seg ≠ seg ∧ _)) by (by intros [? _]).
           simpl. destruct (search child' segs (S h)) as [[n'|]|]; done.
        -- rewrite bool_decide_eq_false_2 by done. simpl.
           destruct (dyn part0) eqn:Hd0.
           ++ rewrite decide_True by done. simpl.
              destruct (search child' segs (S h)) as [[n'|]|]; done.
           ++ by rewrite decide_False by (by intros [_ ?]).
Qed.

(** X11. When all the registrations of a method are of one non-empty
    pattern, [getRoute] finds a route for exactly the requests that the
    pattern matches (a literal part matching itself, a [:name] part one
    segment, a [*name] part the segments that remain, at least one), and
    the node it returns carries this pattern. *)
Theorem single_pattern_exact routes r method pattern0 path :
  register routes newRouter = Ok r →
  pattern0 ≠ "" →
  pattern0 ∈ patterns_of method routes →
  (∀ Q, Q ∈ patterns_of method routes → Q = pattern0) →
  match getRoute r method path with
  | Ok (Some (n, _)) =>
      pattern n = pattern0 ∧
      pmatch (parsePattern pattern0) (parsePattern path) = true
  | Ok None => pmatch (parsePattern pattern0) (parsePattern path) = false
  | Panic => False
  end.
Proof.
  intros Hreg HP Hin Hall.
  pose proof (register_router_inv _ _ Hreg) as [Hh Hroots].
  specialize (Hroots method).
  destruct (roots r !! method) as [root|] eqn:Hroot;
    [|rewrite Hroots in Hin; by apply elem_of_nil in Hin].
  pose proof (register_patterns
    (λ Ps root, (∀ Q, Q ∈ Ps → Q = pattern0) →
       (Ps = [] ∧ root = mkNode "" "" [] false) ∨
       inserted pattern0 (parsePattern pattern0) 0 (mkNode "" "" [] false) root)
    method) as Hone.
  assert (inserted pattern0 (parsePattern pattern0) 0 (mkNode "" "" [] false) root)
    as Hins.
  { destruct (Hone ltac:(by left)) with routes r root as [[Hnil _]|?];
      [|done..| |done].
    - intros Ps Q n n' Hins HPs HallQ.
      assert (Q = pattern0) as ->.
      { apply HallQ, elem_of_app. right. by apply list_elem_of_singleton. }
      right. destruct HPs as [[_ ->]|Hn]; [|done|].
      { intros Q HQ. apply HallQ, elem_of_app. by left. }
      pose proof (inserted_again _ _ _ _ _ (parsePattern_nonempty _) Hn) as Hsame.
      rewrite (inserted_insert _ _ _ _ _ (parsePattern_nonempty _) Hins) in Hsame.
      by injection Hsame as ->.
    - rewrite Hnil in Hin. by apply elem_of_nil in Hin. }
  pose proof (inserted_fresh_search _ _ _ _ _ HP (parsePattern_star_last _) Hins
                eq_refl eq_refl eq_refl eq_refl (parsePattern path) ltac:(lia))
    as Hsearch.
  rewrite !drop_0 in Hsearch.
  destruct (search root (parsePattern path) 0) as [[n|]|] eqn:Hs; [| |done].
  - destruct (getRoute_found _ _ _ _ _ _ (conj Hh
      (proj2 (register_router_inv _ _ Hreg))) Hroot Hs) as (params & -> & _).
    done.
  - unfold getRoute. by rewrite Hroot, Hs.
Qed.

Lemma single_pattern_exact_witness :
  ∃ r,
    register [("POST", "/x", Return); ("GET", "/p/:lang/*rest", Return);
              ("GET", "/p/:lang/*rest", Printf "again" Return)] newRouter
    = Ok r ∧
    match getRoute r "GET" "/p/go/a/b" with
    | Ok (Some (n, _)) =>
        pattern n = "/p/:lang/*rest" ∧
        pmatch (parsePattern "/p/:lang/*rest") (parsePattern "/p/go/a/b") = true
    | Ok None =>
        pmatch (parsePattern "/p/:lang/*rest") (parsePattern "/p/go/a/b") = false
    | Panic => False
    end.
Proof.
  set (routes := [("POST", "/x", Return); ("GET", "/p/:lang/*rest", Return);
                  ("GET", "/p/:lang/*rest", Printf "again" Return)]).
  set (r := match register routes newRouter with Ok r => r | Panic => newRouter end).
  exists r. split; [vm_compute; reflexivity|].
  apply (single_pattern_exact routes r "GET" "/p/:lang/*rest" "/p/go/a/b").
  - vm_compute; reflexivity.
  - done.
  - simpl. by left.
  - intros Q HQ. simpl in HQ.
    repeat (apply elem_of_cons in HQ as [->|HQ]; [done|]).
    by apply elem_of_nil in HQ.
Defined.

(** ** The table of handlers *)

Lemma append_String c s t : String c s +:+ t = String c (s +:+ t).
Proof. done. Qed.

Lemma append_empty s : "" +:+ s = s.
Proof. done. Qed.

Lemma append_assoc s1 s2 s3 : (s1 +:+ s2) +:+ s3 = s1 +:+ s2 +:+ s3.
Proof.
  induction s1 as [|c s1 IH]; [done|]. by rewrite !append_String, IH.
Qed.

Lemma route_key_inj method pattern0 method' pattern' :
  has_byte "-"%char method = false → has_byte "-"%char method' = false →
  route_key method pattern0 = route_key method' pattern' →
  method = method' ∧ pattern0 = pattern'.
Proof.
  unfold route_key. revert method'.
  induction method as [|c method IH]; intros [|c' method']; simpl;
    intros H1 H2 Heq; rewrite ?append_String, ?append_empty in Heq.
  - by injection Heq as ->.
  - injection Heq as <- _. apply orb_false_iff in H2 as [Hc _].
    by apply bool_decide_eq_false in Hc.
  - injection Heq as -> _. apply orb_false_iff in H1 as [Hc _].
    by apply bool_decide_eq_false in Hc.
  - injection Heq as -> Heq.
    apply orb_false_iff in H1 as [_ Hm]. apply orb_false_iff in H2 as [_ Hm'].
    destruct (IH _ Hm Hm' Heq) as [-> ->]. done.
Qed.

Lemma register_handlers method pattern0 routes : ∀ r0 r,
  has_byte "-"%char method = false →
  Forall (λ route, has_byte "-"%char route.1.1 = false) routes →
  register routes r0 = Ok r →
  handlers r !! route_key method pattern0 =
  match last_handler method pattern0 routes with
  | Some h => Some h
  | None => handlers r0 !! route_key method pattern0
  end.
Proof.
  intros r0 r Hm. revert r0.
  induction routes as [|[[method' pattern'] handler] routes IH];
    intros r0 Hall; simpl.
  - by intros [= <-].
  - destruct (addRoute r0 method' pattern' handler) as [r1|] eqn:Hadd; [|done].
    simpl. intros Hreg. inversion Hall as [|? ? Hm' Hrest]; subst. simpl in Hm'.
    rewrite (IH r1 Hrest Hreg).
    destruct (last_handler method pattern0 routes); [done|].
    apply addRoute_inserted in Hadd as (_ & _ & -> & _).
    destruct (decide (method' = method ∧ pattern' = pattern0)) as [[-> ->]|Hne].
    + by rewrite lookup_insert_eq.
    + rewrite lookup_insert_ne; [done|].
      intros Hkey. apply route_key_inj in Hkey as [? ?]; [|done..]. by destruct Hne.
Qed.

(** X12. For methods without the byte [-], the handler stored under the key
    of a method and a pattern is the handler of the last registration of
    this method and this pattern, and there is none when there was no such
    registration. *)
Theorem handler_of_last_registration routes r method pattern0 :
  register routes newRouter = Ok r →
  has_byte "-"%char method = false →
  Forall (λ route, has_byte "-"%char route.1.1 = false) routes →
  handlers r !! route_key method pattern0 = last_handler method pattern0 routes.
Proof.
  intros Hreg Hm Hall.
  rewrite (register_handlers _ _ _ _ _ Hm Hall Hreg).
  by destruct (last_handler method pattern0 routes).
Qed.

Lemma handler_of_last_registration_witness :
  ∃ r,
    register [("GET", "/a", Printf "one" Return); ("POST", "/a", Return);
              ("GET", "/a", Printf "two" Return)] newRouter = Ok r ∧
    handlers r !! route_key "GET" "/a" = Some (Printf "two" Return).
Proof.
  set (routes := [("GET", "/a", Printf "one" Return); ("POST", "/a", Return);
                  ("GET", "/a", Printf "two" Return)]).
  set (r := match register routes newRouter with Ok r => r | Panic => newRouter end).
  exists r. split; [vm_compute; reflexivity|].
  rewrite (handler_of_last_registration routes r "GET" "/a").
  - reflexivity.
  - vm_compute; reflexivity.
  - reflexivity.
  - repeat constructor.
Defined.

(** X13. The key [method + "-" + pattern] does not tell where the method
    ends: registering the method [m-x] with the pattern [p], then the method
    [m] with the pattern [x-p], leaves the second handler under the key of
    the first route.  The registrations themselves never panic. *)
Theorem route_key_collision r method x pattern0 h1 h2 :
  ∃ r1 r2,
    addRoute r (method +:+ "-" +:+ x) pattern0 h1 = Ok r1 ∧
    addRoute r1 method (x +:+ "-" +:+ pattern0) h2 = Ok r2 ∧
    handlers r2 !! route_key (method +:+ "-" +:+ x) pattern0 = Some h2.
Proof.
  assert (∀ r m P h, ∃ r', addRoute r m P h = Ok r') as Htotal.
  { intros r0 m P h. unfold addRoute.
    destruct (insert_inserted P (parsePattern P) (parsePattern_nonempty _) 0
                ltac:(lia) (default (mkNode "" "" [] false) (roots r0 !! m)))
      as (root' & -> & _). simpl. eauto. }
  destruct (Htotal r (method +:+ "-" +:+ x) pattern0 h1) as [r1 Hr1].
  destruct (Htotal r1 method (x +:+ "-" +:+ pattern0) h2) as [r2 Hr2].
  exists r1, r2. split; [done|]. split; [done|].
  apply addRoute_inserted in Hr2 as (_ & _ & -> & _).
  assert (route_key (method +:+ "-" +:+ x) pattern0
          = route_key method (x +:+ "-" +:+ pattern0)) as ->.
  { unfold route_key. by rewrite !append_assoc. }
  by rewrite lookup_insert_eq.
Qed.

(** ** The order in which handlers are entered *)

Lemma enters_app evs1 evs2 : enters (evs1 ++ evs2) = enters evs1 ++ enters evs2.
Proof. apply omap_app. Qed.

Lemma remaining_cap handlers0 s :
  remaining handlers0 s =
  Z.to_nat (Z.of_nat (length handlers0) - cap handlers0 s).
Proof. unfold remaining, cap. lia. Qed.

Lemma ordered_refl handlers0 strict s o :
  final o = s → ordered handlers0 strict s o.
Proof.
  intros <-. exists []. rewrite app_nil_r. split; [done|]. split; [lia|].
  split; constructor.
Qed.

(** Events that enter no handler, before the run. *)
Lemma ordered_seq handlers0 strict s s1 o evs0 :
  trace s1 = trace s ++ evs0 → enters evs0 = [] →
  (cap handlers0 s ≤ cap handlers0 s1)%Z →
  ordered handlers0 strict s1 o → ordered handlers0 strict s o.
Proof.
  intros Htr0 Hno Hcap0 (evs & Htr & Hcap & Hs & Hall).
  exists (evs0 ++ evs). rewrite enters_app, Hno. simpl.
  split; [by rewrite Htr, Htr0, app_assoc|]. split; [lia|]. split; [done|].
  eapply Forall_impl; [done|]. simpl. destruct strict; lia.
Qed.

(** Events that enter no handler, after the run. *)
Lemma ordered_extend handlers0 strict s o o2 evs0 :
  ordered handlers0 strict s o →
  trace (final o2) = trace (final o) ++ evs0 → enters evs0 = [] →
  (cap handlers0 (final o) ≤ cap handlers0 (final o2))%Z →
  ordered handlers0 strict s o2.
Proof.
  intros (evs & Htr & Hcap & Hs & Hall) Htr0 Hno Hcap0.
  exists (evs ++ evs0). rewrite enters_app, Hno, app_nil_r.
  split; [by rewrite Htr0, Htr, app_assoc|]. split; [lia|]. split; [done|].
  eapply Forall_impl; [done|]. simpl. destruct strict; lia.
Qed.

Lemma ordered_trans handlers0 strict s s1 o :
  ordered handlers0 strict s (Returned s1) →
  ordered handlers0 true s1 o → ordered handlers0 strict s o.
Proof.
  intros (evs1 & Htr1 & Hcap1 & Hs1 & Hall1) (evs2 & Htr2 & Hcap2 & Hs2 & Hall2).
  simpl in *. exists (evs1 ++ evs2). rewrite enters_app.
  split; [by rewrite Htr2, Htr1, app_assoc|]. split; [lia|]. split.
  - apply StronglySorted_app_2; [|done..]. intros x1 x2 Hx1 Hx2.
    apply (proj1 (Forall_forall _ _) Hall1) in Hx1.
    apply (proj1 (Forall_forall _ _) Hall2) in Hx2. lia.
  - apply Forall_app. split.
    + eapply Forall_impl; [exact Hall1|]. simpl. destruct strict; lia.
    + eapply Forall_impl; [exact Hall2|]. simpl. destruct strict; lia.
Qed.

Lemma ordered_incr handlers0 s o :
  ordered handlers0 false (incr_index s) o → ordered handlers0 true s o.
Proof.
  intros (evs & Htr & Hcap & Hs & Hall). exists evs.
  unfold cap, incr_index in *. simpl in *.
  split; [done|]. split; [lia|]. split; [done|].
  eapply Forall_impl; [done|]. simpl. lia.
Qed.

Lemma ordered_enter handlers0 s o :
  (0 ≤ index (ctx s) < Z.of_nat (length handlers0))%Z →
  ordered handlers0 true (emit (Enter (index (ctx s))) s) o →
  ordered handlers0 false s o.
Proof.
  intros Hidx (evs & Htr & Hcap & Hs & Hall).
  exists (Enter (index (ctx s)) :: evs).
  unfold cap in *. simpl in *.
  split; [by rewrite Htr, <- app_assoc|]. split; [lia|]. split.
  - constructor; [done|]. eapply Forall_impl; [done|]. simpl. lia.
  - constructor; [lia|]. eapply Forall_impl; [done|]. simpl. lia.
Qed.

Lemma ordered_remaining handlers0 strict s o :
  ordered handlers0 strict s o →
  remaining handlers0 (final o) ≤ remaining handlers0 s.
Proof. intros (evs & _ & Hcap & _). rewrite !remaining_cap. lia. Qed.

Lemma run_ordered handlers0 B next p :
  next_ordered handlers0 B next →
  ∀ s, remaining handlers0 s ≤ B →
    ∃ o, run handlers0 next p s = Some o ∧ ordered handlers0 true s o.
Proof.
  intros Hnext.
  induction p as [| |msg k IH|f k IH|b k1 IH1 k2 IH2|k IH|code err k IH
                  |code body0 k IH|code obj k IH]; intros s Hs; simpl.
  - eexists. split; [done|]. by apply ordered_refl.
  - eexists. split; [done|]. by apply ordered_refl.
  - destruct (IH (emit (Log msg) s)) as (o & -> & Ho); [done|].
    exists o. split; [done|]. silent_events ordered_seq [Log msg].
  - destruct (IH (set_index (index (ctx s)) (mkState (f (ctx s)) (trace s))))
      as (o & -> & Ho); [done|].
    exists o. split; [done|]. silent_events ordered_seq (@nil event).
  - destruct (b (ctx s)); [by apply IH1 | by apply IH2].
  - destruct (Hnext s Hs) as ([s'|s'] & -> & Ho); [|by eauto].
    destruct (IH s') as (o & -> & Ho').
    { pose proof (ordered_remaining _ _ _ _ Ho). simpl in *. lia. }
    exists o. split; [done|]. by eapply ordered_trans.
  - destruct (IH (Fail handlers0 code err s)) as (o & -> & Ho).
    { rewrite remaining_Fail. lia. }
    exists o. split; [done|].
    silent_events ordered_seq
      [SetHeader "Content-Type" "application/json"; WriteHeader code;
       Encode [("message", err)]].
  - destruct (IH (Context_String code (body0 (ctx s)) s)) as (o & -> & Ho); [done|].
    exists o. split; [done|].
    silent_events ordered_seq
      [SetHeader "Content-Type" "text/plain"; WriteHeader code;
       Write (body0 (ctx s))].
  - destruct (IH (JSON code obj s)) as (o & -> & Ho); [done|].
    exists o. split; [done|].
    silent_events ordered_seq
      [SetHeader "Content-Type" "application/json"; WriteHeader code;
       Encode obj].
Qed.

Lemma run_handler_ordered handlers0 B next h :
  next_ordered handlers0 B next →
  ∀ s, remaining handlers0 s ≤ B →
    ∃ o, run_handler handlers0 next h s = Some o ∧ ordered handlers0 true s o.
Proof.
  intros Hnext s Hs. destruct h as [p|line|report]; simpl.
  - by apply (run_ordered _ B).
  - destruct (Hnext s Hs) as ([s'|s'] & -> & Ho); [|by eauto].
    eexists. split; [done|].
    eapply (ordered_extend _ _ _ _ _ [Log _]); [done|done|done|].
    unfold cap. simpl. lia.
  - destruct (Hnext s Hs) as ([s'|s'] & -> & Ho); [by eauto|].
    eexists. split; [done|].
    eapply (ordered_extend _ _ _ _ _
              [Log report; SetHeader "Content-Type" "application/json";
               WriteHeader 500; Encode [("message", "Internal Server Error")]]);
      [done| |done|].
    + simpl. by rewrite <- !app_assoc.
    + unfold cap. simpl. lia.
Qed.

Lemma Next_forH_ordered hs : ∀ fuel s,
  remaining (body <$> hs) s < fuel →
  ∃ o, Next_forH fuel hs s = Some o ∧ ordered (body <$> hs) false s o.
Proof.
  induction fuel as [|fuel IH]; intros s Hs; [lia|]. simpl.
  pose proof (length_fmap body hs) as Hlen.
  destruct (decide _) as [Hlt|Hge]; [|eexists; split; [done|by apply ordered_refl]].
  destruct (decide (0 ≤ index (ctx s))%Z) as [Hpos|Hneg];
    [|eexists; split; [done|by apply ordered_refl]].
  destruct (hs !! Z.to_nat (index (ctx s))) as [h|] eqn:Hh; last first.
  { apply lookup_ge_None in Hh. lia. }
  assert (1 ≤ fuel) as Hfuel by (unfold remaining in Hs; lia).
  assert (next_ordered (body <$> hs) fuel
            (λ s1, Next_forH fuel hs (incr_index s1))) as Hnext.
  { intros s1 Hs1. destruct (IH (incr_index s1)) as (o & Ho & Hord).
    - rewrite remaining_incr. lia.
    - exists o. split; [done|]. by apply ordered_incr. }
  destruct (run_handler_ordered _ _ _ h Hnext (emit (Enter (index (ctx s))) s))
    as ([s'|s'] & -> & Ho).
  { rewrite remaining_emit. lia. }
  - pose proof (ordered_remaining _ _ _ _ Ho) as Hrem.
    rewrite remaining_emit in Hrem. simpl in Hrem.
    destruct (Hnext s') as (o & -> & Ho'); [lia|].
    exists o. split; [done|]. apply ordered_enter; [lia|].
    by eapply ordered_trans.
  - eexists. split; [done|]. apply ordered_enter; [lia | done].
Qed.

(** A chain of plain bodies runs as the chain of [Next]. *)
Lemma run_ext handlers0 next next' p :
  (∀ s, next s = next' s) →
  ∀ s, run handlers0 next p s = run handlers0 next' p s.
Proof.
  intros Hext. induction p; intros s; simpl; try done.
  - by destruct (b (ctx s)).
  - rewrite Hext. by destruct (next' s) as [[s'|s']|].
Qed.

Lemma body_Plain (ps : list HandlerFunc) : body <$> (Plain <$> ps) = ps.
Proof. rewrite <- list_fmap_compose. apply list_fmap_id. Qed.

Lemma Next_forH_Plain ps : ∀ fuel s,
  Next_forH fuel (Plain <$> ps) s = Next_for fuel ps s.
Proof.
  induction fuel as [|fuel IH]; intros s; [done|]. simpl.
  rewrite length_fmap, body_Plain. unfold handler_at.
  destruct (decide _); [|done]. destruct (decide _); [|done].
  rewrite list_lookup_fmap.
  destruct (ps !! Z.to_nat (index (ctx s))) as [p|]; simpl; [|done].
  rewrite (run_ext _ _ (λ s1, Next_for fuel ps (incr_index s1)))
    by (intros; apply IH).
  destruct (run _ _ _ _) as [[s'|s']|]; [apply IH|done..].
Qed.

Lemma handleH_Plain r ps s : handleH r (Plain <$> ps) s = handle r ps s.
Proof.
  unfold handleH, handle, NextH, Next, Next_fuel.
  destruct (getRoute _ _ _) as [[[n params]|]|]; [| |done].
  - rewrite <- (Next_forH_Plain (ps ++ [_])), fmap_app, !length_app, length_fmap.
    done.
  - rewrite <- (Next_forH_Plain (ps ++ [_])), fmap_app, !length_app, length_fmap.
    done.
Qed.

Lemma NextH_ordered hs s :
  ∃ o, NextH hs s = Some o ∧ ordered (body <$> hs) true s o.
Proof.
  destruct (decide (0 ≤ index (ctx (incr_index s)))%Z) as [Hpos|Hneg].
  - destruct (Next_forH_ordered hs (S (length hs)) (incr_index s))
      as (o & Ho & Hord).
    + unfold remaining. rewrite length_fmap. lia.
    + exists o. split; [done|]. by apply ordered_incr.
  - unfold NextH. simpl in *.
    rewrite decide_True, decide_False by lia.
    eexists. split; [done|]. by apply ordered_incr, ordered_refl.
Qed.

(** X14. [handle] ends for every router, every chain of middlewares and
    every request, and whatever the handlers do (call [Next] several times
    or not at all, call [Fail], panic), each handler of the chain is entered
    at most once, in the order of the chain. *)
Theorem handlers_entered_in_order r (mws : list HandlerFunc) method path :
  ∃ o, handle r mws (newContext method path) = Some o ∧
       StronglySorted Z.lt (enters (trace (final o))) ∧
       Forall (λ i, (0 ≤ i ≤ Z.of_nat (length mws))%Z)
         (enters (trace (final o))).
Proof.
  rewrite <- handleH_Plain. unfold handleH.
  assert (∀ h s, trace s = [] →
    ∃ o, NextH ((Plain <$> mws) ++ [Plain h]) s = Some o ∧
         StronglySorted Z.lt (enters (trace (final o))) ∧
         Forall (λ i, (0 ≤ i ≤ Z.of_nat (length mws))%Z)
           (enters (trace (final o)))) as Hchain.
  { intros h s Hs.
    destruct (NextH_ordered ((Plain <$> mws) ++ [Plain h]) s)
      as (o & Ho & evs & Htr & _ & Hsorted & Hall).
    exists o. rewrite Htr, Hs. simpl. split; [done|]. split; [done|].
    eapply Forall_impl; [done|]. simpl.
    rewrite length_fmap, length_app, length_fmap. simpl. lia. }
  destruct (getRoute _ _ _) as [[[n params]|]|].
  - by apply Hchain.
  - by apply Hchain.
  - eexists. split; [done|]. simpl. split; constructor.
Qed.

(** ** Chains that nothing stops *)

Lemma run_calm handlers0 B next p :
  next_full handlers0 B next → calm p = true →
  ∀ s, (-1 ≤ index (ctx s))%Z → remaining handlers0 s ≤ B →
    ∃ s' evs,
      run handlers0 next p s = Some (Returned s') ∧
      trace s' = trace s ++ evs ∧
      ((index (ctx s') = index (ctx s) ∧ enters evs = []) ∨
       ((Z.of_nat (length handlers0) ≤ index (ctx s'))%Z ∧
        enters evs = seqZ (index (ctx s) + 1)
                       (Z.of_nat (length handlers0) - index (ctx s) - 1))).
Proof.
  intros Hnext.
  assert (∀ (k : Prog) s s1 evs0,
    (∀ s, (-1 ≤ index (ctx s))%Z → remaining handlers0 s ≤ B →
       ∃ s' evs,
         run handlers0 next k s = Some (Returned s') ∧
         trace s' = trace s ++ evs ∧
         ((index (ctx s') = index (ctx s) ∧ enters evs = []) ∨
          ((Z.of_nat (length handlers0) ≤ index (ctx s'))%Z ∧
           enters evs = seqZ (index (ctx s) + 1)
                          (Z.of_nat (length handlers0) - index (ctx s) - 1)))) →
    trace s1 = trace s ++ evs0 → enters evs0 = [] →
    index (ctx s1) = index (ctx s) →
    (-1 ≤ index (ctx s))%Z → remaining handlers0 s ≤ B →
    ∃ s' evs,
      run handlers0 next k s1 = Some (Returned s') ∧
      trace s' = trace s ++ evs ∧
      ((index (ctx s') = index (ctx s) ∧ enters evs = []) ∨
       ((Z.of_nat (length handlers0) ≤ index (ctx s'))%Z ∧
        enters evs = seqZ (index (ctx s) + 1)
                       (Z.of_nat (length handlers0) - index (ctx s) - 1))))
    as Hstep.
  { intros k s s1 evs0 IH Htr0 Hno Hidx Hs HB.
    destruct (IH s1) as (s' & evs & Hrun & Htr & Hcase).
    { lia. } { unfold remaining in *. rewrite Hidx. lia. }
    exists s', (evs0 ++ evs). split; [done|].
    split; [by rewrite Htr, Htr0, app_assoc|].
    rewrite enters_app, Hno. simpl. by rewrite <- Hidx. }
  induction p as [| |msg k IH|f k IH|b k1 IH1 k2 IH2|k IH|code err k IH
                  |code body0 k IH|code obj k IH]; intros Hp s Hs HB;
    simpl in *; try done.
  - exists s, []. rewrite app_nil_r. split; [done|]. split; [done|]. by left.
  - apply (Hstep k s _ [Log msg]); auto.
  - apply (Hstep k s _ []); auto. simpl. by rewrite app_nil_r.
  - apply andb_true_iff in Hp as [Hp1 Hp2].
    destruct (b (ctx s)); [by apply IH1 | by apply IH2].
  - destruct (Hnext s Hs HB) as (s1 & evs1 & -> & Htr1 & Hend1 & Hen1).
    destruct (IH Hp s1) as (s' & evs2 & Hrun & Htr2 & Hcase).
    { lia. } { unfold remaining. lia. }
    exists s', (evs1 ++ evs2). split; [done|].
    split; [by rewrite Htr2, Htr1, app_assoc|]. right.
    rewrite enters_app, Hen1.
    destruct Hcase as [[Hidx ->]|[Hend ->]].
    + rewrite app_nil_r. split; [lia | done].
    + rewrite (seqZ_nil (index (ctx s1) + 1)) by lia.
      rewrite app_nil_r. done.
  - apply (Hstep k s _ [SetHeader "Content-Type" "text/plain"; WriteHeader code;
                        Write (body0 (ctx s))]); auto.
    simpl. by rewrite <- !app_assoc.
  - apply (Hstep k s _ [SetHeader "Content-Type" "application/json";
                        WriteHeader code; Encode obj]); auto.
    simpl. by rewrite <- !app_assoc.
Qed.

Lemma Next_for_calm (handlers0 : list HandlerFunc) :
  Forall (λ h, calm h = true) handlers0 →
  ∀ fuel s, (0 ≤ index (ctx s))%Z → remaining handlers0 s < fuel →
    ∃ s' evs,
      Next_for fuel handlers0 s = Some (Returned s') ∧
      trace s' = trace s ++ evs ∧
      (Z.of_nat (length handlers0) ≤ index (ctx s'))%Z ∧
      enters evs = seqZ (index (ctx s))
                     (Z.of_nat (length handlers0) - index (ctx s)).
Proof.
  intros Hcalm. induction fuel as [|fuel IH]; intros s Hpos Hs; [lia|].
  rewrite Next_for_S. destruct (decide _) as [Hlt|Hge]; last first.
  { exists s, []. rewrite app_nil_r, seqZ_nil by lia. split; [done|].
    split; [done|]. split; [lia | done]. }
  unfold handler_at. rewrite decide_True by done.
  destruct (handlers0 !! Z.to_nat (index (ctx s))) as [h|] eqn:Hh; last first.
  { apply lookup_ge_None in Hh. lia. }
  assert (1 ≤ fuel) as Hfuel by (unfold remaining in Hs; lia).
  assert (next_full handlers0 fuel
            (λ s1, Next_for fuel handlers0 (incr_index s1))) as Hnext.
  { intros s1 Hs1 HB. destruct (IH (incr_index s1)) as (s' & evs & Hrun & Htr & Hend & Hen).
    - simpl. lia.
    - rewrite remaining_incr. lia.
    - exists s', evs. split; [done|]. split; [done|]. split; [done|].
      rewrite Hen. simpl. f_equal. lia. }
  destruct (run_calm _ _ _ h Hnext
              (proj1 (Forall_forall _ _) Hcalm h (list_elem_of_lookup_2 _ _ _ Hh))
              (emit (Enter (index (ctx s))) s))
    as (s1 & evs1 & -> & Htr1 & Hcase).
  { simpl. lia. } { rewrite remaining_emit. lia. }
  simpl in Htr1, Hcase.
  destruct Hcase as [[Hidx Hen1]|[Hend1 Hen1]].
  - destruct (IH (incr_index s1)) as (s' & evs2 & -> & Htr2 & Hend & Hen2).
    { simpl. lia. } { unfold remaining in *. simpl. lia. }
    exists s', (Enter (index (ctx s)) :: evs1 ++ evs2).
    split; [done|]. split.
    { rewrite Htr2. simpl. rewrite Htr1, <- !app_assoc. done. }
    split; [done|].
    change (enters (Enter (index (ctx s)) :: evs1 ++ evs2))
      with (index (ctx s) :: enters (evs1 ++ evs2)).
    rewrite enters_app, Hen1, Hen2. simpl.
    rewrite (seqZ_cons (index (ctx s))) by lia. f_equal; f_equal; lia.
  - destruct fuel as [|fuel]; [lia|].
    rewrite Next_for_exhausted by (unfold exhausted; simpl; lia).
    exists (incr_index s1), (Enter (index (ctx s)) :: evs1).
    split; [done|]. split.
    { simpl. rewrite Htr1, <- !app_assoc. done. }
    split; [simpl; lia|].
    change (enters (Enter (index (ctx s)) :: evs1))
      with (index (ctx s) :: enters evs1).
    rewrite Hen1, (seqZ_cons (index (ctx s))) by lia. f_equal; f_equal; lia.
Qed.

(** X15. When no handler of the chain panics or calls [Fail], [Next] from
    the cursor -1 returns after every handler of the chain has been entered
    exactly once, in the order of the chain, whether the handlers call
    [Next] or not and however often. *)
Theorem calm_chain_enters_all (handlers0 : list HandlerFunc) s :
  index (ctx s) = (-1)%Z →
  Forall (λ h, calm h = true) handlers0 →
  ∃ s' evs,
    Next handlers0 s = Some (Returned s') ∧
    trace s' = trace s ++ evs ∧
    enters evs = seqZ 0 (Z.of_nat (length handlers0)).
Proof.
  intros Hidx Hcalm. unfold Next, Next_fuel.
  destruct (Next_for_calm handlers0 Hcalm (S (length handlers0)) (incr_index s))
    as (s' & evs & Hrun & Htr & _ & Hen).
  { simpl. lia. } { unfold remaining. simpl. lia. }
  exists s', evs. split; [done|]. split; [done|].
  rewrite Hen. simpl. rewrite Hidx. f_equal. lia.
Qed.

Lemma calm_chain_enters_all_witness :
  ∃ s' evs,
    Next [Printf "quiet" Return; CallNext (Printf "back" (CallNext Return));
          Return; CallString 200 (λ c, Path c) Return]
      (newContext "GET" "/x") = Some (Returned s') ∧
    trace s' = trace (newContext "GET" "/x") ++ evs ∧
    enters evs = seqZ 0 4.
Proof.
  apply (calm_chain_enters_all
           [Printf "quiet" Return; CallNext (Printf "back" (CallNext Return));
            Return; CallString 200 (λ c, Path c) Return]
           (newContext "GET" "/x")).
  - reflexivity.
  - repeat constructor.
Defined.

(** ** A request without a route *)

Lemma not_found_from : ∀ ms (pfx : list HandlerFunc) s fuel,
  index (ctx s) = Z.of_nat (length pfx) →
  length ms + 1 < fuel →
  ∃ s',
    Next_for fuel (pfx ++ (wrap <$> ms) ++ [notFound]) s = Some (Returned s') ∧
    exhausted (pfx ++ (wrap <$> ms) ++ [notFound]) s' ∧
    trace s' = trace s ++ pre_phases (length pfx) ms ++
               [Enter (Z.of_nat (length pfx + length ms));
                SetHeader "Content-Type" "text/plain"; WriteHeader 404;
                Write ("404 NOT FOUND: " +:+ Path (ctx s) +:+ LF)] ++
               post_phases ms ∧
    StatusCode (ctx s') = 404%Z.
Proof.
  induction ms as [|ab ms IH]; intros pfx s fuel Hidx Hfuel.
  - destruct fuel as [|[|fuel]]; [simpl in Hfuel; lia..|].
    set (hs := pfx ++ (wrap <$> []) ++ [notFound]).
    assert (hs !! length pfx = Some notFound) as Hh.
    { unfold hs. rewrite lookup_app_r by lia. by rewrite Nat.sub_diag. }
    pose proof (lookup_lt_Some _ _ _ Hh) as Hlt.
    rewrite Next_for_S, decide_True by lia.
    rewrite Hidx, handler_at_nat, Hh. unfold notFound at 1. cbn [run].
    rewrite Next_for_exhausted; last first.
    { unfold exhausted, hs. rewrite length_app. simpl. lia. }
    eexists. split; [reflexivity|]. split.
    { unfold exhausted, hs. rewrite length_app. simpl. lia. }
    split; [|done].
    simpl. rewrite Nat.add_0_r, <- !app_assoc. done.
  - destruct fuel as [|fuel]; [lia|].
    set (hs := pfx ++ (wrap <$> ab :: ms) ++ [notFound]).
    assert (hs !! length pfx = Some (wrap ab)) as Hh.
    { unfold hs. rewrite lookup_app_r by lia. by rewrite Nat.sub_diag. }
    pose proof (lookup_lt_Some _ _ _ Hh) as Hlt.
    rewrite Next_for_S, decide_True by lia.
    rewrite Hidx, handler_at_nat, Hh. unfold wrap at 1. cbn [run].
    assert (hs = (pfx ++ [wrap ab]) ++ (wrap <$> ms) ++ [notFound]) as Hhs.
    { unfold hs. by rewrite fmap_cons, <- app_assoc. }
    destruct (IH (pfx ++ [wrap ab])
                (incr_index (emit (Log ab.1) (emit (Enter (Z.of_nat (length pfx))) s)))
                fuel) as (s' & Hrun & Hex & Htr & Hcode).
    { rewrite length_app. simpl. lia. }
    { simpl in Hfuel. lia. }
    rewrite <- Hhs in Hrun, Hex. rewrite Hrun.
    destruct fuel as [|fuel]; [simpl in Hfuel; lia|].
    rewrite Next_for_exhausted by (unfold exhausted in *; simpl; lia).
    eexists. split; [reflexivity|].
    split; [unfold exhausted in *; simpl; lia|]. split; [|done].
    simpl. rewrite Htr. simpl. rewrite post_phases_cons, length_app. simpl.
    rewrite <- !app_assoc. simpl.
    replace (length pfx + 1 + length ms) with (length pfx + S (length ms)) by lia.
    replace (length pfx + 1) with (S (length pfx)) by lia.
    by rewrite <- ?app_assoc.
Qed.

(** X16. A request that no route matches still goes through the
    middlewares: they run their first halves, the handler that [handle]
    appends writes the text header, the status 404 and the line
    [404 NOT FOUND: path], and the middlewares run their second halves, the
    innermost first. *)
Theorem not_found_through_middlewares r ms s :
  getRoute r (Method (ctx s)) (Path (ctx s)) = Ok None →
  index (ctx s) = (-1)%Z →
  ∃ s',
    handle r (wrap <$> ms) s = Some (Returned s') ∧
    trace s' = trace s ++ pre_phases 0 ms ++
               [Enter (Z.of_nat (length ms));
                SetHeader "Content-Type" "text/plain"; WriteHeader 404;
                Write ("404 NOT FOUND: " +:+ Path (ctx s) +:+ LF)] ++
               post_phases ms ∧
    StatusCode (ctx s') = 404%Z.
Proof.
  intros Hget Hidx. unfold handle. rewrite Hget. unfold Next, Next_fuel.
  destruct (not_found_from ms [] (incr_index s)
              (S (length ((wrap <$> ms) ++ [notFound]))))
    as (s' & Hrun & _ & Htr & Hcode).
  - simpl. lia.
  - rewrite length_app, length_fmap. simpl. lia.
  - exists s'. simpl in Hrun, Htr. done.
Qed.

Lemma not_found_through_middlewares_witness :
  ∃ r s',
    register [("GET", "/hello/:name", Printf "H" Return)] newRouter = Ok r ∧
    handle r (wrap <$> [("M1-pre", "M1-post"); ("M2-pre", "M2-post")])
      (newContext "GET" "/bye") = Some (Returned s') ∧
    trace s' = [Enter 0; Log "M1-pre"; Enter 1; Log "M2-pre"; Enter 2;
                SetHeader "Content-Type" "text/plain"; WriteHeader 404;
                Write ("404 NOT FOUND: /bye" +:+ LF);
                Log "M2-post"; Log "M1-post"] ∧
    StatusCode (ctx s') = 404%Z.
Proof.
  set (r := match register [("GET", "/hello/:name", Printf "H" Return)] newRouter
            with Ok r => r | Panic => newRouter end).
  exists r.
  destruct (not_found_through_middlewares r
              [("M1-pre", "M1-post"); ("M2-pre", "M2-post")]
              (newContext "GET" "/bye")) as (s' & Hrun & Htr & Hcode).
  - vm_compute; reflexivity.
  - reflexivity.
  - exists s'. split; [vm_compute; reflexivity|]. split; [exact Hrun|].
    split; [exact Htr | exact Hcode].
Defined.

(** ** [Recovery] and [Logger] *)

Lemma Next_forH_S fuel hs s :
  Next_forH (S fuel) hs s =
  if decide (index (ctx s) < Z.of_nat (length hs))%Z then
    match (if decide (0 ≤ index (ctx s))%Z
           then hs !! Z.to_nat (index (ctx s)) else None) with
    | None => Some (Panicked s)
    | Some h =>
        match run_handler (body <$> hs)
                (fun s1 => Next_forH fuel hs (incr_index s1))
                h (emit (Enter (index (ctx s))) s) with
        | Some (Returned s') => Next_forH fuel hs (incr_index s')
        | r => r
        end
    end
  else Some (Returned s).
Proof. done. Qed.

Lemma Next_forH_at fuel hs s (i : nat) h :
  index (ctx s) = Z.of_nat i → hs !! i = Some h →
  Next_forH (S fuel) hs s =
  match run_handler (body <$> hs)
          (fun s1 => Next_forH fuel hs (incr_index s1))
          h (emit (Enter (Z.of_nat i)) s) with
  | Some (Returned s') => Next_forH fuel hs (incr_index s')
  | r => r
  end.
Proof.
  intros Hidx Hh. pose proof (lookup_lt_Some _ _ _ Hh).
  rewrite Next_forH_S, Hidx, decide_True by lia.
  by rewrite decide_True, Nat2Z.id, Hh by lia.
Qed.

Lemma Next_forH_exhausted fuel hs s :
  (Z.of_nat (length hs) ≤ index (ctx s))%Z →
  Next_forH (S fuel) hs s = Some (Returned s).
Proof. intros Hge. by rewrite Next_forH_S, decide_False by lia. Qed.

(** The loop returns only with the cursor at the end of the chain, or
    beyond. *)
Lemma Next_forH_Returned hs : ∀ fuel s s',
  Next_forH fuel hs s = Some (Returned s') →
  (Z.of_nat (length hs) ≤ index (ctx s'))%Z.
Proof.
  induction fuel as [|fuel IH]; intros s s'; [done|].
  rewrite Next_forH_S. destruct (decide _) as [Hlt|Hge].
  - destruct (if decide _ then _ else _) as [h|]; [|done].
    destruct (run_handler _ _ _ _) as [[s1|s1]|]; [apply IH | done..].
  - intros [= <-]. lia.
Qed.

(** X17. From the cursor at a [Recovery] handler the loop of [Next] always
    returns, and never panics, whatever the handlers behind it do; the
    cursor is then at the end of the chain or beyond. *)
Theorem Recovery_returns hs s (i : nat) report fuel :
  hs !! i = Some (Recovery report) →
  index (ctx s) = Z.of_nat i →
  remaining (body <$> hs) s < fuel →
  ∃ s', Next_forH fuel hs s = Some (Returned s') ∧
        (Z.of_nat (length hs) ≤ index (ctx s'))%Z.
Proof.
  intros Hh Hidx Hfuel. pose proof (lookup_lt_Some _ _ _ Hh) as Hlt.
  assert (remaining (body <$> hs) s = length hs - i) as Hrem.
  { unfold remaining. rewrite length_fmap. lia. }
  destruct fuel as [|[|fuel]]; [lia..|].
  rewrite (Next_forH_at _ _ _ i _ Hidx Hh). cbn [run_handler].
  destruct (Next_forH_ordered hs (S fuel)
              (incr_index (emit (Enter (Z.of_nat i)) s))) as ([s1|s1] & Hrun & _).
  { rewrite remaining_incr, remaining_emit. lia. }
  - rewrite Hrun. apply Next_forH_Returned in Hrun.
    rewrite Next_forH_exhausted by (simpl; lia).
    eexists. split; [done|]. simpl. lia.
  - rewrite Hrun, Next_forH_exhausted by (simpl; rewrite length_fmap; lia).
    eexists. split; [done|]. simpl. rewrite length_fmap. lia.
Qed.

Lemma Recovery_returns_witness :
  ∃ s',
    Next_forH 4 [Plain (wrap ("a", "b")); Recovery "stack"; Plain Crash]
      (incr_index (emit (Log "a") (emit (Enter 0)
         (incr_index (newContext "GET" "/panic")))))
    = Some (Returned s') ∧
    (Z.of_nat (length [Plain (wrap ("a", "b")); Recovery "stack"; Plain Crash])
     ≤ index (ctx s'))%Z.
Proof.
  apply (Recovery_returns
           [Plain (wrap ("a", "b")); Recovery "stack"; Plain Crash]
           (incr_index (emit (Log "a") (emit (Enter 0)
         (incr_index (newContext "GET" "/panic")))))
           1 "stack" 4).
  - reflexivity.
  - reflexivity.
  - vm_compute. lia.
Defined.

(** A panic behind middlewares that wait for [Next]: nothing runs after
    it. *)
Lemma crash_from a (rest : list Handler) : ∀ ms (pfx : list Handler) s fuel,
  index (ctx s) = Z.of_nat (length pfx) →
  length ms < fuel →
  ∃ sp,
    Next_forH fuel
      (pfx ++ (Plain <$> (wrap <$> ms)) ++ Plain (Printf a Crash) :: rest) s
    = Some (Panicked sp) ∧
    trace sp = trace s ++ pre_phases (length pfx) ms ++
               [Enter (Z.of_nat (length pfx + length ms)); Log a] ∧
    StatusCode (ctx sp) = StatusCode (ctx s).
Proof.
  induction ms as [|ab ms IH]; intros pfx s fuel Hidx Hfuel.
  - destruct fuel as [|fuel]; [lia|].
    rewrite (Next_forH_at _ _ _ (length pfx) (Plain (Printf a Crash)) Hidx);
      last first.
    { rewrite lookup_app_r by lia. by rewrite Nat.sub_diag. }
    simpl. eexists. split; [done|]. split; [|done].
    simpl. by rewrite Nat.add_0_r, <- !app_assoc.
  - destruct fuel as [|fuel]; [lia|].
    set (hs := pfx ++ (Plain <$> (wrap <$> ab :: ms)) ++
               Plain (Printf a Crash) :: rest).
    assert (hs !! length pfx = Some (Plain (wrap ab))) as Hh.
    { unfold hs. rewrite lookup_app_r by lia. by rewrite Nat.sub_diag. }
    rewrite (Next_forH_at _ _ _ (length pfx) _ Hidx Hh).
    unfold wrap. cbn [run_handler run].
    assert (hs = (pfx ++ [Plain (wrap ab)]) ++ (Plain <$> (wrap <$> ms)) ++
                 Plain (Printf a Crash) :: rest) as Hhs.
    { unfold hs. by rewrite !fmap_cons, <- app_assoc. }
    destruct (IH (pfx ++ [Plain (wrap ab)])
                (incr_index (emit (Log ab.1) (emit (Enter (Z.of_nat (length pfx))) s)))
                fuel) as (sp & Hrun & Htr & Hcode).
    { rewrite length_app. simpl. lia. }
    { simpl in Hfuel. lia. }
    rewrite <- Hhs in Hrun. rewrite Hrun.
    exists sp. split; [done|]. split; [|done].
    rewrite Htr. simpl. rewrite length_app. simpl.
    rewrite <- !app_assoc. simpl.
    replace (length pfx + 1 + length ms) with (length pfx + S (length ms)) by lia.
    replace (length pfx + 1) with (S (length pfx)) by lia.
    done.
Qed.

(** X18. With [Logger] and [Recovery] first, a panic of the last handler
    behind middlewares that wait for [Next] is answered with the status 500
    and the JSON message; the second halves of these middlewares do not run,
    and the logger then prints its line for a context with the status
    500. *)
Theorem panic_behind_Recovery line report ms a rest s :
  index (ctx s) = (-1)%Z →
  ∃ s' c,
    NextH (Logger line :: Recovery report ::
           (Plain <$> (wrap <$> ms)) ++ Plain (Printf a Crash) :: rest) s
    = Some (Returned s') ∧
    trace s' = trace s ++ [Enter 0; Enter 1] ++ pre_phases 2 ms ++
               [Enter (Z.of_nat (2 + length ms)); Log a; Log report;
                SetHeader "Content-Type" "application/json"; WriteHeader 500;
                Encode [("message", "Internal Server Error")];
                Log (line c)] ∧
    StatusCode c = 500%Z ∧ StatusCode (ctx s') = 500%Z.
Proof.
  intros Hidx. unfold NextH.
  set (hs := Logger line :: Recovery report ::
             (Plain <$> (wrap <$> ms)) ++ Plain (Printf a Crash) :: rest).
  assert (length hs = S (S (S (length ms + length rest)))) as Hlen.
  { unfold hs. simpl. rewrite length_app, !length_fmap. simpl. lia. }
  assert (hs !! 0 = Some (Logger line)) as H0 by done.
  assert (hs !! 1 = Some (Recovery report)) as H1 by done.
  assert (hs = [Logger line; Recovery report] ++
               (Plain <$> (wrap <$> ms)) ++ Plain (Printf a Crash) :: rest)
    as Hhs by done.
  clearbody hs. rewrite Hlen.
  rewrite (Next_forH_at _ _ _ 0 (Logger line)); [|simpl; lia|done].
  cbn [run_handler].
  rewrite (Next_forH_at _ _ _ 1 (Recovery report)); [|simpl; lia|done].
  cbn [run_handler].
  destruct (crash_from a rest ms [Logger line; Recovery report]
              (incr_index (emit (Enter 1)
                 (incr_index (emit (Enter 0) (incr_index s)))))
              (S (S (length ms + length rest)))) as (sp & Hrun & Htr & Hcode).
  { simpl. lia. } { lia. }
  rewrite <- Hhs in Hrun.
  change (Z.of_nat 0) with 0%Z. change (Z.of_nat 1) with 1%Z.
  rewrite Hrun.
  rewrite Next_forH_exhausted; last first.
  { simpl. rewrite length_fmap, Hlen. lia. }
  rewrite Next_forH_exhausted; last first.
  { simpl. rewrite length_fmap, Hlen. lia. }
  eexists _, _. split; [done|]. split.
  - simpl. rewrite Htr. simpl. rewrite <- !app_assoc. simpl.
    by rewrite <- ?app_assoc.
  - done.
Qed.

Lemma panic_behind_Recovery_witness :
  ∃ s' c,
    NextH (Logger (λ c, if (StatusCode c =? 500)%Z then "[500]" else "[ok]") ::
           Recovery "stack" ::
           (Plain <$> (wrap <$> [("in", "out")])) ++
           Plain (Printf "route" Crash) :: [])
      (newContext "GET" "/panic") = Some (Returned s') ∧
    trace s' = trace (newContext "GET" "/panic") ++
               [Enter 0; Enter 1] ++ pre_phases 2 [("in", "out")] ++
               [Enter (Z.of_nat (2 + length [("in", "out")])); Log "route";
                Log "stack"; SetHeader "Content-Type" "application/json";
                WriteHeader 500; Encode [("message", "Internal Server Error")];
                Log ((λ c, if (StatusCode c =? 500)%Z then "[500]" else "[ok]")
                       c)] ∧
    StatusCode c = 500%Z ∧ StatusCode (ctx s') = 500%Z.
Proof.
  apply (panic_behind_Recovery
           (λ c, if (StatusCode c =? 500)%Z then "[500]" else "[ok]")
           "stack" [("in", "out")] "route" [] (newContext "GET" "/panic")).
  reflexivity.
Defined.

Lemma Logger_Recovery_chain line report rest s :
  index (ctx s) = (-1)%Z →
  ∃ s' evs c,
    NextH (Logger line :: Recovery report :: rest) s = Some (Returned s') ∧
    trace s' = trace s ++ Enter 0 :: Enter 1 :: evs ++ [Log (line c)] ∧
    StatusCode c = StatusCode (ctx s').
Proof.
  intros Hidx. unfold NextH.
  set (hs := Logger line :: Recovery report :: rest).
  assert (length hs = S (S (length rest))) as Hlen by done.
  assert (hs !! 0 = Some (Logger line)) as H0 by done.
  assert (hs !! 1 = Some (Recovery report)) as H1 by done.
  clearbody hs. rewrite Hlen.
  rewrite (Next_forH_at _ _ _ 0 (Logger line)); [|simpl; lia|done].
  cbn [run_handler]. change (Z.of_nat 0) with 0%Z.
  set (s0 := incr_index (emit (Enter 0) (incr_index s))).
  assert (index (ctx s0) = 1%Z) as Hidx0 by (simpl; lia).
  assert (trace s0 = trace s ++ [Enter 0]) as Htr0 by done.
  clearbody s0.
  rewrite (Next_forH_at _ _ _ 1 (Recovery report)); [|done..].
  cbn [run_handler]. change (Z.of_nat 1) with 1%Z.
  destruct (Next_forH_ordered hs (S (length rest))
              (incr_index (emit (Enter 1) s0)))
    as (o2 & Ho2 & evs2 & Htr2 & _).
  { unfold remaining. simpl. rewrite length_fmap, Hlen. lia. }
  rewrite Ho2. simpl in Htr2.
  destruct o2 as [s2|s2]; simpl in Htr2; cbv beta iota.
  - apply Next_forH_Returned in Ho2.
    rewrite Next_forH_exhausted by (simpl; lia). cbv beta iota.
    rewrite Next_forH_exhausted by (simpl; lia).
    eexists _, evs2, _. split; [done|]. split.
    + simpl. rewrite Htr2, Htr0, <- !app_assoc. done.
    + done.
  - rewrite Next_forH_exhausted by (simpl; rewrite length_fmap; lia).
    cbv beta iota.
    rewrite Next_forH_exhausted by (simpl; rewrite length_fmap; lia).
    eexists _, (evs2 ++ [Log report;
                         SetHeader "Content-Type" "application/json";
                         WriteHeader 500;
                         Encode [("message", "Internal Server Error")]]), _.
    split; [done|]. split.
    + simpl. rewrite Htr2, Htr0, <- !app_assoc. done.
    + done.
Qed.

(** ** The engine *)

Lemma ServeHTTP_range_eq gs path : ∀ middlewares0,
  ServeHTTP_range gs path middlewares0 =
  middlewares0 ++
  (filter (λ g, HasPrefix path (prefix g) = true) gs ≫= middlewares).
Proof.
  induction gs as [|g gs IH]; intros middlewares0; simpl.
  - by rewrite app_nil_r.
  - rewrite IH, filter_cons. destruct (HasPrefix path (prefix g)) eqn:Hp.
    + rewrite decide_True by done. simpl. by rewrite <- app_assoc.
    + by rewrite decide_False by done.
Qed.

Lemma extends_refl e : extends e e.
Proof. intros i g Hg. exists g. done. Qed.

Lemma extends_trans e1 e2 e3 : extends e1 e2 → extends e2 e3 → extends e1 e3.
Proof.
  intros H12 H23 i g Hg.
  destruct (H12 i g Hg) as (g2 & Hg2 & Hp2 & Hm2).
  destruct (H23 i g2 Hg2) as (g3 & Hg3 & Hp3 & Hm3).
  exists g3. split; [done|]. split; [congruence|]. by etrans.
Qed.

Lemma at_index_Ok {A} (l : list A) i x : at_index l i = Ok x → l !! i = Some x.
Proof. unfold at_index. destruct (l !! i); [by intros [= ->] | done]. Qed.

(** One call of the set-up. *)
Lemma Group_extends e group prefix0 e' c :
  Group e group prefix0 = Ok (e', c) →
  extends e e' ∧ engine_router e' = engine_router e ∧
  ∃ g, groups e !! group = Some g ∧ group < c ∧
       groups e' !! c = Some (mkRouterGroup (prefix g +:+ prefix0) []) ∧
       groups e' = groups e ++ [mkRouterGroup (prefix g +:+ prefix0) []].
Proof.
  unfold Group. destruct (at_index _ _) as [g|] eqn:Hg; [|done]. simpl.
  apply at_index_Ok in Hg. intros [= <- <-]. simpl.
  pose proof (lookup_lt_Some _ _ _ Hg) as Hlt.
  split; [|split; [done|]].
  - intros i gi Hi. exists gi. simpl.
    by rewrite lookup_app_l by (by eapply lookup_lt_Some).
  - exists g. split; [done|]. split; [done|]. split; [|done].
    rewrite lookup_app_r by lia. by rewrite Nat.sub_diag.
Qed.

Lemma Use_extends e group middlewares0 e' :
  Use e group middlewares0 = Ok e' →
  extends e e' ∧ engine_router e' = engine_router e ∧
  ∃ g, groups e !! group = Some g ∧
       groups e' = <[group := mkRouterGroup (prefix g)
                                 (middlewares g ++ middlewares0)]> (groups e).
Proof.
  unfold Use. destruct (at_index _ _) as [g|] eqn:Hg; [|done]. simpl.
  apply at_index_Ok in Hg. intros [= <-]. simpl.
  split; [|split; [done|by eauto]].
  intros i gi Hi. simpl. destruct (decide (group = i)) as [->|Hne].
  - rewrite list_lookup_insert_eq by (by eapply lookup_lt_Some).
    eexists. split; [done|]. simpl. assert (gi = g) as -> by congruence.
    split; [done|]. by apply prefix_app_r.
  - rewrite list_lookup_insert_ne by done. exists gi. done.
Qed.

Lemma group_addRoute_extends e group method comp handler e' :
  group_addRoute e group method comp handler = Ok e' →
  groups e' = groups e ∧
  ∃ g, groups e !! group = Some g ∧
       addRoute (engine_router e) method (prefix g +:+ comp) handler
       = Ok (engine_router e') ∧
       printed e' = printed e ++ [(method, prefix g +:+ comp)].
Proof.
  unfold group_addRoute. destruct (at_index _ _) as [g|] eqn:Hg; [|done]. simpl.
  apply at_index_Ok in Hg.
  destruct (addRoute _ _ _ _) as [r'|] eqn:Hadd; [|done]. simpl.
  intros [= <-]. simpl. split; [done|]. exists g. done.
Qed.

Lemma call_extends c e e' :
  setup [c] e = Ok e' → extends e e'.
Proof.
  simpl. destruct c as [group prefix0|group mws|group comp h|group comp h].
  - destruct (Group e group prefix0) as [[e1 c]|] eqn:HG; [|done]. simpl.
    intros [= <-]. by apply Group_extends in HG as [? _].
  - destruct (Use e group mws) as [e1|] eqn:HU; [|done]. simpl.
    intros [= <-]. by apply Use_extends in HU as [? _].
  - unfold GET. destruct (group_addRoute _ _ _ _ _) as [e1|] eqn:HA; [|done].
    simpl. intros [= <-]. apply group_addRoute_extends in HA as [Hg _].
    intros i g Hi. exists g. by rewrite Hg.
  - unfold POST. destruct (group_addRoute _ _ _ _ _) as [e1|] eqn:HA; [|done].
    simpl. intros [= <-]. apply group_addRoute_extends in HA as [Hg _].
    intros i g Hi. exists g. by rewrite Hg.
Qed.

Lemma setup_cons c calls e e' :
  setup (c :: calls) e = Ok e' ↔
  ∃ e1, setup [c] e = Ok e1 ∧ setup calls e1 = Ok e'.
Proof.
  simpl. destruct (match c with CallGroup _ _ => _ | _ => _ end) as [e1|];
    simpl; [|split; [done | by intros (? & ? & ?)]].
  split; [by eauto | by intros (? & [= <-] & ?)].
Qed.

Lemma setup_extends calls : ∀ e e', setup calls e = Ok e' → extends e e'.
Proof.
  induction calls as [|c calls IH]; intros e e'.
  - intros [= <-]. apply extends_refl.
  - intros (e1 & H1 & H2)%setup_cons.
    eapply extends_trans; [by eapply call_extends | by apply IH].
Qed.

Lemma call_inv c e e' :
  setup [c] e = Ok e' → engine_inv e → engine_inv e'.
Proof.
  intros Hc [[routes Hr] (g0 & Hg0 & Hp0)].
  pose proof (call_extends _ _ _ Hc 0 g0 Hg0) as (g0' & Hg0' & Hp0' & _).
  split; [|exists g0'; split; [done | congruence]].
  simpl in Hc. destruct c as [group prefix0|group mws|group comp h|group comp h].
  - destruct (Group e group prefix0) as [[e1 c]|] eqn:HG; [|done]. simpl in Hc.
    injection Hc as <-. apply Group_extends in HG as (_ & -> & _). eauto.
  - destruct (Use e group mws) as [e1|] eqn:HU; [|done]. simpl in Hc.
    injection Hc as <-. apply Use_extends in HU as (_ & -> & _). eauto.
  - unfold GET in Hc. destruct (group_addRoute _ _ _ _ _) as [e1|] eqn:HA; [|done].
    simpl in Hc. injection Hc as <-.
    apply group_addRoute_extends in HA as (_ & g & _ & Hadd & _).
    destruct (addRoute_inv _ _ "GET" (prefix g +:+ comp) h Hr)
      as (r' & Hr' & Hinv & _).
    rewrite Hadd in Hr'. injection Hr' as ->. eauto.
  - unfold POST in Hc. destruct (group_addRoute _ _ _ _ _) as [e1|] eqn:HA; [|done].
    simpl in Hc. injection Hc as <-.
    apply group_addRoute_extends in HA as (_ & g & _ & Hadd & _).
    destruct (addRoute_inv _ _ "POST" (prefix g +:+ comp) h Hr)
      as (r' & Hr' & Hinv & _).
    rewrite Hadd in Hr'. injection Hr' as ->. eauto.
Qed.

Lemma setup_inv calls : ∀ e e',
  setup calls e = Ok e' → engine_inv e → engine_inv e'.
Proof.
  induction calls as [|c calls IH]; intros e e'.
  - by intros [= <-].
  - intros (e1 & H1 & H2)%setup_cons Hinv.
    eapply IH; [done|]. by eapply call_inv.
Qed.

Lemma New_inv : engine_inv New.
Proof.
  split; [exists []; apply router_inv_new|]. by exists (mkRouterGroup "" []).
Qed.

(** ** A server whose handlers do not panic *)

Lemma run_not_panicked handlers0 next p :
  no_crash p = true →
  (∀ s1 o, (-1 ≤ index (ctx s1))%Z → next s1 = Some o →
     ∃ s', o = Returned s' ∧ (0 ≤ index (ctx s'))%Z) →
  ∀ s o, (-1 ≤ index (ctx s))%Z → run handlers0 next p s = Some o →
    ∃ s', o = Returned s' ∧ (-1 ≤ index (ctx s'))%Z.
Proof.
  intros Hp Hnext.
  induction p as [| |msg k IH|f k IH|b k1 IH1 k2 IH2|k IH|code err k IH
                  |code body0 k IH|code obj k IH]; intros s o Hs; simpl in *;
    try done.
  - intros [= <-]. eauto.
  - by apply IH.
  - by apply IH.
  - apply andb_true_iff in Hp as [Hp1 Hp2].
    destruct (b (ctx s)); [by apply IH1 | by apply IH2].
  - destruct (next s) as [o1|] eqn:Ho1; [|done].
    destruct (Hnext s o1 Hs Ho1) as (s1 & -> & Hs1).
    apply IH; [done | lia].
  - apply IH; [done | simpl; lia].
  - by apply IH.
  - by apply IH.
Qed.

Lemma Next_forH_not_panicked hs :
  Forall (λ h, no_crashH h = true) hs →
  ∀ fuel s o, (0 ≤ index (ctx s))%Z → Next_forH fuel hs s = Some o →
    ∃ s', o = Returned s' ∧ (0 ≤ index (ctx s'))%Z.
Proof.
  intros Hall. induction fuel as [|fuel IH]; intros s o Hs; [done|].
  rewrite Next_forH_S. destruct (decide _) as [Hlt|Hge]; [|intros [= <-]; eauto].
  rewrite decide_True by done.
  destruct (hs !! Z.to_nat (index (ctx s))) as [h|] eqn:Hh; last first.
  { apply lookup_ge_None in Hh. lia. }
  assert (no_crashH h = true) as Hcalm.
  { apply (proj1 (Forall_forall _ _) Hall). by eapply list_elem_of_lookup_2. }
  assert (∀ s1 o1, (-1 ≤ index (ctx s1))%Z →
            Next_forH fuel hs (incr_index s1) = Some o1 →
            ∃ s', o1 = Returned s' ∧ (0 ≤ index (ctx s'))%Z) as Hnext.
  { intros s1 o1 Hs1. apply IH. simpl. lia. }
  assert (∀ o1, run_handler (body <$> hs)
                  (λ s1, Next_forH fuel hs (incr_index s1)) h
                  (emit (Enter (index (ctx s))) s) = Some o1 →
                ∃ s', o1 = Returned s' ∧ (-1 ≤ index (ctx s'))%Z) as Hrun.
  { intros o1. destruct h as [p|line|report]; simpl.
    - apply run_not_panicked; [done..|simpl; lia].
    - destruct (Next_forH _ _ _) as [o2|] eqn:Ho2; [|done].
      destruct (Hnext (emit (Enter (index (ctx s))) s) o2 ltac:(simpl; lia) Ho2)
        as (s2 & -> & Hs2).
      intros [= <-]. eexists. split; [done|]. simpl. lia.
    - destruct (Next_forH _ _ _) as [o2|] eqn:Ho2; [|done].
      destruct (Hnext (emit (Enter (index (ctx s))) s) o2 ltac:(simpl; lia) Ho2)
        as (s2 & -> & Hs2).
      intros [= <-]. eexists. split; [done|]. lia. }
  destruct (run_handler _ _ _ _) as [o1|]; [|done].
  destruct (Hrun o1 eq_refl) as (s1 & -> & Hs1).
  apply IH. simpl. lia.
Qed.

Lemma forallb_Forall {A} (f : A → bool) l :
  forallb f l = true → Forall (λ x, f x = true) l.
Proof.
  induction l as [|x l IH]; simpl; [by constructor|].
  intros [? ?]%andb_true_iff. constructor; auto.
Qed.

Lemma ServeHTTP_range_Forall (Φ : Handler → Prop) gs path : ∀ middlewares0,
  Forall Φ middlewares0 →
  Forall (λ g, Forall Φ (middlewares g)) gs →
  Forall Φ (ServeHTTP_range gs path middlewares0).
Proof.
  induction gs as [|g gs IH]; intros middlewares0 H0 Hgs; simpl; [done|].
  inversion Hgs; subst. apply IH; [|done].
  destruct (HasPrefix _ _); [by apply Forall_app | done].
Qed.

Lemma call_calm_kept c e e' :
  call_calm c = true → setup [c] e = Ok e' → engine_calm e → engine_calm e'.
Proof.
  intros Hc Hs [Htable Hgroups]. simpl in Hs.
  destruct c as [group prefix0|group mws|group comp h|group comp h];
    simpl in Hc.
  - destruct (Group e group prefix0) as [[e1 c]|] eqn:HG; [|done]. simpl in Hs.
    injection Hs as <-. apply Group_extends in HG as (_ & Hr & g & _ & _ & _ & Hg).
    split; [by rewrite Hr|]. rewrite Hg. apply Forall_app. split; [done|].
    by repeat constructor.
  - destruct (Use e group mws) as [e1|] eqn:HU; [|done]. simpl in Hs.
    injection Hs as <-. apply Use_extends in HU as (_ & Hr & g & Hg & Hgs).
    split; [by rewrite Hr|]. rewrite Hgs. apply Forall_insert; [done|]. simpl.
    apply Forall_app. split; [|by apply forallb_Forall].
    apply (proj1 (Forall_forall _ _) Hgroups). by eapply list_elem_of_lookup_2.
  - unfold GET in Hs. destruct (group_addRoute _ _ _ _ _) as [e1|] eqn:HA; [|done].
    simpl in Hs. injection Hs as <-.
    apply group_addRoute_extends in HA as (Hgs & g & _ & Hadd & _).
    split; [|by rewrite Hgs].
    apply addRoute_inserted in Hadd as (_ & _ & -> & _).
    intros key h0. destruct (decide (route_key "GET" (prefix g +:+ comp) = key))
      as [<-|Hne].
    + rewrite lookup_insert_eq. by intros [= <-].
    + rewrite lookup_insert_ne by done. apply Htable.
  - unfold POST in Hs. destruct (group_addRoute _ _ _ _ _) as [e1|] eqn:HA; [|done].
    simpl in Hs. injection Hs as <-.
    apply group_addRoute_extends in HA as (Hgs & g & _ & Hadd & _).
    split; [|by rewrite Hgs].
    apply addRoute_inserted in Hadd as (_ & _ & -> & _).
    intros key h0. destruct (decide (route_key "POST" (prefix g +:+ comp) = key))
      as [<-|Hne].
    + rewrite lookup_insert_eq. by intros [= <-].
    + rewrite lookup_insert_ne by done. apply Htable.
Qed.

Lemma setup_calm calls : ∀ e e',
  Forall (λ c, call_calm c = true) calls →
  setup calls e = Ok e' → engine_calm e → engine_calm e'.
Proof.
  induction calls as [|c calls IH]; intros e e' Hall.
  - by intros [= <-].
  - inversion Hall as [|? ? Hc Hrest]; subst.
    intros (e1 & Hstep & Hsetup)%setup_cons Hcalm.
    eapply IH; [done..|]. by eapply call_calm_kept.
Qed.

(** The handler that [handle] appends for a request. *)
Lemma handleH_chain e method path :
  engine_inv e →
  ∃ h, ServeHTTP e method path =
       NextH (ServeHTTP_range (groups e) path [] ++ [Plain h])
         (match getRoute (engine_router e) method path with
          | Ok (Some (_, params)) =>
              set_Params params (newContext method path)
          | _ => newContext method path
          end) ∧
       (h = notFound ∨
        ∃ key, handlers (engine_router e) !! key = Some h).
Proof.
  intros [[routes Hr] _]. unfold ServeHTTP, handleH. simpl.
  destruct (getRoute_total _ _ method path Hr) as ([[n params]|] & Hget);
    rewrite Hget; [|by eauto].
  pose proof Hget as (root & Hroot & Hs)%getRoute_Some_inv.
  destruct (getRoute_found _ _ _ _ _ _ Hr Hroot Hs) as (_ & _ & _ & Hin).
  apply elem_of_patterns_of in Hin as [handler Hin].
  destruct (proj1 Hr _ _ _ Hin) as [h Hh].
  exists h. rewrite Hh. simpl. split; [done|]. right. eauto.
Qed.

(** X19. On an engine set up by calls of [Group], [Use], [GET] and [POST]
    whose handlers have no panic written in them, [ServeHTTP] returns for
    every request: the routing does not panic, and [handle] never calls a
    missing handler. *)
Theorem crash_free_server_returns calls e method path :
  setup calls New = Ok e →
  Forall (λ c, call_calm c = true) calls →
  ∃ s', ServeHTTP e method path = Some (Returned s').
Proof.
  intros Hsetup Hcalm.
  pose proof (setup_inv _ _ _ Hsetup New_inv) as Hinv.
  assert (engine_calm New) as Hnew.
  { split; [|by repeat constructor].
    intros key h Hkey. simpl in Hkey. by apply lookup_empty_Some in Hkey. }
  destruct (setup_calm _ _ _ Hcalm Hsetup Hnew) as [Htable Hgroups].
  destruct (handleH_chain e method path Hinv) as (h & -> & Hh).
  set (s := match getRoute _ _ _ with Ok (Some (_, params)) => _ | _ => _ end).
  assert (index (ctx s) = (-1)%Z) as Hidx.
  { unfold s. by destruct (getRoute _ _ _) as [[[? ?]|]|]. }
  clearbody s.
  destruct (NextH_ordered (ServeHTTP_range (groups e) path [] ++ [Plain h]) s)
    as (o & Ho & _).
  rewrite Ho. unfold NextH in Ho.
  apply Next_forH_not_panicked in Ho as (s' & -> & _); [by eauto| |simpl; lia].
  apply Forall_app. split.
  - by apply ServeHTTP_range_Forall.
  - repeat constructor. simpl. destruct Hh as [->|[key Hkey]]; [done | eauto].
Qed.

Lemma crash_free_server_returns_witness :
  ∃ e s',
    setup [CallUse 0 [Logger (λ _, "log"); Plain (wrap ("a", "b"))];
           CallGroup 0 "/g1";
           CallGET 1 "/hello/:name" (CallString 200 (λ c, Param c "name") Return);
           CallPOST 0 "/login" (CallJSON 200 [("ok", "yes")] Return)] New
    = Ok e ∧
    ServeHTTP e "GET" "/g1/hello/zinc" = Some (Returned s').
Proof.
  set (calls := [CallUse 0 [Logger (λ _, "log"); Plain (wrap ("a", "b"))];
                 CallGroup 0 "/g1";
                 CallGET 1 "/hello/:name"
                   (CallString 200 (λ c, Param c "name") Return);
                 CallPOST 0 "/login" (CallJSON 200 [("ok", "yes")] Return)]).
  set (e := match setup calls New with Ok e => e | Panic => New end).
  exists e.
  destruct (crash_free_server_returns calls e "GET" "/g1/hello/zinc")
    as [s' Hs'].
  - vm_compute; reflexivity.
  - repeat constructor.
  - exists s'. split; [vm_compute; reflexivity | exact Hs'].
Defined.

(** ** Groups and their middlewares *)

Lemma HasPrefix_append path p q :
  HasPrefix path (p +:+ q) = true → HasPrefix path p = true.
Proof.
  revert path. induction p as [|c p IH]; intros path; [done|].
  rewrite append_String. destruct path as [|c' path]; simpl; [done|].
  intros [? ?]%andb_true_iff. apply andb_true_iff. eauto.
Qed.

Lemma ServeHTTP_range_two gs path i j gi gj :
  gs !! i = Some gi → gs !! j = Some gj → i < j →
  HasPrefix path (prefix gi) = true → HasPrefix path (prefix gj) = true →
  ∃ a b d,
    ServeHTTP_range gs path [] =
    a ++ middlewares gi ++ b ++ middlewares gj ++ d.
Proof.
  intros Hi Hj Hlt Hpi Hpj.
  assert (drop (S i) gs !! (j - S i) = Some gj) as Hj'.
  { rewrite lookup_drop. by replace (S i + (j - S i)) with j by lia. }
  rewrite ServeHTTP_range_eq. simpl.
  rewrite <- (take_drop_middle gs i gi Hi).
  rewrite <- (take_drop_middle (drop (S i) gs) (j - S i) gj Hj').
  rewrite !filter_app, !filter_cons, !decide_True by done.
  rewrite !filter_app, !filter_cons, !decide_True by done.
  rewrite !bind_app. simpl. rewrite !bind_app. simpl.
  eexists _, _, _. reflexivity.
Qed.

(** X20. A group made by [Group] has the prefix of the group it was made
    from, followed by the new prefix, also after any further set-up.  So
    when the middlewares of the new group apply to a request, those of the
    group it was made from apply too, and come before them in the chain. *)
Theorem group_inherits e group prefix0 e1 c calls e2 path :
  Group e group prefix0 = Ok (e1, c) →
  setup calls e1 = Ok e2 →
  ∃ gp gc,
    groups e2 !! group = Some gp ∧ groups e2 !! c = Some gc ∧
    prefix gc = prefix gp +:+ prefix0 ∧
    (HasPrefix path (prefix gc) = true →
     HasPrefix path (prefix gp) = true ∧
     ∃ a b d,
       ServeHTTP_range (groups e2) path [] =
       a ++ middlewares gp ++ b ++ middlewares gc ++ d).
Proof.
  intros (Hext1 & _ & g & Hg & Hlt & Hc & _)%Group_extends Hext2%setup_extends.
  destruct (Hext1 _ _ Hg) as (g1 & Hg1 & Hp1 & _).
  destruct (Hext2 _ _ Hg1) as (gp & Hgp & Hpp & _).
  destruct (Hext2 _ _ Hc) as (gc & Hgc & Hpc & _). simpl in Hpc.
  exists gp, gc. split; [done|]. split; [done|].
  assert (prefix gc = prefix gp +:+ prefix0) as Hpre by congruence.
  split; [done|]. intros Hpath.
  assert (HasPrefix path (prefix gp) = true) as Hparent.
  { rewrite Hpre in Hpath. by eapply HasPrefix_append. }
  split; [done|]. by eapply ServeHTTP_range_two.
Qed.

Lemma group_inherits_witness :
  ∃ e1 c e2 gp gc,
    Group New 0 "/v1" = Ok (e1, c) ∧
    setup [CallUse 0 [Plain (Printf "all" Return)];
           CallUse 1 [Plain (Printf "v1" Return)]] e1 = Ok e2 ∧
    groups e2 !! 0 = Some gp ∧ groups e2 !! c = Some gc ∧
    prefix gc = prefix gp +:+ "/v1" ∧
    (HasPrefix "/v1/users" (prefix gc) = true →
     HasPrefix "/v1/users" (prefix gp) = true ∧
     ∃ a b d,
       ServeHTTP_range (groups e2) "/v1/users" [] =
       a ++ middlewares gp ++ b ++ middlewares gc ++ d).
Proof.
  set (e1 := match Group New 0 "/v1" with Ok ec => ec.1 | Panic => New end).
  set (e2 := match setup [CallUse 0 [Plain (Printf "all" Return)];
                          CallUse 1 [Plain (Printf "v1" Return)]] e1
             with Ok e => e | Panic => New end).
  destruct (group_inherits New 0 "/v1" e1 1
              [CallUse 0 [Plain (Printf "all" Return)];
               CallUse 1 [Plain (Printf "v1" Return)]] e2 "/v1/users")
    as (gp & gc & Hgp & Hgc & Hpre & Hpath).
  - reflexivity.
  - reflexivity.
  - exists e1, 1, e2, gp, gc. split; [reflexivity|]. split; [reflexivity|].
    split; [exact Hgp|]. split; [exact Hgc|]. split; [exact Hpre | exact Hpath].
Defined.

(** ** Paths that start with two slashes *)

Lemma parsePattern_slash p : parsePattern (String "/" p) = parsePattern p.
Proof. done. Qed.

(** X21. [ServeHTTP] compares the raw path with the prefixes, while the
    router drops empty segments.  So when every prefix is empty or starts
    with a slash and another byte, a path that starts with two slashes is
    routed like the path with one slash, but only the middlewares of the
    groups with an empty prefix are put in its chain. *)
Theorem double_slash_skips_groups e method p :
  Forall (λ g, prefix g = "" ∨
               ∃ c rest, prefix g = String "/" (String c rest) ∧ c ≠ "/"%char)
    (groups e) →
  getRoute (engine_router e) method (String "/" (String "/" p))
  = getRoute (engine_router e) method (String "/" p) ∧
  ServeHTTP_range (groups e) (String "/" (String "/" p)) []
  = (filter (λ g, prefix g = "") (groups e) ≫= middlewares).
Proof.
  intros Hall. split.
  - unfold getRoute. by rewrite parsePattern_slash.
  - rewrite ServeHTTP_range_eq. simpl. f_equal.
    induction Hall as [|g gs Hg _ IH]; [done|].
    rewrite !filter_cons, IH.
    destruct Hg as [Hg|(c & rest & Hg & Hc)]; rewrite Hg.
    + by rewrite !decide_True.
    + assert (HasPrefix (String "/" (String "/" p))
                (String "/" (String c rest)) = false) as Hf.
      { simpl. by rewrite (bool_decide_eq_false_2 ("/"%char = c)) by done. }
      rewrite decide_False by (by rewrite Hf).
      by rewrite decide_False by done.
Qed.

Lemma double_slash_skips_groups_witness :
  ∃ e,
    setup [CallUse 0 [Logger (λ _, "log")]; CallGroup 0 "/admin";
           CallUse 1 [Plain (Printf "check" (CallFail 401 "no" Return))];
           CallGET 1 "/users" (CallString 200 (λ _, "users") Return)] New
    = Ok e ∧
    getRoute (engine_router e) "GET" "//admin/users"
    = getRoute (engine_router e) "GET" "/admin/users" ∧
    ServeHTTP_range (groups e) "//admin/users" []
    = (filter (λ g, prefix g = "") (groups e) ≫= middlewares) ∧
    length (ServeHTTP_range (groups e) "//admin/users" []) = 1 ∧
    length (ServeHTTP_range (groups e) "/admin/users" []) = 2.
Proof.
  set (calls := [CallUse 0 [Logger (λ _, "log")]; CallGroup 0 "/admin";
                 CallUse 1 [Plain (Printf "check" (CallFail 401 "no" Return))];
                 CallGET 1 "/users" (CallString 200 (λ _, "users") Return)]).
  set (e := match setup calls New with Ok e => e | Panic => New end).
  exists e. split; [vm_compute; reflexivity|].
  destruct (double_slash_skips_groups e "GET" "admin/users") as [Hroute Hmws].
  - let gs := eval vm_compute in (groups e) in change (groups e) with gs.
    constructor; [by left|]. constructor; [|constructor].
    right. exists "a"%char, "dmin". split; [reflexivity | discriminate].
  - split; [exact Hroute|]. split; [exact Hmws|]. split; reflexivity.
Defined.

(** ** The logger and the recovery of the whole server *)

(** X22. When the set-up begins with [Use(Logger, Recovery)] on the engine,
    [ServeHTTP] returns for every request, whatever is set up afterwards and
    whatever the handlers do, and the trace ends with the line of the
    logger, made from a context with the final status code. *)
Theorem logged_and_recovered line report calls e method path :
  setup (CallUse 0 [Logger line; Recovery report] :: calls) New = Ok e →
  ∃ s' evs c,
    ServeHTTP e method path = Some (Returned s') ∧
    trace s' = Enter 0 :: Enter 1 :: evs ++ [Log (line c)] ∧
    StatusCode c = StatusCode (ctx s').
Proof.
  intros Hsetup.
  pose proof (setup_inv _ _ _ Hsetup New_inv) as Hinv.
  apply setup_cons in Hsetup as (e1 & H1 & Hcalls).
  injection H1 as <-. apply setup_extends in Hcalls.
  destruct (Hcalls 0 _ eq_refl) as (g0 & Hg0 & Hp0 & [k Hk]). simpl in Hp0, Hk.
  destruct (handleH_chain e method path Hinv) as (h & -> & _).
  set (s := match getRoute _ _ _ with Ok (Some (_, params)) => _ | _ => _ end).
  assert (index (ctx s) = (-1)%Z ∧ trace s = []) as [Hidx Htr].
  { unfold s. by destruct (getRoute _ _ _) as [[[? ?]|]|]. }
  clearbody s.
  destruct (groups e) as [|g gs] eqn:Hgs; [done|]. injection Hg0 as ->.
  simpl. rewrite Hp0. simpl. rewrite ServeHTTP_range_eq, Hk. simpl.
  destruct (Logger_Recovery_chain line report
              ((k ++ filter (λ g, HasPrefix path (prefix g) = true) gs
                     ≫= middlewares) ++ [Plain h]) s Hidx)
    as (s' & evs & c & Hrun & Htr' & Hcode).
  exists s', evs, c. rewrite Htr in Htr'. split; [|done].
  rewrite <- Hrun. by rewrite <- !app_assoc.
Qed.

Lemma logged_and_recovered_witness :
  ∃ e s' evs c,
    setup [CallUse 0 [Logger (λ c, if (StatusCode c =? 500)%Z
                                   then "[500]" else "[ok]");
                      Recovery "stack"];
           CallGET 0 "/panic" Crash] New = Ok e ∧
    ServeHTTP e "GET" "/panic" = Some (Returned s') ∧
    trace s' = Enter 0 :: Enter 1 :: evs ++
               [Log ((λ c, if (StatusCode c =? 500)%Z then "[500]" else "[ok]")
                      c)] ∧
    StatusCode c = StatusCode (ctx s').
Proof.
  set (line := λ c, if (StatusCode c =? 500)%Z then "[500]" else "[ok]").
  set (calls := [CallGET 0 "/panic" Crash]).
  set (e := match setup (CallUse 0 [Logger line; Recovery "stack"] :: calls) New
            with Ok e => e | Panic => New end).
  exists e.
  destruct (logged_and_recovered line "stack" calls e "GET" "/panic")
    as (s' & evs & c & Hrun & Htr & Hcode).
  - vm_compute; reflexivity.
  - exists s', evs, c. split; [vm_compute; reflexivity|].
    split; [exact Hrun|]. split; [exact Htr | exact Hcode].
Defined.

(** ** A panic that nothing recovers *)

(** X23. Without [Recovery], a panic of the route's handler behind
    middlewares that wait for [Next] comes out of [handle]: nothing runs
    after it, so the second halves of the middlewares are skipped and
    nothing is written. *)
Theorem panic_without_Recovery r ms a s n params :
  getRoute r (Method (ctx s)) (Path (ctx s)) = Ok (Some (n, params)) →
  handlers r !! route_key (Method (ctx s)) (pattern n) = Some (Printf a Crash) →
  index (ctx s) = (-1)%Z →
  ∃ sp,
    handle r (wrap <$> ms) s = Some (Panicked sp) ∧
    trace sp = trace s ++ pre_phases 0 ms ++
               [Enter (Z.of_nat (length ms)); Log a].
Proof.
  intros Hget Hh Hidx. rewrite <- handleH_Plain. unfold handleH, NextH.
  rewrite Hget, Hh. simpl.
  destruct (crash_from a [] ms [] (incr_index (set_Params params s))
              (S (length ((Plain <$> (wrap <$> ms)) ++ [Plain (Printf a Crash)]))))
    as (sp & Hrun & Htr & _).
  - simpl. lia.
  - rewrite length_app, !length_fmap. simpl. lia.
  - exists sp. simpl in Hrun, Htr. done.
Qed.

Lemma panic_without_Recovery_witness :
  ∃ r sp,
    register [("GET", "/panic", Printf "route" Crash)] newRouter = Ok r ∧
    handle r (wrap <$> [("in", "out")]) (newContext "GET" "/panic")
    = Some (Panicked sp) ∧
    trace sp = [Enter 0; Log "in"; Enter 1; Log "route"].
Proof.
  set (r := match register [("GET", "/panic", Printf "route" Crash)] newRouter
            with Ok r => r | Panic => newRouter end).
  exists r.
  destruct (panic_without_Recovery r [("in", "out")] "route"
              (newContext "GET" "/panic")
              (mkNode "/panic" "panic" [] false) ∅) as (sp & Hrun & Htr).
  - vm_compute; reflexivity.
  - vm_compute; reflexivity.
  - reflexivity.
  - exists sp. split; [vm_compute; reflexivity|]. split; [exact Hrun | exact Htr].
Defined.

(** ** The log of the set-up *)

Lemma call_printed c e e' :
  setup [c] e = Ok e' → printed_inv e → printed_inv e'.
Proof.
  assert (∀ group method comp h e1,
    method = "GET" ∨ method = "POST" →
    group_addRoute e group method comp h = Ok e1 →
    printed_inv e → printed_inv e1) as Hadd.
  { intros group method comp h e1 Hm HA [Hmethods Hkeys].
    apply group_addRoute_extends in HA as (_ & g & _ & Hadd & Hpr).
    apply addRoute_inserted in Hadd as (_ & _ & Hh & _).
    split.
    - intros m p. rewrite Hpr.
      intros [Hin|[= -> ->]%list_elem_of_singleton]%elem_of_app; eauto.
    - intros key. rewrite Hh, Hpr. rewrite lookup_insert_is_Some, Hkeys. split.
      + intros [<-|[_ (m & p & Hin & ->)]].
        * exists method, (prefix g +:+ comp). split; [|done].
          apply elem_of_app. right. by apply list_elem_of_singleton.
        * exists m, p. split; [|done]. apply elem_of_app. by left.
      + intros (m & p & [Hin|[= -> ->]%list_elem_of_singleton]%elem_of_app & ->).
        * destruct (decide (route_key method (prefix g +:+ comp) = route_key m p));
            [by left|]. right. split; [done|]. eauto.
        * by left. }
  intros Hc Hinv. simpl in Hc.
  destruct c as [group prefix0|group mws|group comp h|group comp h].
  - destruct (Group e group prefix0) as [[e1 c]|] eqn:HG; [|done]. simpl in Hc.
    injection Hc as <-. unfold Group in HG.
    destruct (at_index _ _); [|done]. by injection HG as <- _.
  - destruct (Use e group mws) as [e1|] eqn:HU; [|done]. simpl in Hc.
    injection Hc as <-. unfold Use in HU.
    destruct (at_index _ _); [|done]. by injection HU as <-.
  - unfold GET in Hc. destruct (group_addRoute _ _ _ _ _) as [e1|] eqn:HA; [|done].
    simpl in Hc. injection Hc as <-. eapply Hadd; [|done..]. by left.
  - unfold POST in Hc. destruct (group_addRoute _ _ _ _ _) as [e1|] eqn:HA; [|done].
    simpl in Hc. injection Hc as <-. eapply Hadd; [|done..]. by right.
Qed.

(** X24. On an engine set up by calls, the routes that the set-up has
    logged are registered under [GET] or [POST], and the keys of the table
    of handlers are exactly the keys of the logged routes. *)
Theorem printed_routes calls e :
  setup calls New = Ok e →
  (∀ method pattern0, (method, pattern0) ∈ printed e →
     method = "GET" ∨ method = "POST") ∧
  (∀ key, is_Some (handlers (engine_router e) !! key) ↔
     ∃ method pattern0,
       (method, pattern0) ∈ printed e ∧ key = route_key method pattern0).
Proof.
  assert (∀ e0 e1, setup calls e0 = Ok e1 → printed_inv e0 → printed_inv e1)
    as Hall.
  { induction calls as [|c calls IH]; intros e0 e1.
    - by intros [= <-].
    - intros (e' & Hstep & Hrest)%setup_cons Hinv.
      eapply IH; [done|]. by eapply call_printed. }
  intros Hsetup. apply (Hall New e Hsetup). split.
  - by intros ? ? ?%elem_of_nil.
  - intros key. simpl. rewrite lookup_empty. split.
    + by intros [? ?].
    + by intros (? & ? & ?%elem_of_nil & _).
Qed.

Lemma printed_routes_witness :
  ∃ e,
    setup [CallGroup 0 "/g1"; CallGET 1 "/hello/:name" Return;
           CallPOST 0 "/login" Return] New = Ok e ∧
    printed e = [("GET", "/g1/hello/:name"); ("POST", "/login")] ∧
    (∀ method pattern0, (method, pattern0) ∈ printed e →
       method = "GET" ∨ method = "POST") ∧
    (∀ key, is_Some (handlers (engine_router e) !! key) ↔
       ∃ method pattern0,
         (method, pattern0) ∈ printed e ∧ key = route_key method pattern0).
Proof.
  set (calls := [CallGroup 0 "/g1"; CallGET 1 "/hello/:name" Return;
                 CallPOST 0 "/login" Return]).
  set (e := match setup calls New with Ok e => e | Panic => New end).
  exists e. split; [vm_compute; reflexivity|]. split; [vm_compute; reflexivity|].
  apply (printed_routes calls e). vm_compute; reflexivity.
Defined.

(** ** A middleware that calls [Fail] at once *)

Lemma entered_upto_refl i s o : final o = s → entered_upto i s o.
Proof. intros <-. exists []. by rewrite app_nil_r. Qed.

Lemma entered_upto_seq i s s1 o evs0 :
  trace s1 = trace s ++ evs0 → Forall (λ e, (e ≤ i)%Z) (enters evs0) →
  entered_upto i s1 o → entered_upto i s o.
Proof.
  intros Htr0 H0 (evs & Htr & Hall). exists (evs0 ++ evs).
  split; [by rewrite Htr, Htr0, app_assoc|].
  rewrite enters_app. by apply Forall_app.
Qed.

Lemma entered_upto_trans i s s1 o :
  entered_upto i s (Returned s1) → entered_upto i s1 o → entered_upto i s o.
Proof.
  intros (evs1 & Htr1 & Hall1) Ho. by eapply entered_upto_seq.
Qed.

Lemma entered_upto_extend i s o o2 evs0 :
  entered_upto i s o →
  trace (final o2) = trace (final o) ++ evs0 → enters evs0 = [] →
  entered_upto i s o2.
Proof.
  intros (evs & Htr & Hall) Htr0 Hno. exists (evs ++ evs0).
  split; [by rewrite Htr0, Htr, app_assoc|].
  by rewrite enters_app, Hno, app_nil_r.
Qed.

(** The body of a handler before the position [i], or any body once the
    chain is exhausted. *)
Lemma run_guarded handlers0 (i : Z) next p :
  (∀ s1 o, (index (ctx s1) < i ∨ Z.of_nat (length handlers0) ≤ index (ctx s1))%Z →
     next s1 = Some o →
     entered_upto i s1 o ∧
     ∀ s', o = Returned s' → (Z.of_nat (length handlers0) ≤ index (ctx s'))%Z) →
  ∀ s o, (index (ctx s) < i ∨ Z.of_nat (length handlers0) ≤ index (ctx s))%Z →
    run handlers0 next p s = Some o →
    entered_upto i s o ∧
    ∀ s', o = Returned s' →
      (index (ctx s') < i ∨ Z.of_nat (length handlers0) ≤ index (ctx s'))%Z.
Proof.
  intros Hnext.
  assert (∀ (k : Prog) s s1 evs0 o,
    (∀ s o, (index (ctx s) < i ∨ Z.of_nat (length handlers0) ≤ index (ctx s))%Z →
       run handlers0 next k s = Some o →
       entered_upto i s o ∧
       ∀ s', o = Returned s' →
         (index (ctx s') < i ∨ Z.of_nat (length handlers0) ≤ index (ctx s'))%Z) →
    trace s1 = trace s ++ evs0 → enters evs0 = [] →
    (index (ctx s1) < i ∨ Z.of_nat (length handlers0) ≤ index (ctx s1))%Z →
    run handlers0 next k s1 = Some o →
    entered_upto i s o ∧
    ∀ s', o = Returned s' →
      (index (ctx s') < i ∨ Z.of_nat (length handlers0) ≤ index (ctx s'))%Z)
    as Hstep.
  { intros k s s1 evs0 o IH Htr0 Hno Hs1 Hrun.
    destruct (IH s1 o Hs1 Hrun) as [Hupto Hret]. split; [|done].
    eapply entered_upto_seq; [done| |done]. rewrite Hno. constructor. }
  induction p as [| |msg k IH|f k IH|b k1 IH1 k2 IH2|k IH|code err k IH
                  |code body0 k IH|code obj k IH]; intros s o Hs; simpl.
  - intros [= <-]. split; [by apply entered_upto_refl|]. by intros ? [= <-].
  - intros [= <-]. split; [by apply entered_upto_refl | done].
  - by apply (Hstep k s _ [Log msg]).
  - apply (Hstep k s _ []); [done| |done|done]. simpl. by rewrite app_nil_r.
  - destruct (b (ctx s)); [by apply IH1 | by apply IH2].
  - destruct (next s) as [o1|] eqn:Ho1; [|done].
    destruct (Hnext s o1 Hs Ho1) as [Hupto1 Hret1].
    destruct o1 as [s1|s1].
    + intros Hrun. destruct (IH s1 o) as [Hupto Hret]; [|done|].
      { right. by apply Hret1. }
      split; [|done]. by eapply entered_upto_trans.
    + intros [= <-]. done.
  - apply (Hstep k s _ [SetHeader "Content-Type" "application/json";
                        WriteHeader code; Encode [("message", err)]]);
      [done| |done|].
    + simpl. by rewrite <- !app_assoc.
    + right. simpl. lia.
  - apply (Hstep k s _ [SetHeader "Content-Type" "text/plain"; WriteHeader code;
                        Write (body0 (ctx s))]); [done| |done|done].
    simpl. by rewrite <- !app_assoc.
  - apply (Hstep k s _ [SetHeader "Content-Type" "application/json";
                        WriteHeader code; Encode obj]); [done| |done|done].
    simpl. by rewrite <- !app_assoc.
Qed.

Lemma Next_forH_guarded hs (i : nat) code err k :
  hs !! i = Some (Plain (CallFail code err k)) →
  ∀ fuel s o,
    (index (ctx s) ≤ Z.of_nat i ∨ Z.of_nat (length hs) ≤ index (ctx s))%Z →
    Next_forH fuel hs s = Some o →
    entered_upto (Z.of_nat i) s o.
Proof.
  intros Hi. pose proof (length_fmap body hs) as Hlen.
  induction fuel as [|fuel IH]; intros s o Hs; [done|].
  rewrite Next_forH_S. destruct (decide _) as [Hlt|Hge];
    [|intros [= <-]; by apply entered_upto_refl].
  destruct (decide (0 ≤ index (ctx s))%Z) as [Hpos|Hneg];
    [|intros [= <-]; by apply entered_upto_refl].
  destruct (hs !! Z.to_nat (index (ctx s))) as [h|] eqn:Hh;
    [|intros [= <-]; by apply entered_upto_refl].
  assert (∀ s1 o1,
    (index (ctx s1) < Z.of_nat i ∨
     Z.of_nat (length (body <$> hs)) ≤ index (ctx s1))%Z →
    Next_forH fuel hs (incr_index s1) = Some o1 →
    entered_upto (Z.of_nat i) s1 o1 ∧
    ∀ s', o1 = Returned s' →
      (Z.of_nat (length (body <$> hs)) ≤ index (ctx s'))%Z) as Hnext.
  { intros s1 o1 Hs1 Ho1. split.
    - destruct (IH (incr_index s1) o1) as (evs & Htr & Hall); [simpl; lia|done|].
      by exists evs.
    - intros s' ->. rewrite Hlen. by eapply Next_forH_Returned. }
  assert (∀ o1,
    run_handler (body <$> hs) (λ s1, Next_forH fuel hs (incr_index s1)) h
      (emit (Enter (index (ctx s))) s) = Some o1 →
    entered_upto (Z.of_nat i) (emit (Enter (index (ctx s))) s) o1 ∧
    ∀ s', o1 = Returned s' →
      (index (ctx s') < Z.of_nat i ∨
       Z.of_nat (length (body <$> hs)) ≤ index (ctx s'))%Z) as Hrun.
  { intros o1. destruct (decide (index (ctx s) = Z.of_nat i)) as [Heq|Hne].
    - rewrite Heq, Nat2Z.id, Hi in Hh. injection Hh as <-. simpl.
      intros Hrun.
      apply (run_guarded _ (Z.of_nat i) _ k Hnext) in Hrun as [Hupto Hret];
        [|right; simpl; lia].
      split; [|done].
      eapply (entered_upto_seq _ _ _ _
                [SetHeader "Content-Type" "application/json"; WriteHeader code;
                 Encode [("message", err)]]); [|by constructor|done].
      simpl. by rewrite <- !app_assoc.
    - assert (index (ctx (emit (Enter (index (ctx s))) s)) < Z.of_nat i
              ∨ Z.of_nat (length (body <$> hs))
                ≤ index (ctx (emit (Enter (index (ctx s))) s)))%Z as Hs1
        by (simpl; lia).
      destruct h as [p|line|report]; simpl.
      + by apply run_guarded.
      + destruct (Next_forH _ _ _) as [o2|] eqn:Ho2; [|done].
        destruct (Hnext _ o2 Hs1 Ho2) as [Hupto Hret].
        destruct o2 as [s2|s2]; intros [= <-]; [|done].
        split.
        * by eapply (entered_upto_extend _ _ _ _ [Log _]).
        * intros ? [= <-]. right. simpl. by apply Hret.
      + destruct (Next_forH _ _ _) as [o2|] eqn:Ho2; [|done].
        destruct (Hnext _ o2 Hs1 Ho2) as [Hupto Hret].
        destruct o2 as [s2|s2]; intros [= <-].
        { split; [done|]. intros ? [= <-]. right. by apply Hret. }
        split.
        * eapply (entered_upto_extend _ _ _ _
                    [Log report; SetHeader "Content-Type" "application/json";
                     WriteHeader 500;
                     Encode [("message", "Internal Server Error")]]);
            [done| |done].
          simpl. by rewrite <- !app_assoc.
        * intros ? [= <-]. right. simpl. lia. }
  destruct (run_handler _ _ _ _) as [o1|]; [|done].
  destruct (Hrun o1 eq_refl) as [Hupto Hret].
  assert (entered_upto (Z.of_nat i) s o1) as Hupto'.
  { apply (entered_upto_seq _ _ (emit (Enter (index (ctx s))) s) _
             [Enter (index (ctx s))]); [done| |done].
    repeat constructor. lia. }
  destruct o1 as [s1|s1]; [|by intros [= <-]].
  intros Ho. eapply entered_upto_trans; [done|].
  destruct (IH (incr_index s1) o) as (evs & Htr & Hall); [|done|by exists evs].
  specialize (Hret s1 eq_refl). simpl. lia.
Qed.

(** X25. When a middleware of a group calls [Fail] at once, as [onlyForG2]
    does, then for every request whose path has the prefix of the group,
    [ServeHTTP] ends and enters middlewares only: the handler that [handle]
    appends for the route is never entered, whatever the other handlers
    do. *)
Theorem failing_middleware_guards e g method path code err k :
  g ∈ groups e →
  HasPrefix path (prefix g) = true →
  Plain (CallFail code err k) ∈ middlewares g →
  ∃ o, ServeHTTP e method path = Some o ∧
       Forall (λ i, (i < Z.of_nat (length (ServeHTTP_range (groups e) path [])))%Z)
         (enters (trace (final o))).
Proof.
  intros Hg Hpath Hin.
  set (mws := ServeHTTP_range (groups e) path []).
  assert (∃ i, mws !! i = Some (Plain (CallFail code err k))) as [i Hi].
  { apply list_elem_of_lookup. unfold mws. rewrite ServeHTTP_range_eq. simpl.
    apply list_elem_of_bind. exists g. split; [done|].
    by apply list_elem_of_filter. }
  pose proof (lookup_lt_Some _ _ _ Hi) as Hlt.
  assert (∀ h s, index (ctx s) = (-1)%Z → trace s = [] →
    ∃ o, NextH (mws ++ [Plain h]) s = Some o ∧
         Forall (λ j, (j < Z.of_nat (length mws))%Z) (enters (trace (final o))))
    as Hchain.
  { intros h s Hidx Htr.
    destruct (NextH_ordered (mws ++ [Plain h]) s) as (o & Ho & _).
    exists o. split; [done|]. unfold NextH in Ho.
    apply (Next_forH_guarded _ i code err k) in Ho as (evs & Htr' & Hall).
    - simpl in Htr'. rewrite Htr', Htr. simpl.
      eapply Forall_impl; [done|]. simpl. lia.
    - by rewrite lookup_app_l.
    - simpl. lia. }
  unfold ServeHTTP, handleH. fold mws.
  destruct (getRoute _ _ _) as [[[n params]|]|].
  - by apply Hchain.
  - by apply Hchain.
  - eexists. split; [done|]. constructor.
Qed.

Lemma failing_middleware_guards_witness :
  ∃ e o,
    setup [CallUse 0 [Logger (λ _, "log"); Recovery "stack"];
           CallGroup 0 "/g2"; CallUse 1 [Plain (onlyForG2 "g2")];
           CallGET 1 "/hello/:name" (Printf "hello" Return)] New = Ok e ∧
    ServeHTTP e "GET" "/g2/hello/zinc" = Some o ∧
    length (ServeHTTP_range (groups e) "/g2/hello/zinc" []) = 3 ∧
    Forall (λ i, (i < Z.of_nat
                     (length (ServeHTTP_range (groups e) "/g2/hello/zinc" [])))%Z)
      (enters (trace (final o))).
Proof.
  set (calls := [CallUse 0 [Logger (λ _, "log"); Recovery "stack"];
                 CallGroup 0 "/g2"; CallUse 1 [Plain (onlyForG2 "g2")];
                 CallGET 1 "/hello/:name" (Printf "hello" Return)]).
  set (e := match setup calls New with Ok e => e | Panic => New end).
  destruct (failing_middleware_guards e
              (mkRouterGroup "/g2" [Plain (onlyForG2 "g2")])
              "GET" "/g2/hello/zinc" 500 "Internal Server Error"
              (Printf "g2" Return)) as (o & Hrun & Hall).
  - let gs := eval vm_compute in (groups e) in change (groups e) with gs.
    right. left.
  - reflexivity.
  - left.
  - exists e, o. split; [vm_compute; reflexivity|]. split; [exact Hrun|].
    split; [reflexivity | exact Hall].
Defined.
